(** * FeatureLoader (modules/nuclide-commons-atom/FeatureLoader.js)

    A shallow embedding of the feature loader: the pure helpers
    ([reorderFeatures], [groupFeatures], [getEnabledFeatures]) are Rocq
    functions; the methods that talk to Atom ([load], [activate],
    [updateActiveFeatures], [deactivate], [serialize]) are programs of a
    small state-and-exception monad whose state is the loader object
    together with the log of the host calls and their outcomes. The two
    reads of [atom.config.get] and the load settings read when the module
    is loaded are not logged: what they answer is given to the methods
    ([AtomConfig], [devMode]). *)

From Stdlib Require Import ZArith String Ascii List Sorted.
From stdpp Require Import base option list gmap strings pretty fin_maps sorting.

Local Open Scope Z_scope.

(** ** JavaScript values *)

(** The values that reach the loader through configuration and package
    metadata: rule values, service descriptors, raw group definitions.
    [JsObject] stands for any non-null object that is not an array, a
    function included. *)
Inductive JsValue :=
| JsUndefined
| JsNull
| JsBool (b : bool)
| JsNumber (n : Z)
| JsString (s : string)
| JsArray (items : list string)
| JsObject.

#[global] Instance JsValue_eq_dec : EqDecision JsValue.
Proof. solve_decision. Defined.

(** [Boolean(v)]. *)
Definition Boolean (v : JsValue) : bool :=
  match v with
  | JsUndefined | JsNull => false
  | JsBool b => b
  | JsNumber n => negb (n =? 0)
  | JsString s => negb (String.eqb s "")
  | JsArray _ | JsObject => true
  end.

(** [v == null]: true of [null] and [undefined] only. *)
Definition loose_eq_null (v : JsValue) : bool :=
  match v with
  | JsUndefined | JsNull => true
  | _ => false
  end.

(** [v === w] on the primitive values compared in this file. *)
Definition strict_eq (v w : JsValue) : bool := bool_decide (v = w).

(** The names under which [Object.prototype] has a property: a plain
    object that has no property of its own under one of them answers with
    the inherited one, a function (the prototype itself for [__proto__]). *)
Definition Object_prototype : list string :=
  ["constructor"; "__defineGetter__"; "__defineSetter__"; "hasOwnProperty";
   "__lookupGetter__"; "__lookupSetter__"; "isPrototypeOf";
   "propertyIsEnumerable"; "toString"; "valueOf"; "__proto__";
   "toLocaleString"].

(** [obj[key]] on a plain object, given as the map of its own properties:
    the own property, or else the one inherited from [Object.prototype], or
    else [undefined]. *)
Definition getProperty (o : gmap string JsValue) (key : string) : JsValue :=
  match o !! key with
  | Some v => v
  | None => if bool_decide (key ∈ Object_prototype) then JsObject else JsUndefined
  end.

(** [idx(obj, _ => _[key])]: [obj[key]], or [undefined] when the object is
    null. *)
Definition idx (obj : option (gmap string JsValue)) (key : string) : JsValue :=
  match obj with
  | None => JsUndefined
  | Some o => getProperty o key
  end.

(** ** JSON data

    The configuration schema a feature brings along ([atomConfig],
    [nuclide.config]) is part of its package.json. An object is the list of
    its own properties in key order, each key once. *)
#[warnings="-register-all"] Inductive Json :=
| JsonNull
| JsonBool (b : bool)
| JsonNumber (n : Z)
| JsonString (s : string)
| JsonArray (items : list Json)
| JsonObject (props : list (string * Json)).

#[global] Instance Json_eq_dec : EqDecision Json.
Proof.
  unfold EqDecision, Decision. fix Json_eq_dec 1. intros a b.
  decide equality.
  all: try apply bool_dec. all: try apply Z.eq_dec. all: try apply string_dec.
  - apply List.list_eq_dec. exact Json_eq_dec.
  - apply List.list_eq_dec. intros p q. decide equality. apply string_dec.
Defined.

(** ** Features *)

(** The package metadata of a feature. [providedServices] and
    [consumedServices], whose keys [buildConfig] enumerates, are lists of
    own properties in key order, each key once; [nuclide] is absent, or an
    object whose [config] may be absent. *)
Record FeaturePkg := {
  name : string;
  atomConfig : option (list (string * Json));
  consumedServices : option (list (string * JsValue));
  description : option string;
  displayName : option string;
  nuclide : option (option (list (string * Json)));
  providedServices : option (list (string * JsValue));
  featureGroups : option (list string);
}.

(** A feature is a JavaScript object: [ref] is its identity, so two objects
    with equal fields are still two features. Features are never mutated,
    hence comparing by identity is comparing the whole record. *)
Record Feature := {
  ref : nat;
  path : string;
  pkg : FeaturePkg;
}.

#[global] Instance FeaturePkg_eq_dec : EqDecision FeaturePkg.
Proof. solve_decision. Defined.

#[global] Instance Feature_eq_dec : EqDecision Feature.
Proof. solve_decision. Defined.

Definition ALWAYS_ENABLED : string := "always".
Definition NEVER_ENABLED : string := "never".
Definition DEFAULT : string := "default".
Definition REQUIRED_FEATURE_GROUP : string := "nuclide-required".

(** ** [path.basename] (POSIX)

    Trailing slashes are ignored; the result is what follows the last
    remaining slash. *)
Definition is_slash (c : ascii) : bool := Ascii.eqb c "/"%char.

Fixpoint drop_slashes (cs : list ascii) : list ascii :=
  match cs with
  | c :: cs' => if is_slash c then drop_slashes cs' else cs
  | [] => []
  end.

Fixpoint take_component (cs : list ascii) : list ascii :=
  match cs with
  | c :: cs' => if is_slash c then [] else c :: take_component cs'
  | [] => []
  end.

Definition basename (p : string) : string :=
  string_of_list_ascii
    (rev (take_component (drop_slashes (rev (list_ascii_of_string p))))).

Definition packageNameFromPath (pkgPath : string) : string := basename pkgPath.

(** The plain object with the given own properties: where a key is listed
    more than once, its last value stands. *)
Definition Object_fromEntries {A} (entries : list (string * A)) : gmap string A :=
  fold_left (fun o entry => <[fst entry := snd entry]> o) entries ∅.

Definition packageIsRepositoryProvider (pkg : FeaturePkg) : bool :=
  Boolean (idx (Object_fromEntries <$> providedServices pkg)
               "atom.repository-provider").

Definition getFeatureDefaultValue (feature : Feature) : string :=
  let name := packageNameFromPath (path feature) in
  if String.prefix "sample-" name then NEVER_ENABLED else DEFAULT.

(** ** [Set<Feature>]

    A JavaScript [Set] iterates in insertion order and holds each object
    once: a duplicate-free list, oldest element first. *)
Definition Set_has (s : list Feature) (x : Feature) : bool :=
  bool_decide (x ∈ s).

Definition Set_add (s : list Feature) (x : Feature) : list Feature :=
  if Set_has s x then s else s ++ [x].

(** [new Set(iterable)]. *)
Definition new_Set (values : list Feature) : list Feature :=
  fold_left Set_add values [].

(** Modelled from the spec: [setUnion] of nuclide-commons/collection is not
    among the sources; section 4.3 uses it as "the union of [groupIndex[g]]
    for each selected group [g]", a fresh set receiving the members of each
    argument in turn. *)
Definition setUnion (sets : list (list Feature)) : list Feature :=
  new_Set (concat sets).

(** Modelled from the spec: [MultiMap] of nuclide-commons/collection is not
    among the sources; sections 3 and 4.3 describe the group index as a
    mapping from a group name to a set of features whose lookup gives the
    "empty set if absent". [set] replaces the binding of a key by the set of
    the given values. *)
Definition MultiMap_get (key : string) (m : gmap string (list Feature))
  : list Feature :=
  default [] (m !! key).

(** Modelled from the spec: [MultiMap.set], by which [groupFeatures] binds a
    group name to "the set of catalog features declared as members"
    (section 2). *)
Definition MultiMap_set (key : string) (values : list Feature)
    (m : gmap string (list Feature)) : gmap string (list Feature) :=
  <[key := new_Set values]> m.

(** ** [groupFeatures] *)

(** The [namesToFeatures] map of [groupFeatures]: a later feature with the
    same base name replaces an earlier one. *)
Definition namesToFeatures (features : list Feature) : gmap string Feature :=
  fold_left (fun m feature => <[basename (path feature) := feature]> m)
            features ∅.

Definition groupFeatures (features : list Feature)
    (rawFeatureGroups : gmap string JsValue) : gmap string (list Feature) :=
  map_fold
    (fun key value featureGroups =>
       match value with
       | JsArray names =>
           let featuresForKey :=
             omap (fun featureName => namesToFeatures features !! featureName)
                  names in
           MultiMap_set key featuresForKey featureGroups
       | _ => featureGroups
       end)
    ∅ rawFeatureGroups.

(** ** [reorderFeatures] *)

(** [Map<Feature, number>] keyed by object identity. *)
Definition Map_set (k : Feature) (v : nat) (m : Feature -> option nat)
  : Feature -> option nat :=
  fun k' => if decide (k' = k) then Some v else m k'.

Definition new_Map (entries : list (Feature * nat)) : Feature -> option nat :=
  fold_left (fun m e => Map_set (fst e) (snd e) m) entries (fun _ => None).

(** [nullthrows(x)]: [None] stands for the thrown error. *)
Definition nullthrows {A} (x : option A) : option A := x.

(** The comparator handed to [sort]. *)
Definition compareFeatures (originalOrder : Feature -> option nat)
    (a b : Feature) : option Z :=
  let aIsRepoProvider := packageIsRepositoryProvider (pkg a) in
  let bIsRepoProvider := packageIsRepositoryProvider (pkg b) in
  if negb (Bool.eqb aIsRepoProvider bIsRepoProvider) then
    Some (if aIsRepoProvider then -1 else 1)
  else
    aIndex ← nullthrows (originalOrder a);
    bIndex ← nullthrows (originalOrder b);
    Some (Z.of_nat aIndex - Z.of_nat bIndex).

(** [Array.prototype.sort(compare)], as a stable insertion sort: an element
    goes in front of the first one it does not compare greater than. A
    comparator that throws aborts the sort. *)
Fixpoint sort_insert {A} (compare : A -> A -> option Z) (x : A) (l : list A)
  : option (list A) :=
  match l with
  | [] => Some [x]
  | y :: l' =>
      c ← compare x y;
      if c <=? 0 then Some (x :: y :: l')
      else cons y <$> sort_insert compare x l'
  end.

Fixpoint Array_sort {A} (compare : A -> A -> option Z) (l : list A)
  : option (list A) :=
  match l with
  | [] => Some []
  | x :: l' => Array_sort compare l' ≫= sort_insert compare x
  end.

(** The source sorts [features_.slice()], a copy: the argument is left as it
    was, and the sorted copy is the result. *)
Definition reorderFeatures (features_ : list Feature) : option (list Feature) :=
  let features := features_ in
  let originalOrder := new_Map (imap (fun i feature => (feature, i)) features) in
  Array_sort (compareFeatures originalOrder) features.

(** ** The loader object *)

(** A package object handed out by the host. *)
Record AtomPackage := {
  packName : string;
  canDeferMainModuleRequireStorageKey : string;
}.

#[global] Instance AtomPackage_eq_dec : EqDecision AtomPackage.
Proof. solve_decision. Defined.

(** The calls the loader issues to its surroundings and the log records:
    those to Atom, [atom.config.get] apart, and to the modules
    ./feature-config and ./experimental-packages, which section 1 of the
    specification treats as external collaborators as well.
    [dispose origin] releases the subscription that the call [origin]
    returned. *)
Inductive Call :=
| deserializers_add (name : string)
| featureConfig_setPackageName (name : string)
| packages_onDidLoadPackage
| packages_loadPackage (path : string)
| activateExperimentalPackages (paths : list string)
| packages_getLoadedPackage (name : string)
| packages_getActivePackage (name : string)
| packages_activatePackage (path : string)
| packages_deactivatePackage (name : string) (suppressSerialization : bool)
| packages_serializePackage (pack : AtomPackage)
| localStorage_removeItem (key : string)
| config_onDidChange (keyPath : string)
| dispose (origin : Call).

#[global] Instance Call_eq_dec : EqDecision Call.
Proof. solve_decision. Defined.

(** Modelled from the spec: [UniversalDisposable] of nuclide-commons is not
    among the sources; section 9 describes it as "an explicit composite
    handle whose release tears down all sub-subscriptions". A member is
    named by the host call that returned it. *)
Record UniversalDisposable := {
  disposed : bool;
  teardowns : list Call;
}.

#[global] Instance UniversalDisposable_eq_dec : EqDecision UniversalDisposable.
Proof. solve_decision. Defined.

Definition new_UniversalDisposable (members : list Call) : UniversalDisposable :=
  {| disposed := false; teardowns := members |}.

(** ** The configuration schema

    The objects [buildConfig] makes are maps of their own properties. *)

(** The [setting] of a feature: an entry of [config.use.properties]. *)
Record Setting := {
  title : string;
  setting_description : string;
  setting_type : string;
  setting_enum : list (string * string);
  setting_default : string;
}.

(** A property of a section: the setting of a feature, or an entry of the
    configuration schema that a feature brought along. *)
Inductive Property :=
| FeatureSetting (setting : Setting)
| SchemaEntry (entry : gmap string Json).

(** [config.use], and the section [config[name]] of a feature that has a
    configuration schema; the title and the description of the latter are
    [undefined] when the package gives none. *)
Record ConfigSection := {
  section_type : string;
  section_title : option string;
  section_description : option string;
  collapsed : bool;
  properties : gmap string Property;
}.


Record FeatureLoader := {
  _activationDisposable : option UniversalDisposable;
  _loadDisposable : UniversalDisposable;
  _config : option (gmap string ConfigSection);
  _features : list Feature;
  _featureGroups : gmap string (list Feature);
  _pkgName : string;
  _path : string;
  _currentlyActiveFeatures : list Feature;
}.

Record FeatureLoaderParams := {
  p_path : string;
  p_features : list Feature;
  p_featureGroups : option (gmap string JsValue);
}.

(** The constructor fails only if [reorderFeatures] throws. *)
Definition constructor (params : FeatureLoaderParams) : option FeatureLoader :=
  features ← reorderFeatures (p_features params);
  Some {| _path := p_path params;
          _features := features;
          _loadDisposable := new_UniversalDisposable [];
          _pkgName := packageNameFromPath (p_path params);
          _featureGroups :=
            groupFeatures features
              (match p_featureGroups params with
               | None => ∅
               | Some featureGroups => featureGroups
               end);
          _currentlyActiveFeatures := [];
          _config := None;
          _activationDisposable := None |}.

Definition getUseKeyPath (this : FeatureLoader) : string :=
  _pkgName this +:+ ".use".

Definition getEnabledFeatureGroupsKeyPath (this : FeatureLoader) : string :=
  _pkgName this +:+ ".enabledFeatureGroups".

(** What [atom.config.get] answers at the two key paths of the loader when a
    method runs: the rule table, a plain object, and the enabled-groups
    selection, each possibly null. The two reads come first in
    [getEnabledFeatures] and are not entered in the log. *)
Record AtomConfig := {
  useFeatureRules : option (gmap string JsValue);
  enabledFeatureGroups : option (list string);
}.

(** ** [getEnabledFeatures] *)

Definition featuresInEnabledGroups (cfg : AtomConfig) (this : FeatureLoader)
  : list Feature :=
  match enabledFeatureGroups cfg with
  | Some groups =>
      setUnion
        (map (fun featureGroup => MultiMap_get featureGroup (_featureGroups this))
             groups)
  | None => new_Set (_features this)
  end.

(** [MultiMap.get] always answers a set, so the [|| new Set()] of the source
    never takes its right operand. *)
Definition requiredFeatures (this : FeatureLoader) : list Feature :=
  MultiMap_get REQUIRED_FEATURE_GROUP (_featureGroups this).

Definition featureRule (cfg : AtomConfig) (feature : Feature) : JsValue :=
  let featureName := packageNameFromPath (path feature) in
  let rawRule := idx (useFeatureRules cfg) featureName in
  if loose_eq_null rawRule then JsString (getFeatureDefaultValue feature)
  else rawRule.

Definition getEnabledFeatures (cfg : AtomConfig) (this : FeatureLoader)
  : list Feature :=
  new_Set
    (List.filter
       (fun feature =>
          let rule := featureRule cfg feature in
          strict_eq rule (JsString ALWAYS_ENABLED)
          || strict_eq rule (JsBool true)
          || (Set_has (featuresInEnabledGroups cfg this) feature
              && strict_eq rule (JsString DEFAULT))
          || Set_has (requiredFeatures this) feature)
       (_features this)).

(** ** [buildConfig] *)

Definition dquote : string := String "034"%char EmptyString.

(** [obj[key] = value] on a plain object, as far as its own properties go:
    assigning to [__proto__] runs the setter inherited from
    [Object.prototype] and makes no property. *)
Definition assignProperty {A} (key : string) (value : A) (obj : gmap string A)
  : gmap string A :=
  if String.eqb key "__proto__" then obj else <[key := value]> obj.

(** Truthiness of a JSON value. *)
Definition Json_truthy (v : Json) : bool :=
  match v with
  | JsonNull => false
  | JsonBool b => b
  | JsonNumber n => negb (n =? 0)
  | JsonString s => negb (String.eqb s "")
  | JsonArray _ | JsonObject _ => true
  end.

(** The own enumerable properties that [{...v}] copies: those of an object,
    the elements of an array and the characters of a string under their
    indices, nothing of a number, a boolean or [null]. *)
Definition spreadProperties (v : Json) : list (string * Json) :=
  match v with
  | JsonObject props => props
  | JsonArray items => imap (fun i item => (pretty i, item)) items
  | JsonString s =>
      imap (fun i c => (pretty i, JsonString (String c EmptyString)))
           (list_ascii_of_string s)
  | JsonNull | JsonBool _ | JsonNumber _ => []
  end.

(** [v.title]: [None] stands for the TypeError of reading a property of
    [null]; no prototype has a property of that name. *)
Definition Json_title (v : Json) : option (option Json) :=
  match v with
  | JsonNull => None
  | JsonObject props => Some (Object_fromEntries props !! "title")
  | JsonBool _ | JsonNumber _ | JsonString _ | JsonArray _ => Some None
  end.

(** [{...featurePkgConfig[key], title: featurePkgConfig[key].title || key}]. *)
Definition schemaEntry (key : string) (v : Json) : option (gmap string Json) :=
  title ← Json_title v;
  Some (<["title" := match title with
                     | Some t => if Json_truthy t then t else JsonString key
                     | None => JsonString key
                     end]>
          (Object_fromEntries (spreadProperties v))).

(** The loop over [Object.keys(featurePkgConfig)], filling [properties]. *)
Fixpoint schemaEntries (featurePkgConfig : list (string * Json))
    (properties : gmap string Property) : option (gmap string Property) :=
  match featurePkgConfig with
  | [] => Some properties
  | (key, v) :: rest =>
      entry ← schemaEntry key v;
      schemaEntries rest (assignProperty key (SchemaEntry entry) properties)
  end.

Definition featureSetting (devMode : bool) (feature : Feature) : Setting :=
  let featurePkg := pkg feature in
  let name := packageNameFromPath (path feature) in
  let provides :=
    match providedServices featurePkg with
    | Some services =>
        "<br/>**Provides:** _" +:+ String.concat ", " (map fst services) +:+ "_"
    | None => ""
    end in
  let consumes :=
    match consumedServices featurePkg with
    | Some services =>
        "<br/>**Consumes:** _" +:+ String.concat ", " (map fst services) +:+ "_"
    | None => ""
    end in
  {| title :=
       match displayName featurePkg with
       | None => "Enable the " +:+ dquote +:+ name +:+ dquote +:+ " feature"
       | Some d => "Enable " +:+ d
       end;
     setting_description :=
       default "" (description featurePkg)
       +:+ (if devMode then provides +:+ consumes else "");
     setting_type := "string";
     setting_enum :=
       [(ALWAYS_ENABLED, "Always enabled");
        (NEVER_ENABLED, "Never enabled");
        (DEFAULT, "Only when in an enabled package group")];
     setting_default := getFeatureDefaultValue feature |}.

(** [featurePkg.atomConfig || (featurePkg.nuclide && featurePkg.nuclide.config)]. *)
Definition featurePkgConfig (featurePkg : FeaturePkg) : option (list (string * Json)) :=
  match atomConfig featurePkg with
  | Some config => Some config
  | None =>
      match nuclide featurePkg with
      | Some n => n
      | None => None
      end
  end.

(** The body of the loop of [buildConfig]. Where [config[name]] is read back
    for a feature named [__proto__], it is the prototype just set, and
    filling its [properties] leaves the own properties of [config] alone. *)
Definition buildConfig_step (devMode : bool) (config : gmap string ConfigSection)
    (feature : Feature) : option (gmap string ConfigSection) :=
  let featurePkg := pkg feature in
  let name := packageNameFromPath (path feature) in
  use ← config !! "use";
  let config :=
    <["use" := {| section_type := section_type use;
                  section_title := section_title use;
                  section_description := section_description use;
                  collapsed := collapsed use;
                  properties :=
                    assignProperty name
                      (FeatureSetting (featureSetting devMode feature))
                      (properties use) |}]> config in
  match featurePkgConfig featurePkg with
  | Some entries =>
      properties ← schemaEntries entries ∅;
      Some (assignProperty name
              {| section_type := "object";
                 section_title := displayName featurePkg;
                 section_description := description featurePkg;
                 collapsed := true;
                 properties := properties |}
              config)
  | None => Some config
  end.

Definition useSection : ConfigSection :=
  {| section_type := "object";
     section_title := Some "Enabled Features";
     section_description := Some "Enable and disable individual features";
     collapsed := true;
     properties := ∅ |}.

(** [devMode] is what [atom.getLoadSettings()] answered when the module was
    loaded. [None] stands for the TypeError that a [null] entry of a
    feature's configuration schema raises. *)
Definition buildConfig (devMode : bool) (features : list Feature)
  : option (gmap string ConfigSection) :=
  fold_left
    (fun config feature => config ≫= fun c => buildConfig_step devMode c feature)
    features (Some {[ "use" := useSection ]}).

(** ** Host, log and the program monad *)

(** How a host call ends: it returns (a package, or nothing the loader
    looks at), or it throws an [Error] with a message. *)
Inductive Outcome :=
| Returned (v : option AtomPackage)
| Threw (message : string).

#[global] Instance Outcome_eq_dec : EqDecision Outcome.
Proof. solve_decision. Defined.

Inductive Event :=
| Called (c : Call) (o : Outcome)
| console_error (text : string).

#[global] Instance Event_eq_dec : EqDecision Event.
Proof. solve_decision. Defined.

(** The host answers a call knowing everything that happened before. *)
Definition Host := list Event -> Call -> Outcome.

Inductive Exn :=
| AssertionError
| TypeError
| HostError (message : string).

#[global] Instance Exn_eq_dec : EqDecision Exn.
Proof. solve_decision. Defined.

Definition message_of (err : Exn) : string :=
  match err with
  | AssertionError => "assertion failed"
  | TypeError => "Cannot read property 'title' of null"
  | HostError m => m
  end.

Inductive Result (A : Type) :=
| Ok (a : A)
| Throw (err : Exn).
Arguments Ok {A} a.
Arguments Throw {A} err.

Record World := {
  this : FeatureLoader;
  log : list Event;
}.

(** A method body: it may change the loader, extends the log, and either
    returns or throws; what it did before throwing stays done. *)
Definition M (A : Type) : Type := Host -> World -> Result A * World.

Definition ret {A} (a : A) : M A := fun _ w => (Ok a, w).

Definition bind {A B} (m : M A) (k : A -> M B) : M B :=
  fun host w =>
    match m host w with
    | (Ok a, w') => k a host w'
    | (Throw err, w') => (Throw err, w')
    end.

Declare Scope prog_scope.
Delimit Scope prog_scope with prog.
Notation "x <-- m ; k" := (bind m (fun x => k))
  (at level 100, m at next level, right associativity) : prog_scope.
Notation "m ;; k" := (bind m (fun _ => k))
  (at level 100, right associativity) : prog_scope.
Local Open Scope prog_scope.

Definition throw {A} (err : Exn) : M A := fun _ w => (Throw err, w).

Definition get_this : M FeatureLoader := fun _ w => (Ok (this w), w).

Definition modify_this (f : FeatureLoader -> FeatureLoader) : M unit :=
  fun _ w => (Ok tt, {| this := f (this w); log := log w |}).

Definition record (e : Event) (w : World) : World :=
  {| this := this w; log := log w ++ [e] |}.

Definition callHost (c : Call) : M (option AtomPackage) :=
  fun host w =>
    match host (log w) c with
    | Returned v => (Ok v, record (Called c (Returned v)) w)
    | Threw m => (Throw (HostError m), record (Called c (Threw m)) w)
    end.

Definition consoleError (text : string) : M unit :=
  fun _ w => (Ok tt, record (console_error text) w).

(** [try { body } catch (err) { handler(err) }]. *)
Definition try_catch (body : M unit) (handler : Exn -> M unit) : M unit :=
  fun host w =>
    match body host w with
    | (Ok a, w') => (Ok a, w')
    | (Throw err, w') => handler err host w'
    end.

(** [invariant(cond)]. *)
Definition invariant (cond : bool) : M unit :=
  if cond then ret tt else throw AssertionError.

(** [for (const x of xs) body(x)] and [xs.forEach(body)]. *)
Fixpoint forEach {A} (xs : list A) (body : A -> M unit) : M unit :=
  match xs with
  | [] => ret tt
  | x :: xs' => body x ;; forEach xs' body
  end.

(** ** The methods *)

(** Modelled from the spec: [UniversalDisposable.add] and [dispose] are not
    among the sources; a handle added to a released composite is released at
    once, and releasing a composite releases each member once. *)
Definition UniversalDisposable_add (member : Call) (d : UniversalDisposable)
  : M UniversalDisposable :=
  if disposed d then (callHost (dispose member) ;; ret d)
  else ret {| disposed := false; teardowns := teardowns d ++ [member] |}.

(** Modelled from the spec: [UniversalDisposable.dispose], "invoked exactly
    once" (section 9): a second call does nothing. [store] writes the
    composite back where the loader holds it; it is marked released before
    its members are. *)
Definition UniversalDisposable_dispose (d : UniversalDisposable)
    (store : UniversalDisposable -> FeatureLoader -> FeatureLoader) : M unit :=
  if disposed d then ret tt
  else (modify_this (store {| disposed := true; teardowns := teardowns d |}) ;;
        forEach (teardowns d) (fun member => callHost (dispose member) ;; ret tt) ;;
        modify_this (store {| disposed := true; teardowns := [] |})).

Definition set_loadDisposable (d : UniversalDisposable) (l : FeatureLoader)
  : FeatureLoader :=
  {| _activationDisposable := _activationDisposable l;
     _loadDisposable := d;
     _config := _config l;
     _features := _features l;
     _featureGroups := _featureGroups l;
     _pkgName := _pkgName l;
     _path := _path l;
     _currentlyActiveFeatures := _currentlyActiveFeatures l |}.

Definition set_config (c : option (gmap string ConfigSection)) (l : FeatureLoader)
  : FeatureLoader :=
  {| _activationDisposable := _activationDisposable l;
     _loadDisposable := _loadDisposable l;
     _config := c;
     _features := _features l;
     _featureGroups := _featureGroups l;
     _pkgName := _pkgName l;
     _path := _path l;
     _currentlyActiveFeatures := _currentlyActiveFeatures l |}.

Definition set_activationDisposable (d : option UniversalDisposable)
    (l : FeatureLoader) : FeatureLoader :=
  {| _activationDisposable := d;
     _loadDisposable := _loadDisposable l;
     _config := _config l;
     _features := _features l;
     _featureGroups := _featureGroups l;
     _pkgName := _pkgName l;
     _path := _path l;
     _currentlyActiveFeatures := _currentlyActiveFeatures l |}.

Definition set_currentlyActiveFeatures (s : list Feature) (l : FeatureLoader)
  : FeatureLoader :=
  {| _activationDisposable := _activationDisposable l;
     _loadDisposable := _loadDisposable l;
     _config := _config l;
     _features := _features l;
     _featureGroups := _featureGroups l;
     _pkgName := _pkgName l;
     _path := _path l;
     _currentlyActiveFeatures := s |}.

Definition safeDeactivate (feature : Feature) (suppressSerialization : bool)
  : M unit :=
  let name := packageNameFromPath (path feature) in
  try_catch
    (pack <-- callHost (packages_getLoadedPackage name);
     match pack with
     | Some _ =>
         callHost (packages_deactivatePackage name suppressSerialization) ;;
         ret tt
     | None => ret tt
     end)
    (fun err =>
       consoleError ("Error deactivating " +:+ dquote +:+ name +:+ dquote
                     +:+ ": " +:+ message_of err)).

Definition safeSerialize (feature : Feature) : M unit :=
  let name := packageNameFromPath (path feature) in
  try_catch
    (pack <-- callHost (packages_getActivePackage name);
     match pack with
     | Some p => callHost (packages_serializePackage p) ;; ret tt
     | None => ret tt
     end)
    (fun err =>
       consoleError ("Error serializing " +:+ dquote +:+ name +:+ dquote
                     +:+ ": " +:+ message_of err)).

(** The callback [load] hands to [whenPackageLoaded]; the host runs it once,
    when the root package has loaded. *)
Definition loadEnabledFeatures (cfg : AtomConfig) : M unit :=
  this <-- get_this;
  let featuresToLoad := getEnabledFeatures cfg this in
  forEach featuresToLoad
    (fun feature => callHost (packages_loadPackage (path feature)) ;; ret tt) ;;
  callHost (activateExperimentalPackages (map path featuresToLoad)) ;;
  ret tt.

Definition load (devMode : bool) : M unit :=
  this <-- get_this;
  invariant (negb (disposed (_loadDisposable this))) ;;
  callHost (deserializers_add (_pkgName this +:+ ".ForceMainModuleLoad")) ;;
  d <-- UniversalDisposable_add
          (deserializers_add (_pkgName this +:+ ".ForceMainModuleLoad"))
          (_loadDisposable this);
  modify_this (set_loadDisposable d) ;;
  callHost (featureConfig_setPackageName (_pkgName this)) ;;
  match buildConfig devMode (_features this) with
  | Some config => modify_this (set_config (Some config))
  | None => throw TypeError
  end ;;
  callHost packages_onDidLoadPackage ;;
  this <-- get_this;
  d <-- UniversalDisposable_add packages_onDidLoadPackage (_loadDisposable this);
  modify_this (set_loadDisposable d).

Definition updateActiveFeatures (cfg : AtomConfig) : M unit :=
  this <-- get_this;
  let featuresToActivate := getEnabledFeatures cfg this in
  forEach featuresToActivate
    (fun feature =>
       if negb (Set_has (_currentlyActiveFeatures this) feature)
       then callHost (packages_activatePackage (path feature)) ;; ret tt
       else ret tt) ;;
  forEach (_currentlyActiveFeatures this)
    (fun feature =>
       if negb (Set_has featuresToActivate feature)
       then safeDeactivate feature false
       else ret tt) ;;
  modify_this (set_currentlyActiveFeatures featuresToActivate).

Definition activate (cfg : AtomConfig) : M unit :=
  this <-- get_this;
  invariant (bool_decide (_activationDisposable this = None)) ;;
  rootPackage <-- callHost (packages_getLoadedPackage (_pkgName this));
  match rootPackage with
  | None => throw AssertionError
  | Some rootPackage =>
      callHost (localStorage_removeItem
                  (canDeferMainModuleRequireStorageKey rootPackage)) ;;
      callHost (config_onDidChange (getUseKeyPath this)) ;;
      callHost (config_onDidChange (getEnabledFeatureGroupsKeyPath this)) ;;
      modify_this
        (set_activationDisposable
           (Some (new_UniversalDisposable
                    [config_onDidChange (getUseKeyPath this);
                     config_onDidChange (getEnabledFeatureGroupsKeyPath this)]))) ;;
      updateActiveFeatures cfg
  end.

Definition deactivate : M unit :=
  this <-- get_this;
  invariant (match _activationDisposable this with
             | Some d => negb (disposed d)
             | None => false
             end) ;;
  forEach (_currentlyActiveFeatures this)
    (fun feature => safeDeactivate feature true) ;;
  modify_this (set_currentlyActiveFeatures []) ;;
  match _activationDisposable this with
  | None => throw AssertionError
  | Some d =>
      UniversalDisposable_dispose d
        (fun d' => set_activationDisposable (Some d')) ;;
      modify_this (set_activationDisposable None)
  end.

Definition serialize : M unit :=
  this <-- get_this;
  forEach (_features this) safeSerialize.

(** ** The resolver as section 4.3 words it

    These definitions follow the specification, not the source; the
    theorems below compare them with [getEnabledFeatures]. *)

Definition featureId (feature : Feature) : string :=
  packageNameFromPath (path feature).

(** The rule table has no (non-null) entry for the feature. *)
Definition absentFromRuleTable (cfg : AtomConfig) (feature : Feature) : Prop :=
  forall table v,
    useFeatureRules cfg = Some table ->
    table !! featureId feature = Some v ->
    v = JsNull \/ v = JsUndefined.

Definition matchesSampleConvention (feature : Feature) : Prop :=
  String.prefix "sample-" (featureId feature) = true.

(** Step 3: the rule of a feature is its entry of the rule table, or else
    the default rule. *)
Inductive RuleOf (cfg : AtomConfig) (feature : Feature) : JsValue -> Prop :=
| rule_from_table table v :
    useFeatureRules cfg = Some table ->
    table !! featureId feature = Some v ->
    v <> JsNull -> v <> JsUndefined ->
    RuleOf cfg feature v
| rule_default_never :
    absentFromRuleTable cfg feature ->
    matchesSampleConvention feature ->
    RuleOf cfg feature (JsString "never")
| rule_default_default :
    absentFromRuleTable cfg feature ->
    ~ matchesSampleConvention feature ->
    RuleOf cfg feature (JsString "default").

(** Step 1. *)
Definition eligibleByGroup (cfg : AtomConfig) (this : FeatureLoader)
    (feature : Feature) : Prop :=
  match enabledFeatureGroups cfg with
  | None => feature ∈ _features this
  | Some selected =>
      exists g, g ∈ selected /\ feature ∈ MultiMap_get g (_featureGroups this)
  end.

(** Step 4, the three clauses. *)
Inductive IncludedAsSpecified (cfg : AtomConfig) (this : FeatureLoader)
    (feature : Feature) : Prop :=
| included_always :
    RuleOf cfg feature (JsString "always") ->
    IncludedAsSpecified cfg this feature
| included_default :
    RuleOf cfg feature (JsString "default") ->
    eligibleByGroup cfg this feature ->
    IncludedAsSpecified cfg this feature
| included_required :
    feature ∈ MultiMap_get REQUIRED_FEATURE_GROUP (_featureGroups this) ->
    IncludedAsSpecified cfg this feature.

(** ** Example data *)

Definition examplePkg (n : string) (provided : option (list (string * JsValue)))
  : FeaturePkg :=
  {| name := n; atomConfig := None; consumedServices := None;
     description := None; displayName := None; nuclide := None;
     providedServices := provided; featureGroups := None |}.

Definition featureA : Feature :=
  {| ref := 1%nat; path := "/pkgs/feature-a"; pkg := examplePkg "feature-a" None |}.

Definition featureB : Feature :=
  {| ref := 2%nat; path := "/pkgs/feature-b"; pkg := examplePkg "feature-b" None |}.

Definition featureC : Feature :=
  {| ref := 3%nat; path := "/pkgs/feature-c"; pkg := examplePkg "feature-c" None |}.

Definition featureRepo : Feature :=
  {| ref := 4%nat; path := "/pkgs/hg-repository/";
     pkg := examplePkg "hg-repository"
              (Some [("atom.repository-provider", JsObject)]) |}.

Definition featureSample : Feature :=
  {| ref := 5%nat; path := "/pkgs/sample-demo"; pkg := examplePkg "sample-demo" None |}.

(** A loader state with the given catalog, group index and active set. *)
Definition exampleLoader (features : list Feature)
    (groups : gmap string (list Feature)) (active : list Feature) : FeatureLoader :=
  {| _activationDisposable := None;
     _loadDisposable := new_UniversalDisposable [];
     _config := None;
     _features := features;
     _featureGroups := groups;
     _pkgName := "nuclide";
     _path := "/pkgs/nuclide";
     _currentlyActiveFeatures := active |}.

Definition noConfig : AtomConfig :=
  {| useFeatureRules := None; enabledFeatureGroups := None |}.

Definition loaderOnlyA : FeatureLoader := exampleLoader [featureA] ∅ [].

(** The rule of feature-a is the boolean [true]; no group is selected. *)
Definition cfgRuleTrue : AtomConfig :=
  {| useFeatureRules := Some {[ "feature-a" := JsBool true ]};
     enabledFeatureGroups := Some [] |}.

(** feature-a is explicitly never enabled; no group is selected. *)
Definition cfgRuleNever : AtomConfig :=
  {| useFeatureRules := Some {[ "feature-a" := JsString "never" ]};
     enabledFeatureGroups := Some [] |}.

Definition paramsRequiredA : FeatureLoaderParams :=
  {| p_path := "/pkgs/nuclide";
     p_features := [featureA; featureSample];
     p_featureGroups := Some {[ "nuclide-required" := JsArray ["feature-a"] ]} |}.

Definition loaderRequiredA : FeatureLoader :=
  exampleLoader [featureA; featureSample] {[ "nuclide-required" := [featureA] ]} [].

Definition rawGroupsWithUnknown : gmap string JsValue :=
  {[ "ghosts" := JsArray ["no-such-feature"; "neither-this"];
     "mixed" := JsArray ["feature-b"; "no-such-feature"] ]}.

(** ** What the log shows of one feature *)

Definition deactivationError (name message : string) : string :=
  "Error deactivating " +:+ dquote +:+ name +:+ dquote +:+ ": " +:+ message.

Definition serializationError (name message : string) : string :=
  "Error serializing " +:+ dquote +:+ name +:+ dquote +:+ ": " +:+ message.

(** The events of one guarded deactivation: the host is asked for the loaded
    package; only if it has one is the deactivation requested; an error
    thrown by either call is followed by its report on the console. *)
Inductive DeactivationAttempt (name : string) (suppressSerialization : bool)
  : list Event -> Prop :=
| deactivation_not_loaded :
    DeactivationAttempt name suppressSerialization
      [Called (packages_getLoadedPackage name) (Returned None)]
| deactivation_requested p v :
    DeactivationAttempt name suppressSerialization
      [Called (packages_getLoadedPackage name) (Returned (Some p));
       Called (packages_deactivatePackage name suppressSerialization) (Returned v)]
| deactivation_threw p m :
    DeactivationAttempt name suppressSerialization
      [Called (packages_getLoadedPackage name) (Returned (Some p));
       Called (packages_deactivatePackage name suppressSerialization) (Threw m);
       console_error (deactivationError name m)]
| deactivation_lookup_threw m :
    DeactivationAttempt name suppressSerialization
      [Called (packages_getLoadedPackage name) (Threw m);
       console_error (deactivationError name m)].

(** The events of one guarded serialization. *)
Inductive SerializationAttempt (name : string) : list Event -> Prop :=
| serialization_not_active :
    SerializationAttempt name
      [Called (packages_getActivePackage name) (Returned None)]
| serialization_requested p v :
    SerializationAttempt name
      [Called (packages_getActivePackage name) (Returned (Some p));
       Called (packages_serializePackage p) (Returned v)]
| serialization_threw p m :
    SerializationAttempt name
      [Called (packages_getActivePackage name) (Returned (Some p));
       Called (packages_serializePackage p) (Threw m);
       console_error (serializationError name m)]
| serialization_lookup_threw m :
    SerializationAttempt name
      [Called (packages_getActivePackage name) (Threw m);
       console_error (serializationError name m)].

(** An activation request that returned. *)
Definition ActivationRequest (feature : Feature) (e : Event) : Prop :=
  exists v, e = Called (packages_activatePackage (path feature)) (Returned v).

(** The features a reconciliation pass activates and deactivates. *)
Definition toActivate (desired active : list Feature) : list Feature :=
  List.filter (fun feature => negb (Set_has active feature)) desired.

Definition toDeactivate (desired active : list Feature) : list Feature :=
  List.filter (fun feature => negb (Set_has desired feature)) active.

Definition isDeactivationRequest (e : Event) : bool :=
  match e with
  | Called (packages_deactivatePackage _ _) _ => true
  | _ => false
  end.

Definition isActivationRequest (e : Event) : bool :=
  match e with
  | Called (packages_activatePackage _) _ => true
  | _ => false
  end.

(** The body of the activation loop for a feature that is not active. *)
Definition requestActivation (feature : Feature) : M unit :=
  callHost (packages_activatePackage (path feature)) ;; ret tt.

(** ** Example hosts *)

Definition examplePackage (name : string) : AtomPackage :=
  {| packName := name;
     canDeferMainModuleRequireStorageKey := "defer-main-module:" +:+ name |}.

(** Every package is loaded and active, and no call throws. *)
Definition hostOk : Host :=
  fun _ c =>
    match c with
    | packages_getLoadedPackage n | packages_getActivePackage n =>
        Returned (Some (examplePackage n))
    | _ => Returned None
    end.

(** No package is loaded or active, and no call throws. *)
Definition hostNothingLoaded : Host := fun _ _ => Returned None.

(** As [hostOk], but activating a package throws. *)
Definition hostActivationThrows : Host :=
  fun past c =>
    match c with
    | packages_activatePackage _ => Threw "cannot activate"
    | _ => hostOk past c
    end.

(** As [hostOk], but the first activation request throws. *)
Definition hostFirstActivationThrows : Host :=
  fun past c =>
    match c with
    | packages_activatePackage _ =>
        if existsb isActivationRequest past then Returned None
        else Threw "cannot activate"
    | _ => hostOk past c
    end.

(** As [hostOk], but serializing feature-a throws. *)
Definition hostSerializeAThrows : Host :=
  fun past c =>
    match c with
    | packages_serializePackage p =>
        if String.eqb (packName p) "feature-a" then Threw "cannot serialize"
        else Returned None
    | _ => hostOk past c
    end.

Definition loaderABC (active : list Feature) : FeatureLoader :=
  exampleLoader [featureA; featureB; featureC] ∅ active.

(** feature-a is explicitly never enabled; the selection is unset. *)
Definition cfgOnlyANever : AtomConfig :=
  {| useFeatureRules := Some {[ "feature-a" := JsString "never" ]};
     enabledFeatureGroups := None |}.

(** ** The lifecycle of section 4.4

    The source keeps no phase. The first four phases are the states of the
    specification: of the calls that return, [load] leaves Unloaded for
    Loaded, [activate] leads to Activated and [deactivate] to Deactivated.
    The last two are where a host error leaves the loader half-way:
    ActivateAborted after an [activate] that threw when its subscriptions
    were stored already, DeactivateAborted after a [deactivate] that threw
    while releasing them. A call that is turned down by an invariant, an
    [activate] that throws before it has stored its subscriptions, a [load]
    that throws, a reconciliation pass, the callback of [load] and
    [serialize] leave the phase as it is, whatever their outcome.

    [Lifecycle devMode host loader w p] holds of the worlds [w] that the
    loader [loader], as the constructor made it, goes through: every
    outcome of every call is a step. *)
Inductive Phase :=
| Unloaded | Loaded | Activated | Deactivated
| ActivateAborted | DeactivateAborted.

Definition afterLoad (p : Phase) : Phase :=
  match p with
  | Unloaded => Loaded
  | _ => p
  end.

Inductive Lifecycle (devMode : bool) (host : Host) (loader : FeatureLoader)
  : World -> Phase -> Prop :=
| lifecycle_new params past :
    constructor params = Some loader ->
    Lifecycle devMode host loader {| this := loader; log := past |} Unloaded
| lifecycle_load w p w' :
    Lifecycle devMode host loader w p ->
    load devMode host w = (Ok tt, w') ->
    Lifecycle devMode host loader w' (afterLoad p)
| lifecycle_activate cfg w p w' :
    Lifecycle devMode host loader w p ->
    activate cfg host w = (Ok tt, w') ->
    Lifecycle devMode host loader w' Activated
| lifecycle_deactivate w p w' :
    Lifecycle devMode host loader w p ->
    deactivate host w = (Ok tt, w') ->
    Lifecycle devMode host loader w' Deactivated
| lifecycle_load_threw w p err w' :
    Lifecycle devMode host loader w p ->
    load devMode host w = (Throw err, w') ->
    Lifecycle devMode host loader w' p
| lifecycle_activate_refused cfg w p w' :
    Lifecycle devMode host loader w p ->
    activate cfg host w = (Throw AssertionError, w') ->
    Lifecycle devMode host loader w' p
| lifecycle_activate_failed cfg w p err w' :
    Lifecycle devMode host loader w p ->
    activate cfg host w = (Throw err, w') ->
    err <> AssertionError ->
    _activationDisposable (this w') = None ->
    Lifecycle devMode host loader w' p
| lifecycle_activate_aborted cfg w p err w' :
    Lifecycle devMode host loader w p ->
    activate cfg host w = (Throw err, w') ->
    err <> AssertionError ->
    _activationDisposable (this w') <> None ->
    Lifecycle devMode host loader w' ActivateAborted
| lifecycle_deactivate_refused w p w' :
    Lifecycle devMode host loader w p ->
    deactivate host w = (Throw AssertionError, w') ->
    Lifecycle devMode host loader w' p
| lifecycle_deactivate_aborted w p err w' :
    Lifecycle devMode host loader w p ->
    deactivate host w = (Throw err, w') ->
    err <> AssertionError ->
    Lifecycle devMode host loader w' DeactivateAborted
| lifecycle_pass cfg w p r w' :
    Lifecycle devMode host loader w p ->
    updateActiveFeatures cfg host w = (r, w') ->
    Lifecycle devMode host loader w' p
| lifecycle_root_package_loaded cfg w p r w' :
    Lifecycle devMode host loader w p ->
    loadEnabledFeatures cfg host w = (r, w') ->
    Lifecycle devMode host loader w' p
| lifecycle_serialize w p r w' :
    Lifecycle devMode host loader w p ->
    serialize host w = (r, w') ->
    Lifecycle devMode host loader w' p.

Definition isActivated (loader : FeatureLoader) : bool :=
  match _activationDisposable loader with
  | Some d => negb (disposed d)
  | None => false
  end.

Definition paramsAB : FeatureLoaderParams :=
  {| p_path := "/pkgs/nuclide";
     p_features := [featureA; featureB];
     p_featureGroups := None |}.

Definition loaderAB : FeatureLoader := exampleLoader [featureA; featureB] ∅ [].

(** The worlds of a loader driven through its lifecycle on [hostOk]. *)
Definition worldNew : World := {| this := loaderAB; log := [] |}.
Definition worldLoaded : World := snd (load false hostOk worldNew).
Definition worldActivated : World := snd (activate noConfig hostOk worldLoaded).
Definition worldDeactivated : World := snd (deactivate hostOk worldActivated).

(** The world after an [activate] on a host that refuses every activation
    request. *)
Definition worldActivateAborted : World :=
  snd (activate noConfig hostActivationThrows worldNew).

(** As [hostOk], but releasing a subscription throws. *)
Definition hostReleaseThrows : Host :=
  fun past c =>
    match c with
    | dispose _ => Threw "cannot release"
    | _ => hostOk past c
    end.

(** The worlds of a loader that is loaded, activated and deactivated on
    that host. *)
Definition worldReleaseActivated : World :=
  snd (activate noConfig hostReleaseThrows (snd (load false hostReleaseThrows worldNew))).

Definition worldDeactivateAborted : World :=
  snd (deactivate hostReleaseThrows worldReleaseActivated).

(** The scenario of section 8: a catalog of a provider and two others, a
    required group, one selected group and one explicit rule. *)
Definition paramsScenario : FeatureLoaderParams :=
  {| p_path := "/pkgs/nuclide";
     p_features := [featureRepo; featureA; featureB];
     p_featureGroups :=
       Some {[ "nuclide-required" := JsArray ["feature-b"];
               "g1" := JsArray ["hg-repository"] ]} |}.

Definition cfgScenario : AtomConfig :=
  {| useFeatureRules := Some {[ "feature-a" := JsString "always" ]};
     enabledFeatureGroups := Some ["g1"] |}.

(** ** Auxiliary notions of the proofs *)

(** What [groupFeatures] binds to a key: the features its array of names
    resolves to, and nothing when the raw value is not an array. *)
Definition resolveGroup (features : list Feature) (value : JsValue)
  : option (list Feature) :=
  match value with
  | JsArray names =>
      Some (new_Set (omap (fun featureName => namesToFeatures features !! featureName) names))
  | _ => None
  end.

(** The entries [features.map((feature, i) => [feature, i])] from index [k]
    on, and the step by which [new Map] records one of them. *)
Definition indexFrom (k : nat) (l : list Feature) : list (Feature * nat) :=
  imap (fun i feature => (feature, (k + i)%nat)) l.

Definition recordIndex (m : Feature -> option nat) (e : Feature * nat)
  : Feature -> option nat :=
  Map_set (fst e) (snd e) m.

Definition isProvider (feature : Feature) : bool :=
  packageIsRepositoryProvider (pkg feature).

Definition isOther (feature : Feature) : bool := negb (isProvider feature).

(** [a] was recorded at a smaller index than [b]. *)
Definition recordedBefore (originalOrder : Feature -> option nat) (a b : Feature) : Prop :=
  exists i j, originalOrder a = Some i /\ originalOrder b = Some j /\ (i < j)%nat.

(** What a program may do to the loader, whatever its outcome. *)
Definition Keeps {A} (I : FeatureLoader -> FeatureLoader -> Prop) (m : M A) : Prop :=
  forall host w r w', m host w = (r, w') -> I (this w) (this w').

(** A reconciliation pass touches the active set only. *)
Definition sameDisposables (l l' : FeatureLoader) : Prop :=
  _loadDisposable l' = _loadDisposable l /\
  _activationDisposable l' = _activationDisposable l.

(** The comparator puts [a] no later than [b]. *)
Definition comparesLeq (originalOrder : Feature -> option nat) (a b : Feature) : Prop :=
  exists c, compareFeatures originalOrder a b = Some c /\ (c <= 0)%Z.

(** ** The rest of the class *)

(** [getConfig()]. *)
Definition getConfig : M (gmap string ConfigSection) :=
  this <-- get_this;
  match _config this with
  | Some config => ret config
  | None => throw AssertionError
  end.

(** The listener [whenPackageLoaded] registers with
    [atom.packages.onDidLoadPackage]: it waits for the package named
    [pkgName], releases its own subscription and runs the callback. The
    disposable the callback returns joins the composite that
    [packages_onDidLoadPackage] stands for in [_loadDisposable]. *)
Definition whenPackageLoaded_listener (pkgName : string) (callback : M unit)
    (pack : AtomPackage) : M unit :=
  if negb (String.eqb (packName pack) pkgName) then ret tt
  else (callHost (dispose packages_onDidLoadPackage) ;; callback).

(** The listener that [load] registers. *)
Definition onRootPackageLoaded (cfg : AtomConfig) (pack : AtomPackage) : M unit :=
  this <-- get_this;
  whenPackageLoaded_listener (_pkgName this) (loadEnabledFeatures cfg) pack.

(** ** Notions of the further properties *)

(** In [l], every repository provider stands before every other feature. *)
Definition providersFirst (l : list Feature) : Prop :=
  forall i j a b,
    l !! i = Some a -> l !! j = Some b ->
    isProvider a = true -> isProvider b = false -> (i < j)%nat.

(** A provider is never behind a feature that is not one. *)
Definition notBehind (a b : Feature) : Prop :=
  isProvider b = true -> isProvider a = true.

(** A call that returned, whatever it returned. *)
Definition ReturnedCall (c : Call) (e : Event) : Prop :=
  exists v, e = Called c (Returned v).

(** The subscriptions [activate] makes. *)
Definition configSubscriptions (loader : FeatureLoader) : list Call :=
  [config_onDidChange (getUseKeyPath loader);
   config_onDidChange (getEnabledFeatureGroupsKeyPath loader)].

(** Two features of the same base name, and a provider of that name too. *)
Definition featureA' : Feature :=
  {| ref := 6%nat; path := "/other/feature-a"; pkg := examplePkg "feature-a" None |}.

Definition cfgSelection (selection : list string) : AtomConfig :=
  {| useFeatureRules := None; enabledFeatureGroups := Some selection |}.

Definition loaderGrouped : FeatureLoader :=
  exampleLoader [featureA; featureB; featureC]
    {[ "g1" := [featureA]; "g2" := [featureB] ]} [].

(** A catalog given with its provider in the middle, and the loader the
    constructor makes of it. *)
Definition paramsUnordered : FeatureLoaderParams :=
  {| p_path := "/pkgs/nuclide";
     p_features := [featureA; featureRepo; featureB];
     p_featureGroups := Some {[ "g1" := JsArray ["feature-a"] ]} |}.

Definition loaderReordered : FeatureLoader :=
  exampleLoader [featureRepo; featureA; featureB] {[ "g1" := [featureA] ]} [].

(** feature-a carries a rule outside the documented values. *)
Definition cfgRuleMisspelt : AtomConfig :=
  {| useFeatureRules := Some {[ "feature-a" := JsString "Always" ]};
     enabledFeatureGroups := None |}.

Definition rawGroupsOdd : gmap string JsValue :=
  {[ "not-an-array" := JsString "feature-a"; "g1" := JsArray ["feature-a"] ]}.

Definition optionalGroups (featureGroups : option (gmap string JsValue))
  : gmap string JsValue :=
  match featureGroups with
  | None => ∅
  | Some groups => groups
  end.

(** What the methods leave alone: the catalog, the group index and the
    names. *)
Definition sameCatalog (l l' : FeatureLoader) : Prop :=
  _features l' = _features l /\
  _featureGroups l' = _featureGroups l /\
  _pkgName l' = _pkgName l /\
  _path l' = _path l.

(** The active set holds catalog features, each once. *)
Definition activeWithinCatalog (l : FeatureLoader) : Prop :=
  NoDup (_currentlyActiveFeatures l) /\
  forall f, f ∈ _currentlyActiveFeatures l -> f ∈ _features l.

Definition Maintained (l l' : FeatureLoader) : Prop :=
  sameCatalog l l' /\ (activeWithinCatalog l -> activeWithinCatalog l').

(** Nothing is loaded on this host, not even the root package. *)
Definition worldBare : World := {| this := loaderAB; log := [] |}.

Definition rootPackage : AtomPackage := examplePackage "nuclide".
Definition otherPackage : AtomPackage := examplePackage "language-javascript".


(** The rule of the feature is read off [Object.prototype]: the rule table
    is an object that has no property of its own under the name of the
    feature, and the name is one of those [Object.prototype] has. *)
Definition inheritedRule (cfg : AtomConfig) (feature : Feature) : Prop :=
  exists table,
    useFeatureRules cfg = Some table /\
    table !! featureId feature = None /\
    featureId feature ∈ Object_prototype.

(** A feature whose package is named after a property of
    [Object.prototype], and a rule table, an object, without an entry for
    it. *)
Definition featureConstructor : Feature :=
  {| ref := 7%nat; path := "/pkgs/constructor";
     pkg := examplePkg "constructor" None |}.

Definition cfgEmptyTable : AtomConfig :=
  {| useFeatureRules := Some ∅; enabledFeatureGroups := None |}.

Definition loaderConstructor : FeatureLoader :=
  exampleLoader [featureConstructor; featureA] ∅ [].

(** A feature whose configuration schema has a [null] entry. *)
Definition hasNullEntry (feature : Feature) : Prop :=
  exists entries key,
    featurePkgConfig (pkg feature) = Some entries /\ (key, JsonNull) ∈ entries.

(** A feature whose configuration schema has a [null] entry, and a loader
    with it in its catalog. *)
Definition featureBroken : Feature :=
  {| ref := 8%nat; path := "/pkgs/broken";
     pkg := {| name := "broken"; atomConfig := Some [("depth", JsonNull)];
               consumedServices := None; description := None;
               displayName := None; nuclide := None; providedServices := None;
               featureGroups := None |} |}.

Definition worldBroken : World :=
  {| this := exampleLoader [featureA; featureBroken] ∅ []; log := [] |}.

(** The schema of a catalog with a sample feature, and its [use]
    section. *)
Definition configSample : gmap string ConfigSection :=
  default ∅ (buildConfig false [featureA; featureSample]).

Definition sectionSample : ConfigSection :=
  default useSection (configSample !! "use").

(** * Proofs *)

(** ** Sets *)

Lemma Set_has_true (s : list Feature) x : Set_has s x = true <-> x ∈ s.
Proof. unfold Set_has. apply bool_decide_eq_true. Qed.

Lemma Set_has_false (s : list Feature) x : Set_has s x = false <-> x ∉ s.
Proof. unfold Set_has. apply bool_decide_eq_false. Qed.

Lemma fold_Set_add_elem_of (values acc : list Feature) x :
  x ∈ fold_left Set_add values acc <-> x ∈ acc \/ x ∈ values.
Proof.
  revert acc. induction values as [|v values IH]; intros acc; simpl.
  - rewrite elem_of_nil. tauto.
  - rewrite IH, elem_of_cons. unfold Set_add.
    destruct (Set_has acc v) eqn:E.
    + apply Set_has_true in E. split; [tauto|].
      intros [?|[->|?]]; tauto.
    + rewrite elem_of_app, list_elem_of_singleton. tauto.
Qed.

Lemma fold_Set_add_NoDup (values acc : list Feature) :
  NoDup acc -> NoDup (fold_left Set_add values acc).
Proof.
  revert acc. induction values as [|v values IH]; intros acc Hacc; simpl; [done|].
  apply IH. unfold Set_add. destruct (Set_has acc v) eqn:E; [done|].
  apply Set_has_false in E. apply NoDup_app. split; [done|].
  split; [|apply NoDup_singleton].
  intros y Hy ->%list_elem_of_singleton. done.
Qed.

Lemma fold_Set_add_fresh (values acc : list Feature) :
  NoDup (acc ++ values) -> fold_left Set_add values acc = acc ++ values.
Proof.
  revert acc. induction values as [|v values IH]; intros acc Hnd; simpl.
  - by rewrite app_nil_r.
  - assert (Hv : v ∉ acc).
    { apply NoDup_app in Hnd as (_ & Hd & _). intros Hin.
      apply (Hd v Hin). left. }
    unfold Set_add. apply Set_has_false in Hv. rewrite Hv.
    rewrite IH; rewrite <- app_assoc; done.
Qed.

Lemma elem_of_new_Set (values : list Feature) x : x ∈ new_Set values <-> x ∈ values.
Proof.
  unfold new_Set. rewrite fold_Set_add_elem_of, elem_of_nil. tauto.
Qed.

Lemma NoDup_new_Set (values : list Feature) : NoDup (new_Set values).
Proof. apply fold_Set_add_NoDup, NoDup_nil_2. Qed.

Lemma new_Set_NoDup (values : list Feature) : NoDup values -> new_Set values = values.
Proof. intros H. unfold new_Set. by rewrite fold_Set_add_fresh. Qed.

Lemma elem_of_setUnion (sets : list (list Feature)) x :
  x ∈ setUnion sets <-> exists s, s ∈ sets /\ x ∈ s.
Proof.
  unfold setUnion. rewrite elem_of_new_Set.
  rewrite list_elem_of_In, in_concat.
  split; intros (s & H1 & H2); exists s; rewrite ?list_elem_of_In in *; tauto.
Qed.

(** ** The resolver *)

Lemma strict_eq_true v w : strict_eq v w = true <-> v = w.
Proof. unfold strict_eq. apply bool_decide_eq_true. Qed.

(** The rule as the source computes it, case by case. *)
Lemma featureRule_cases cfg feature :
  let fallback := JsString (getFeatureDefaultValue feature) in
  match useFeatureRules cfg with
  | None => featureRule cfg feature = fallback
  | Some table =>
      match table !! featureId feature with
      | Some v =>
          featureRule cfg feature = if loose_eq_null v then fallback else v
      | None =>
          featureRule cfg feature
          = if bool_decide (featureId feature ∈ Object_prototype)
            then JsObject else fallback
      end
  end.
Proof.
  intros fallback. unfold featureRule, idx, getProperty.
  fold (featureId feature). fold fallback.
  destruct (useFeatureRules cfg) as [table|]; [|done].
  destruct (table !! featureId feature) as [v|]; [done|].
  by destruct (bool_decide _).
Qed.

Lemma featureRule_inherited cfg feature :
  inheritedRule cfg feature -> featureRule cfg feature = JsObject.
Proof.
  intros (table & Ht & Hv & Hp). pose proof (featureRule_cases cfg feature) as H.
  simpl in H. rewrite Ht, Hv in H. by rewrite bool_decide_eq_true_2 in H.
Qed.

Lemma getFeatureDefaultValue_sample feature :
  getFeatureDefaultValue feature
  = if String.prefix "sample-" (featureId feature) then "never" else "default".
Proof. reflexivity. Qed.

Lemma absent_RuleOf cfg feature :
  absentFromRuleTable cfg feature ->
  RuleOf cfg feature (JsString (getFeatureDefaultValue feature)).
Proof.
  intros Habs. rewrite getFeatureDefaultValue_sample.
  destruct (String.prefix _ _) eqn:Hp.
  - by apply rule_default_never.
  - apply rule_default_default; [done|].
    unfold matchesSampleConvention. by rewrite Hp.
Qed.

Lemma RuleOf_absent cfg feature v :
  absentFromRuleTable cfg feature ->
  RuleOf cfg feature v ->
  v = JsString (getFeatureDefaultValue feature).
Proof.
  intros Habs. rewrite getFeatureDefaultValue_sample.
  intros [table w Ht Hw Hn1 Hn2 | _ Hs | _ Hs].
  - destruct (Habs _ _ Ht Hw); congruence.
  - unfold matchesSampleConvention in Hs. by rewrite Hs.
  - unfold matchesSampleConvention in Hs. apply not_true_is_false in Hs.
    by rewrite Hs.
Qed.

(** Unless the rule is read off [Object.prototype], it is the rule of
    section 4.3. *)
Lemma featureRule_RuleOf cfg feature v :
  ~ inheritedRule cfg feature ->
  (featureRule cfg feature = v <-> RuleOf cfg feature v).
Proof.
  intros Hown. pose proof (featureRule_cases cfg feature) as H. simpl in H.
  destruct (useFeatureRules cfg) as [table|] eqn:Ht.
  - destruct (table !! featureId feature) as [w|] eqn:Hw.
    + destruct (loose_eq_null w) eqn:Hn.
      * assert (Habs : absentFromRuleTable cfg feature).
        { intros t' v' Ht' Hv'. rewrite Ht in Ht'. injection Ht' as <-.
          rewrite Hw in Hv'. injection Hv' as <-.
          destruct w; simpl in Hn; try discriminate; auto. }
        rewrite H. split; [intros <-; by apply absent_RuleOf|].
        intros Hr. symmetry. by apply (RuleOf_absent cfg).
      * rewrite H. split.
        -- intros <-. eapply rule_from_table; eauto; intros ->; discriminate.
        -- intros [t' w' Ht' Hw' _ _ | Habs _ | Habs _].
           ++ rewrite Ht in Ht'. injection Ht' as <-. congruence.
           ++ destruct (Habs _ _ Ht Hw) as [-> | ->]; discriminate.
           ++ destruct (Habs _ _ Ht Hw) as [-> | ->]; discriminate.
    + assert (Habs : absentFromRuleTable cfg feature).
      { intros t' v' Ht' Hv'. rewrite Ht in Ht'. injection Ht' as <-.
        rewrite Hw in Hv'. discriminate. }
      rewrite bool_decide_eq_false_2 in H.
      2: { intros Hp. apply Hown. by exists table. }
      rewrite H. split; [intros <-; by apply absent_RuleOf|].
      intros Hr. symmetry. by apply (RuleOf_absent cfg).
  - assert (Habs : absentFromRuleTable cfg feature).
    { intros t' v' Ht'. rewrite Ht in Ht'. discriminate. }
    rewrite H. split; [intros <-; by apply absent_RuleOf|].
    intros Hr. symmetry. by apply (RuleOf_absent cfg).
Qed.

Lemma featuresInEnabledGroups_eligible cfg this feature :
  feature ∈ featuresInEnabledGroups cfg this <-> eligibleByGroup cfg this feature.
Proof.
  unfold featuresInEnabledGroups, eligibleByGroup.
  destruct (enabledFeatureGroups cfg) as [groups|].
  - rewrite elem_of_setUnion. split.
    + intros (s & Hs & Hf). apply list_elem_of_fmap in Hs as (g & -> & Hg).
      eauto.
    + intros (g & Hg & Hf). eexists. split; [|exact Hf].
      apply list_elem_of_fmap. eauto.
  - apply elem_of_new_Set.
Qed.

(** Membership in the resolved set, clause by clause as the source has it. *)
Lemma elem_of_getEnabledFeatures cfg this feature :
  feature ∈ getEnabledFeatures cfg this <->
  feature ∈ _features this /\
  (featureRule cfg feature = JsString "always" \/
   featureRule cfg feature = JsBool true \/
   (feature ∈ featuresInEnabledGroups cfg this /\
    featureRule cfg feature = JsString "default") \/
   feature ∈ requiredFeatures this).
Proof.
  unfold getEnabledFeatures. rewrite elem_of_new_Set, list_elem_of_In, filter_In.
  rewrite <- list_elem_of_In. unfold ALWAYS_ENABLED, DEFAULT.
  rewrite !orb_true_iff, andb_true_iff, !strict_eq_true, !Set_has_true.
  tauto.
Qed.

(** ** The group index *)

Lemma namesToFeatures_fold_Some (features : list Feature) (acc : gmap string Feature) n f :
  fold_left (fun m feature => <[basename (path feature) := feature]> m) features acc
    !! n = Some f ->
  (f ∈ features /\ basename (path f) = n) \/ acc !! n = Some f.
Proof.
  revert acc. induction features as [|g features IH]; intros acc; simpl; [auto|].
  intros H. apply IH in H as [[H1 H2]|H].
  - left. split; [by right|done].
  - rewrite lookup_insert in H. case_decide as Hd.
    + injection H as <-. left. split; [left|done].
    + by right.
Qed.

Lemma namesToFeatures_fold_None (features : list Feature) (acc : gmap string Feature) n :
  fold_left (fun m feature => <[basename (path feature) := feature]> m) features acc
    !! n = None <->
  (forall f, f ∈ features -> basename (path f) <> n) /\ acc !! n = None.
Proof.
  revert acc. induction features as [|g features IH]; intros acc; simpl.
  - split; [intros H; split; [intros f Hf; by apply elem_of_nil in Hf|done]|tauto].
  - rewrite IH, lookup_insert. split.
    + intros [H1 H2]. case_decide as Hd; [done|]. split; [|done].
      intros f [->|Hf]%elem_of_cons; auto.
    + intros [H1 H2]. split.
      * intros f Hf. apply H1. by right.
      * case_decide as Hd; [|done]. exfalso. apply (H1 g); [left|done].
Qed.

Lemma namesToFeatures_Some features n f :
  namesToFeatures features !! n = Some f -> f ∈ features /\ featureId f = n.
Proof.
  intros [H|H]%namesToFeatures_fold_Some; [done|].
  by rewrite lookup_empty in H.
Qed.

Lemma namesToFeatures_None features n :
  namesToFeatures features !! n = None <->
  forall f, f ∈ features -> featureId f <> n.
Proof.
  unfold namesToFeatures. rewrite namesToFeatures_fold_None, lookup_empty.
  unfold featureId, packageNameFromPath. tauto.
Qed.

Lemma groupFeatures_lookup features (raw : gmap string JsValue) key :
  groupFeatures features raw !! key = raw !! key ≫= resolveGroup features.
Proof.
  unfold groupFeatures. revert key.
  apply (map_fold_weak_ind
           (fun (r : gmap string (list Feature)) (m : gmap string JsValue) =>
              forall key, r !! key = m !! key ≫= resolveGroup features)).
  - intros key. by rewrite !lookup_empty.
  - intros i x m r Hi IH key. rewrite (lookup_insert m).
    case_decide as Hd.
    + subst key. simpl. destruct x; simpl;
        try (rewrite IH, Hi; reflexivity).
      unfold MultiMap_set. by rewrite lookup_insert_eq.
    + destruct x; simpl; try apply IH.
      unfold MultiMap_set. rewrite lookup_insert_ne by done. apply IH.
Qed.

Lemma elem_of_resolved_names features (names : list string) f :
  f ∈ new_Set (omap (fun featureName => namesToFeatures features !! featureName) names)
  <-> featureId f ∈ names /\ namesToFeatures features !! featureId f = Some f.
Proof.
  rewrite elem_of_new_Set, list_elem_of_omap. split.
  - intros (n & Hn & Hf). pose proof (namesToFeatures_Some _ _ _ Hf) as [_ <-].
    done.
  - intros [H1 H2]. eauto.
Qed.

Lemma groupFeatures_members_in_catalog features raw key f :
  f ∈ MultiMap_get key (groupFeatures features raw) -> f ∈ features.
Proof.
  unfold MultiMap_get. rewrite groupFeatures_lookup.
  destruct (raw !! key) as [v|]; simpl; [|by intros ?%elem_of_nil].
  destruct v; simpl; try by intros ?%elem_of_nil.
  intros [_ H]%elem_of_resolved_names. by apply namesToFeatures_Some in H as [H _].
Qed.

(** ** Claims about the resolver and the group index *)

(** Closes a decidable goal on concrete data by evaluating its decision. *)
Ltac decide_by_computation :=
  apply (bool_decide_unpack _); vm_compute; exact I.

(** C1 (amended). The resolved set holds no feature twice. Unless the rule
    of a feature is read off [Object.prototype], the feature is in the
    resolved set exactly when it is a catalog feature and: its rule is
    ['always'], or its rule is the boolean [true], or its rule is
    ['default'] and it is eligible by group, or it is a member of the
    required group. The rule of a feature is its entry of the rule table,
    or, when it has none, ['never'] for a name starting with ['sample-'] and
    ['default'] otherwise; eligibility is membership in the catalog when the
    selection is unset and in one of the selected groups otherwise. A
    feature named after a property of [Object.prototype] for which the rule
    table, an object, has no entry gets the inherited property for a rule,
    not the default: it is in the resolved set exactly when it is a catalog
    feature and a member of the required group. *)
Theorem getEnabledFeatures_resolves cfg this feature :
  NoDup (getEnabledFeatures cfg this) /\
  (~ inheritedRule cfg feature ->
   (feature ∈ getEnabledFeatures cfg this <->
    feature ∈ _features this /\
    (IncludedAsSpecified cfg this feature \/ RuleOf cfg feature (JsBool true)))) /\
  (inheritedRule cfg feature ->
   (feature ∈ getEnabledFeatures cfg this <->
    feature ∈ _features this /\
    feature ∈ MultiMap_get REQUIRED_FEATURE_GROUP (_featureGroups this))).
Proof.
  split; [apply NoDup_new_Set|]. split.
  - intros Hown.
    rewrite elem_of_getEnabledFeatures, featuresInEnabledGroups_eligible.
    rewrite !(featureRule_RuleOf _ _ _ Hown). unfold requiredFeatures.
    split.
    + intros [Hc [H|[H|[[H1 H2]|H]]]]; split; try done.
      * left. by apply included_always.
      * by right.
      * left. by apply included_default.
      * left. by apply included_required.
    + intros [Hc [[H|H1 H2|H]|H]]; split; auto.
  - intros Hin. rewrite elem_of_getEnabledFeatures.
    rewrite (featureRule_inherited _ _ Hin). unfold requiredFeatures.
    split.
    + intros [Hc [H|[H|[[_ H]|H]]]]; try discriminate. done.
    + intros [Hc H]. split; [done|]. by repeat right.
Qed.

Lemma getEnabledFeatures_resolves_witness :
  (~ inheritedRule cfgRuleTrue featureA /\
   featureA ∈ getEnabledFeatures cfgRuleTrue loaderOnlyA) /\
  (inheritedRule cfgEmptyTable featureConstructor /\
   featureConstructor ∉ getEnabledFeatures cfgEmptyTable loaderConstructor).
Proof.
  assert (Hown : ~ inheritedRule cfgRuleTrue featureA).
  { intros (table & Ht & Hv & _). injection Ht as <-. vm_compute in Hv.
    discriminate. }
  assert (Hin : inheritedRule cfgEmptyTable featureConstructor).
  { exists ∅. split; [reflexivity|]. split; [reflexivity|].
    apply (bool_decide_unpack _). vm_compute. exact I. }
  split; split; [exact Hown| |exact Hin|].
  - apply (proj1 (proj2 (getEnabledFeatures_resolves cfgRuleTrue loaderOnlyA featureA))
             Hown).
    split; [simpl; left|]. right.
    eapply rule_from_table; [reflexivity|vm_compute; reflexivity| |]; discriminate.
  - intros H.
    apply (proj2 (proj2 (getEnabledFeatures_resolves cfgEmptyTable loaderConstructor
                           featureConstructor)) Hin) in H as [_ H].
    vm_compute in H. by apply elem_of_nil in H.
Defined.

(** C1 as stated fails: with rule table [{feature-a: true}] and the empty
    selection, feature-a is resolved although none of the three clauses of
    the specification holds of it. *)
Lemma getEnabledFeatures_true_rule_not_specified :
  ~ (featureA ∈ getEnabledFeatures cfgRuleTrue loaderOnlyA <->
     featureA ∈ _features loaderOnlyA /\
     IncludedAsSpecified cfgRuleTrue loaderOnlyA featureA).
Proof.
  intros [Hto _].
  assert (Hin : featureA ∈ getEnabledFeatures cfgRuleTrue loaderOnlyA).
  { decide_by_computation. }
  assert (Hown : ~ inheritedRule cfgRuleTrue featureA).
  { intros (table & Ht & Hv & _). injection Ht as <-. vm_compute in Hv.
    discriminate. }
  destruct (Hto Hin) as [_ [H|H1 H2|H]].
  - apply (featureRule_RuleOf _ _ _ Hown) in H. vm_compute in H. discriminate.
  - apply (featureRule_RuleOf _ _ _ Hown) in H1. vm_compute in H1. discriminate.
  - vm_compute in H. by apply elem_of_nil in H.
Qed.

(** C2. Whatever the rule table says of it, an explicit ['never'] included,
    and whatever groups are selected, a member of the required group of a
    constructed loader is in the resolved set. *)
Theorem required_member_always_enabled params this cfg feature :
  constructor params = Some this ->
  feature ∈ MultiMap_get REQUIRED_FEATURE_GROUP (_featureGroups this) ->
  feature ∈ getEnabledFeatures cfg this.
Proof.
  intros Hc Hreq. apply elem_of_getEnabledFeatures. split; [|by repeat right].
  unfold constructor in Hc.
  destruct (reorderFeatures (p_features params)) as [features|]; [|done].
  simpl in Hc. injection Hc as <-. simpl in *.
  by eapply groupFeatures_members_in_catalog.
Qed.

Lemma required_member_always_enabled_witness :
  constructor paramsRequiredA = Some loaderRequiredA /\
  featureA ∈ MultiMap_get REQUIRED_FEATURE_GROUP (_featureGroups loaderRequiredA) /\
  featureRule cfgRuleNever featureA = JsString "never" /\
  featureA ∈ getEnabledFeatures cfgRuleNever loaderRequiredA.
Proof.
  assert (H1 : constructor paramsRequiredA = Some loaderRequiredA)
    by (vm_compute; reflexivity).
  assert (H2 : featureA ∈ MultiMap_get REQUIRED_FEATURE_GROUP
                 (_featureGroups loaderRequiredA))
    by decide_by_computation.
  split; [exact H1|]. split; [exact H2|]. split; [vm_compute; reflexivity|].
  exact (required_member_always_enabled paramsRequiredA loaderRequiredA
           cfgRuleNever featureA H1 H2).
Defined.

(** C9. The members of a group are the catalog features its names resolve
    to: every member is a catalog feature named in the definition, every
    name that some catalog feature bears contributes a member of that name,
    and the other names contribute nothing. A definition none of whose names
    is borne by a catalog feature yields the empty set, and selecting that
    group makes no feature eligible. [groupFeatures] and the resolver are
    total functions: no input makes them raise. *)
Theorem groupFeatures_drops_unknown_names features raw key names :
  raw !! key = Some (JsArray names) ->
  let members := MultiMap_get key (groupFeatures features raw) in
  (forall f, f ∈ members -> f ∈ features /\ featureId f ∈ names) /\
  (forall n, n ∈ names ->
     (exists f, f ∈ features /\ featureId f = n) ->
     exists f, f ∈ members /\ featureId f = n) /\
  ((forall n, n ∈ names -> forall f, f ∈ features -> featureId f <> n) ->
   members = [] /\
   forall this rules,
     _featureGroups this = groupFeatures features raw ->
     featuresInEnabledGroups
       {| useFeatureRules := rules; enabledFeatureGroups := Some [key] |} this = []).
Proof.
  intros Hraw members.
  assert (Hm : forall f, f ∈ members <->
             featureId f ∈ names /\ namesToFeatures features !! featureId f = Some f).
  { intros f. unfold members, MultiMap_get.
    rewrite groupFeatures_lookup, Hraw. simpl. apply elem_of_resolved_names. }
  split; [|split].
  - intros f [H1 H2]%Hm. apply namesToFeatures_Some in H2 as [H2 _]. done.
  - intros n Hn (f & Hf & Hid).
    destruct (namesToFeatures features !! n) as [g|] eqn:Hg.
    + pose proof (namesToFeatures_Some _ _ _ Hg) as [_ Hgid].
      exists g. split; [|done]. apply Hm. rewrite Hgid. done.
    + exfalso. eapply namesToFeatures_None; eauto.
  - intros Hunknown.
    assert (Hnil : members = []).
    { apply elem_of_nil_inv. intros f [H1 H2]%Hm.
      apply namesToFeatures_Some in H2 as [H2 _].
      by apply (Hunknown _ H1 f H2). }
    split; [done|]. intros this rules Hidx.
    unfold featuresInEnabledGroups. simpl. rewrite Hidx.
    fold members. rewrite Hnil. reflexivity.
Qed.

Lemma groupFeatures_drops_unknown_names_witness :
  rawGroupsWithUnknown !! "ghosts" = Some (JsArray ["no-such-feature"; "neither-this"]) /\
  MultiMap_get "ghosts" (groupFeatures [featureA; featureB] rawGroupsWithUnknown) = [] /\
  MultiMap_get "mixed" (groupFeatures [featureA; featureB] rawGroupsWithUnknown)
    = [featureB].
Proof.
  assert (H : rawGroupsWithUnknown !! "ghosts"
              = Some (JsArray ["no-such-feature"; "neither-this"]))
    by (vm_compute; reflexivity).
  split; [exact H|]. split; [|vm_compute; reflexivity].
  refine (proj1 (proj2 (proj2
    (groupFeatures_drops_unknown_names [featureA; featureB]
       rawGroupsWithUnknown "ghosts" _ H)) _)).
  intros n Hn f Hf Hid. subst n.
  apply elem_of_cons in Hf as [->|Hf]; [|apply elem_of_cons in Hf as [->|Hf]].
  - vm_compute in Hn. apply elem_of_cons in Hn as [Hn|Hn]; [discriminate|].
    apply elem_of_cons in Hn as [Hn|Hn]; [discriminate|]. by apply elem_of_nil in Hn.
  - vm_compute in Hn. apply elem_of_cons in Hn as [Hn|Hn]; [discriminate|].
    apply elem_of_cons in Hn as [Hn|Hn]; [discriminate|]. by apply elem_of_nil in Hn.
  - by apply elem_of_nil in Hf.
Defined.

(** C10. A catalog feature whose entry of the rule table is the boolean
    [true] is resolved under every enabled-groups selection, and the
    resolved set is the one obtained with ['always'] in place of [true]. *)
Theorem true_rule_enables_like_always this table selection feature :
  table !! featureId feature = Some (JsBool true) ->
  feature ∈ _features this ->
  let cfg := {| useFeatureRules := Some table; enabledFeatureGroups := selection |} in
  let cfgAlways :=
    {| useFeatureRules := Some (<[featureId feature := JsString "always"]> table);
       enabledFeatureGroups := selection |} in
  feature ∈ getEnabledFeatures cfg this /\
  getEnabledFeatures cfg this = getEnabledFeatures cfgAlways this.
Proof.
  intros Ht Hf cfg cfgAlways.
  assert (Hrule : featureRule cfg feature = JsBool true).
  { pose proof (featureRule_cases cfg feature) as H. simpl in H.
    by rewrite Ht in H. }
  split.
  - apply elem_of_getEnabledFeatures. split; [done|]. right. by left.
  - unfold getEnabledFeatures. f_equal. apply filter_ext. intros g.
    assert (Heq : featuresInEnabledGroups cfg this = featuresInEnabledGroups cfgAlways this)
      by reflexivity.
    rewrite Heq.
    destruct (decide (featureId g = featureId feature)) as [Hid|Hid].
    + assert (Hg : featureRule cfg g = JsBool true).
      { pose proof (featureRule_cases cfg g) as H. simpl in H.
        by rewrite Hid, Ht in H. }
      assert (Hg' : featureRule cfgAlways g = JsString "always").
      { pose proof (featureRule_cases cfgAlways g) as H. simpl in H.
        by rewrite Hid, lookup_insert_eq in H. }
      rewrite Hg, Hg'. reflexivity.
    + assert (Hg : featureRule cfgAlways g = featureRule cfg g).
      { unfold featureRule, idx, getProperty, cfgAlways, cfg. simpl.
        fold (featureId g). by rewrite lookup_insert_ne. }
      by rewrite Hg.
Qed.

Lemma true_rule_enables_like_always_witness :
  ({[ "feature-a" := JsBool true ]} : gmap string JsValue) !! featureId featureA
    = Some (JsBool true) /\
  featureA ∈ getEnabledFeatures cfgRuleTrue loaderOnlyA.
Proof.
  assert (H1 : ({[ "feature-a" := JsBool true ]} : gmap string JsValue)
                 !! featureId featureA = Some (JsBool true))
    by (vm_compute; reflexivity).
  assert (H2 : featureA ∈ _features loaderOnlyA) by (simpl; left).
  split; [exact H1|].
  exact (proj1 (true_rule_enables_like_always loaderOnlyA _ (Some []) featureA H1 H2)).
Defined.

(** ** [reorderFeatures] *)

Lemma indexFrom_cons k x l : indexFrom k (x :: l) = (x, k) :: indexFrom (S k) l.
Proof.
  unfold indexFrom. rewrite imap_cons. f_equal.
  - f_equal. lia.
  - apply imap_ext. intros i y _. simpl. f_equal. lia.
Qed.

Lemma originalOrder_absent l k m a :
  a ∉ l -> fold_left recordIndex (indexFrom k l) m a = m a.
Proof.
  revert k m. induction l as [|x l IH]; intros k m Ha; [done|].
  rewrite indexFrom_cons. simpl. apply not_elem_of_cons in Ha as [Hax Hal].
  rewrite IH by done. unfold recordIndex, Map_set. simpl. by rewrite decide_False.
Qed.

Lemma originalOrder_present l k m a :
  a ∈ l -> is_Some (fold_left recordIndex (indexFrom k l) m a).
Proof.
  revert k m. induction l as [|x l IH]; intros k m Ha.
  - by apply elem_of_nil in Ha.
  - rewrite indexFrom_cons. simpl.
    destruct (decide (a ∈ l)) as [Hin|Hnin]; [by apply IH|].
    apply elem_of_cons in Ha as [->|?]; [|done].
    rewrite originalOrder_absent by done.
    unfold recordIndex, Map_set. simpl. rewrite decide_True by done. eauto.
Qed.

Lemma originalOrder_index l k m a i :
  NoDup l -> l !! i = Some a ->
  fold_left recordIndex (indexFrom k l) m a = Some (k + i)%nat.
Proof.
  revert k m i. induction l as [|x l IH]; intros k m i Hnd Hi; [done|].
  rewrite indexFrom_cons. simpl. apply NoDup_cons in Hnd as [Hx Hnd].
  destruct i as [|i]; simpl in Hi.
  - injection Hi as ->. rewrite originalOrder_absent by done.
    unfold recordIndex, Map_set. simpl. rewrite decide_True by done. f_equal. lia.
  - rewrite (IH (S k) _ i) by done. f_equal. lia.
Qed.

Lemma new_Map_present l a :
  a ∈ l -> is_Some (new_Map (imap (fun i feature => (feature, i)) l) a).
Proof. apply (originalOrder_present l 0). Qed.

Lemma new_Map_index l a i :
  NoDup l -> l !! i = Some a ->
  new_Map (imap (fun i feature => (feature, i)) l) a = Some i.
Proof. apply (originalOrder_index l 0). Qed.

Section Sorting.

Variable originalOrder : Feature -> option nat.

Lemma compare_provider_first a b :
  isProvider a = true -> recordedBefore originalOrder a b ->
  exists c, (compareFeatures originalOrder) a b = Some c /\ (c <= 0)%Z.
Proof.
  intros Ha (i & j & Hi & Hj & Hij). unfold compareFeatures.
  fold (isProvider a) (isProvider b). rewrite Ha.
  destruct (isProvider b); simpl.
  - unfold nullthrows. rewrite Hi, Hj. simpl. eexists. split; [done|lia].
  - eexists. split; [done|lia].
Qed.

Lemma compare_other_after_provider a b :
  isProvider a = false -> isProvider b = true -> (compareFeatures originalOrder) a b = Some 1%Z.
Proof.
  intros Ha Hb. unfold compareFeatures.
  fold (isProvider a) (isProvider b). by rewrite Ha, Hb.
Qed.

Lemma compare_others a b :
  isProvider a = false -> isProvider b = false ->
  recordedBefore originalOrder a b ->
  exists c, (compareFeatures originalOrder) a b = Some c /\ (c <= 0)%Z.
Proof.
  intros Ha Hb (i & j & Hi & Hj & Hij). unfold compareFeatures.
  fold (isProvider a) (isProvider b). rewrite Ha, Hb. simpl.
  unfold nullthrows. rewrite Hi, Hj. simpl. eexists. split; [done|lia].
Qed.

Lemma sort_insert_front x l :
  (match l with
   | [] => True
   | y :: _ => exists c, (compareFeatures originalOrder) x y = Some c /\ (c <= 0)%Z
   end) ->
  sort_insert (compareFeatures originalOrder) x l = Some (x :: l).
Proof.
  destruct l as [|y l]; [done|]. intros (c & Hc & Hle). simpl.
  rewrite Hc. simpl. by rewrite (proj2 (Z.leb_le c 0) Hle).
Qed.

Lemma sort_insert_provider x l :
  isProvider x = true -> Forall (recordedBefore originalOrder x) l ->
  sort_insert (compareFeatures originalOrder) x (List.filter isProvider l ++ List.filter isOther l)
  = Some (x :: List.filter isProvider l ++ List.filter isOther l).
Proof.
  intros Hx Hl. apply sort_insert_front.
  destruct (List.filter isProvider l ++ List.filter isOther l) as [|y rest] eqn:E;
    [done|].
  apply compare_provider_first; [done|].
  assert (Hy : y ∈ List.filter isProvider l ++ List.filter isOther l)
    by (rewrite E; left).
  rewrite Forall_forall in Hl. apply Hl.
  apply elem_of_app in Hy as [Hy|Hy];
    apply list_elem_of_In, filter_In in Hy as [Hy _]; by apply list_elem_of_In.
Qed.

Lemma sort_insert_other x providers others :
  isProvider x = false ->
  Forall (fun y => isProvider y = true) providers ->
  Forall (fun y => isProvider y = false) others ->
  Forall (recordedBefore originalOrder x) others ->
  sort_insert (compareFeatures originalOrder) x (providers ++ others) = Some (providers ++ x :: others).
Proof.
  intros Hx Hp Ho Hb. induction Hp as [|y providers Hy Hp IH]; simpl.
  - apply sort_insert_front. destruct others as [|y others]; [done|].
    apply Forall_cons in Ho as [Hy _]. apply Forall_cons in Hb as [Hxy _].
    by apply compare_others.
  - rewrite compare_other_after_provider by done. simpl. by rewrite IH.
Qed.

Lemma Array_sort_partitions l :
  StronglySorted (recordedBefore originalOrder) l ->
  Array_sort (compareFeatures originalOrder) l
  = Some (List.filter isProvider l ++ List.filter isOther l).
Proof.
  induction 1 as [|x l Hsorted IH Hx]; [done|].
  simpl. rewrite IH. simpl. unfold isOther at 2.
  destruct (isProvider x) eqn:Hpx; simpl.
  - by apply sort_insert_provider.
  - apply sort_insert_other; try done.
    + apply Forall_forall. intros y Hy%list_elem_of_In%filter_In. tauto.
    + apply Forall_forall. intros y [_ Hy]%list_elem_of_In%filter_In.
      by apply negb_true_iff in Hy.
    + apply Forall_forall. intros y [Hy _]%list_elem_of_In%filter_In.
      rewrite Forall_forall in Hx. by apply Hx, list_elem_of_In.
Qed.

(** The sort returns whenever the comparator does on the elements it is
    given, and what it returns is a rearrangement of its input. *)
Lemma sort_insert_returns x l :
  (forall y, y ∈ l -> is_Some ((compareFeatures originalOrder) x y)) ->
  exists r, sort_insert (compareFeatures originalOrder) x l = Some r /\ r ≡ₚ x :: l.
Proof.
  induction l as [|y l IH]; intros Hc; simpl; [eauto|].
  destruct (Hc y) as [c Hcy]; [left|]. rewrite Hcy. simpl.
  destruct (c <=? 0)%Z; [eauto|].
  destruct IH as (r & -> & Hr); [intros z Hz; apply Hc; by right|].
  simpl. eexists. split; [done|]. rewrite Hr. apply Permutation_swap.
Qed.

Lemma Array_sort_returns l :
  (forall x y, x ∈ l -> y ∈ l -> is_Some ((compareFeatures originalOrder) x y)) ->
  exists r, Array_sort (compareFeatures originalOrder) l = Some r /\ r ≡ₚ l.
Proof.
  induction l as [|x l IH]; intros Hc; simpl; [eauto|].
  destruct IH as (r & -> & Hr).
  { intros a b Ha Hb. apply Hc; by right. }
  simpl. destruct (sort_insert_returns x r) as (r' & -> & Hr').
  { intros y Hy. rewrite Hr in Hy. apply Hc; [left|by right]. }
  eexists. split; [done|]. by rewrite Hr', Hr.
Qed.

End Sorting.

Lemma recordedBefore_of_indices originalOrder l k :
  (forall i a, l !! i = Some a -> originalOrder a = Some (k + i)%nat) ->
  StronglySorted (recordedBefore originalOrder) l.
Proof.
  revert k. induction l as [|x l IH]; intros k Hidx; [constructor|].
  constructor.
  - apply (IH (S k)). intros i a Hi.
    rewrite (Hidx (S i) a Hi). f_equal. lia.
  - apply Forall_forall. intros y Hy.
    apply list_elem_of_lookup in Hy as [i Hi].
    exists k, (k + S i)%nat. split; [|split; [|lia]].
    + rewrite (Hidx 0%nat x eq_refl). f_equal. lia.
    + apply (Hidx (S i) y Hi).
Qed.

Lemma reorderFeatures_partitions features :
  NoDup features ->
  reorderFeatures features
  = Some (List.filter isProvider features ++ List.filter isOther features).
Proof.
  intros Hnd. unfold reorderFeatures. apply Array_sort_partitions.
  apply (recordedBefore_of_indices _ _ 0). intros i a Hi.
  by apply new_Map_index.
Qed.

(** [reorderFeatures] never throws: every feature the comparator meets has
    its index recorded. *)
Lemma reorderFeatures_returns features :
  exists result, reorderFeatures features = Some result /\ result ≡ₚ features.
Proof.
  unfold reorderFeatures. apply Array_sort_returns. intros x y Hx Hy.
  unfold compareFeatures.
  destruct (negb _); [eauto|].
  destruct (new_Map_present features x Hx) as [i ->].
  destruct (new_Map_present features y Hy) as [j ->]. simpl. eauto.
Qed.

Lemma constructor_returns params : is_Some (constructor params).
Proof.
  unfold constructor.
  destruct (reorderFeatures_returns (p_features params)) as (r & -> & _).
  simpl. eauto.
Qed.

Lemma filter_idem {A} (p : A -> bool) l :
  List.filter p (List.filter p l) = List.filter p l.
Proof.
  induction l as [|x l IH]; [done|]. simpl.
  destruct (p x) eqn:E; simpl; [rewrite E, IH|]; done.
Qed.

Lemma filter_disjoint {A} (p q : A -> bool) l :
  (forall x, p x = true -> q x = false) ->
  List.filter p (List.filter q l) = [].
Proof.
  intros Hpq. induction l as [|x l IH]; [done|]. simpl.
  destruct (q x) eqn:E; simpl; [|done].
  destruct (p x) eqn:E'; [|done]. apply Hpq in E'. congruence.
Qed.


(** *** Any sort will do

    [Array_sort] is one sorting algorithm; engines differ. On a list without
    repeated features the comparator is a total order, so every
    rearrangement that is sorted by it is the one [reorderFeatures]
    returns. *)

Lemma originalOrder_recorded l k m a n :
  fold_left recordIndex (indexFrom k l) m a = Some n ->
  m a = Some n \/ exists i, n = (k + i)%nat /\ l !! i = Some a.
Proof.
  revert k m. induction l as [|x l IH]; intros k m; [by left|].
  rewrite indexFrom_cons. simpl. intros [H|(i & -> & Hi)]%IH.
  - unfold recordIndex, Map_set in H. simpl in H. case_decide as Hd; [|by left].
    subst a. injection H as <-. right. exists 0%nat. split; [lia|done].
  - right. exists (S i). split; [lia|done].
Qed.

Lemma new_Map_recorded l a i :
  new_Map (imap (fun i feature => (feature, i)) l) a = Some i -> l !! i = Some a.
Proof.
  intros [H|(j & -> & Hj)]%(originalOrder_recorded l 0); [done|]. done.
Qed.

Lemma comparesLeq_antisym l a b :
  comparesLeq (new_Map (imap (fun i feature => (feature, i)) l)) a b ->
  comparesLeq (new_Map (imap (fun i feature => (feature, i)) l)) b a ->
  a = b.
Proof.
  unfold comparesLeq, compareFeatures, nullthrows.
  fold (isProvider a) (isProvider b).
  intros (c & Hc & Hle) (c' & Hc' & Hle').
  destruct (isProvider a), (isProvider b); simpl in *;
    try (injection Hc as <-; injection Hc' as <-; lia).
  all: destruct (new_Map _ a) as [i|] eqn:Hi; [|discriminate];
    destruct (new_Map _ b) as [j|] eqn:Hj; [|discriminate]; simpl in *;
    injection Hc as <-; injection Hc' as <-;
    assert (i = j) by lia; subst j;
    apply new_Map_recorded in Hi, Hj; congruence.
Qed.

Lemma StronglySorted_filter {A} (R : A -> A -> Prop) (f : A -> bool) l :
  StronglySorted R l -> StronglySorted R (List.filter f l).
Proof.
  induction 1 as [|x l Hs IH Hx]; simpl; [constructor|].
  destruct (f x); [|done]. constructor; [done|].
  apply Forall_forall. intros y [Hy _]%list_elem_of_In%filter_In.
  rewrite Forall_forall in Hx. by apply Hx, list_elem_of_In.
Qed.

Lemma StronglySorted_weaken {A} (R R' : A -> A -> Prop) l :
  (forall a b, a ∈ l -> b ∈ l -> R a b -> R' a b) ->
  StronglySorted R l -> StronglySorted R' l.
Proof.
  intros Himpl Hs. induction Hs as [|x l Hs IH Hx]; [constructor|].
  constructor.
  - apply IH. intros a b Ha Hb. apply Himpl; by right.
  - rewrite Forall_forall in *. intros y Hy. apply Himpl; [left|by right|by apply Hx].
Qed.

Lemma partition_sorted originalOrder l :
  StronglySorted (recordedBefore originalOrder) l ->
  StronglySorted (comparesLeq originalOrder)
    (List.filter isProvider l ++ List.filter isOther l).
Proof.
  intros Hs. apply StronglySorted_app_2.
  - intros a b [_ Ha]%list_elem_of_In%filter_In [_ Hb]%list_elem_of_In%filter_In.
    unfold isOther in Hb. apply negb_true_iff in Hb.
    exists (-1)%Z. split; [|lia]. unfold compareFeatures.
    fold (isProvider a) (isProvider b). by rewrite Ha, Hb.
  - apply (StronglySorted_weaken (recordedBefore originalOrder));
      [|by apply StronglySorted_filter].
    intros a b [_ Ha]%list_elem_of_In%filter_In _ Hab.
    by apply compare_provider_first.
  - apply (StronglySorted_weaken (recordedBefore originalOrder));
      [|by apply StronglySorted_filter].
    intros a b [_ Ha]%list_elem_of_In%filter_In [_ Hb]%list_elem_of_In%filter_In Hab.
    unfold isOther in Ha, Hb. apply negb_true_iff in Ha, Hb.
    by apply compare_others.
Qed.

Lemma reorderFeatures_any_sort features sorted :
  NoDup features ->
  sorted ≡ₚ features ->
  StronglySorted
    (comparesLeq (new_Map (imap (fun i feature => (feature, i)) features))) sorted ->
  reorderFeatures features = Some sorted.
Proof.
  intros Hnd Hperm Hsorted. rewrite (reorderFeatures_partitions features Hnd).
  f_equal. symmetry.
  apply (StronglySorted_unique_strong
           (comparesLeq (new_Map (imap (fun i feature => (feature, i)) features))));
    [|done| |].
  - intros a b _ _. apply comparesLeq_antisym.
  - apply partition_sorted, (recordedBefore_of_indices _ _ 0).
    intros i a Hi. by apply new_Map_index.
  - rewrite Hperm. destruct (reorderFeatures_returns features) as (r & Hr & Hp).
    rewrite (reorderFeatures_partitions features Hnd) in Hr. injection Hr as <-.
    by symmetry.
Qed.

Example scenario_of_section_8 :
  (_features <$> constructor paramsScenario) = Some [featureRepo; featureA; featureB] /\
  (getEnabledFeatures cfgScenario <$> constructor paramsScenario)
  = Some [featureRepo; featureA; featureB].
Proof. split; vm_compute; reflexivity. Qed.

(** *** Lists with repeated features

    When a feature object occurs twice, the [Map] of original indices keeps
    its last index only. The comparator is then still a total preorder on
    the features of the list, so the sort still returns a sorted
    rearrangement; what is lost is the input order of the repeated
    feature. *)

Section SortedOutput.

Context {A : Type} (compare : A -> A -> option Z) (known : A -> Prop).

Let leq (a b : A) : Prop := exists c, compare a b = Some c /\ (c <= 0)%Z.

Hypothesis compare_total :
  forall a b, known a -> known b ->
    exists c, compare a b = Some c /\ ((0 < c)%Z -> leq b a).

Hypothesis leq_trans : forall a b c, leq a b -> leq b c -> leq a c.

Lemma sort_insert_sorted x l :
  known x -> Forall known l -> StronglySorted leq l ->
  exists r, sort_insert compare x l = Some r /\ r ≡ₚ x :: l /\ StronglySorted leq r.
Proof.
  intros Hx Hl Hs. induction Hs as [|y l Hs IH Hy]; simpl.
  - eexists. split; [done|]. split; [done|]. repeat constructor.
  - apply Forall_cons in Hl as [Hky Hl].
    destruct (compare_total x y Hx Hky) as (c & Hc & Hgt). rewrite Hc. simpl.
    destruct (c <=? 0)%Z eqn:Hle.
    + apply Z.leb_le in Hle. eexists. split; [done|]. split; [done|].
      assert (Hxy : leq x y) by (exists c; done).
      constructor; [by constructor|]. constructor; [done|].
      rewrite Forall_forall in *. intros z Hz. eapply leq_trans; eauto.
    + apply Z.leb_gt in Hle. destruct (IH Hl) as (r & -> & Hperm & Hsorted).
      simpl. eexists. split; [done|]. split.
      * rewrite Hperm. apply Permutation_swap.
      * constructor; [done|]. rewrite Forall_forall in *. intros z Hz.
        rewrite Hperm in Hz. apply elem_of_cons in Hz as [->|Hz]; auto.
Qed.

Lemma Array_sort_sorted l :
  Forall known l ->
  exists r, Array_sort compare l = Some r /\ r ≡ₚ l /\ StronglySorted leq r.
Proof.
  induction l as [|x l IH]; intros Hl; simpl.
  - eexists. split; [done|]. split; [done|]. constructor.
  - apply Forall_cons in Hl as [Hx Hl].
    destruct (IH Hl) as (r & -> & Hperm & Hsorted). simpl.
    destruct (sort_insert_sorted x r) as (r' & -> & Hperm' & Hsorted'); [done| |done|].
    { by rewrite Hperm. }
    eexists. split; [done|]. split; [|done]. by rewrite Hperm', Hperm.
Qed.

End SortedOutput.

Lemma compareFeatures_defined originalOrder a b :
  is_Some (originalOrder a) -> is_Some (originalOrder b) ->
  exists c, compareFeatures originalOrder a b = Some c
            /\ ((0 < c)%Z -> comparesLeq originalOrder b a).
Proof.
  intros [i Hi] [j Hj]. unfold comparesLeq, compareFeatures, nullthrows.
  fold (isProvider a) (isProvider b). rewrite Hi, Hj.
  destruct (isProvider a), (isProvider b); simpl;
    eexists; (split; [done|]); intros Hc; try lia; eexists; (split; [done|]); lia.
Qed.

Lemma comparesLeq_trans originalOrder a b c :
  comparesLeq originalOrder a b -> comparesLeq originalOrder b c ->
  comparesLeq originalOrder a c.
Proof.
  unfold comparesLeq, compareFeatures, nullthrows.
  fold (isProvider a) (isProvider b) (isProvider c).
  intros (x & Hx & Hle) (y & Hy & Hle').
  destruct (isProvider a), (isProvider b), (isProvider c); simpl in *;
    try (injection Hx as <-; lia); try (injection Hy as <-; lia);
    try (eexists; split; [done|lia]).
  all: destruct (originalOrder a) as [i|]; [|discriminate];
    destruct (originalOrder b) as [j|]; [|discriminate];
    destruct (originalOrder c) as [k|]; [|discriminate]; simpl in *;
    injection Hx as <-; injection Hy as <-; eexists; (split; [done|]); lia.
Qed.

Lemma StronglySorted_lookup_lt {A} (R : A -> A -> Prop) l i j a b :
  StronglySorted R l -> (i < j)%nat ->
  l !! i = Some a -> l !! j = Some b -> R a b.
Proof.
  intros Hs. revert i j. induction Hs as [|x l Hs IH Hx]; intros i j Hij Hi Hj;
    [done|].
  destruct j as [|j]; [lia|]. simpl in Hj. destruct i as [|i]; simpl in Hi.
  - injection Hi as ->. rewrite Forall_forall in Hx.
    by eapply Hx, list_elem_of_lookup_2.
  - apply (IH i j); [lia|done..].
Qed.

(** On every list, [reorderFeatures] returns a rearrangement of its argument
    that is sorted by the comparator. *)
Lemma reorderFeatures_sorted features :
  exists result,
    reorderFeatures features = Some result /\
    result ≡ₚ features /\
    StronglySorted
      (comparesLeq (new_Map (imap (fun i feature => (feature, i)) features)))
      result.
Proof.
  unfold reorderFeatures.
  apply (Array_sort_sorted _ (fun a => a ∈ features)).
  - intros a b Ha Hb. apply compareFeatures_defined; by apply new_Map_present.
  - apply comparesLeq_trans.
  - by apply Forall_forall.
Qed.

(** C6 (amended). On every list [reorderFeatures] returns, and its result is
    a rearrangement of the input in which every repository provider stands
    before every other feature. When no feature object occurs twice in the
    input, the providers among themselves and the others among themselves
    keep their input order. The function is a function of its argument
    alone: the source sorts a copy of the array ([slice]). *)
Theorem reorderFeatures_partitions_stably features :
  exists result,
    reorderFeatures features = Some result /\
    result ≡ₚ features /\
    (forall i j a b,
       result !! i = Some a -> result !! j = Some b ->
       isProvider a = true -> isProvider b = false -> (i < j)%nat) /\
    (NoDup features ->
     List.filter isProvider result = List.filter isProvider features /\
     List.filter isOther result = List.filter isOther features).
Proof.
  destruct (reorderFeatures_sorted features) as (result & Hr & Hperm & Hsorted).
  exists result. split; [done|]. split; [done|]. split.
  - intros i j a b Hi Hj Ha Hb.
    destruct (decide (i < j)%nat) as [|Hge]; [done|exfalso].
    destruct (decide (i = j)) as [->|Hne]; [congruence|].
    destruct (StronglySorted_lookup_lt _ _ j i b a Hsorted) as (c & Hc & Hle);
      [lia|done..|].
    unfold compareFeatures in Hc. fold (isProvider a) (isProvider b) in Hc.
    rewrite Ha, Hb in Hc. simpl in Hc. injection Hc as <-. lia.
  - intros Hnd. rewrite (reorderFeatures_partitions features Hnd) in Hr.
    injection Hr as <-. split.
    + rewrite List.filter_app, filter_idem, (filter_disjoint isProvider isOther).
      * by rewrite app_nil_r.
      * intros x Hx. unfold isOther. by rewrite Hx.
    + rewrite List.filter_app, filter_idem, (filter_disjoint isOther isProvider).
      * done.
      * intros x Hx. unfold isOther in Hx. by apply negb_true_iff in Hx.
Qed.

Lemma reorderFeatures_partitions_stably_witness :
  NoDup [featureA; featureRepo; featureB] /\
  reorderFeatures [featureA; featureRepo; featureB]
  = Some [featureRepo; featureA; featureB] /\
  exists result,
    reorderFeatures [featureA; featureRepo; featureB] = Some result /\
    List.filter isOther result = [featureA; featureB].
Proof.
  assert (Hnd : NoDup [featureA; featureRepo; featureB]) by decide_by_computation.
  split; [exact Hnd|]. split; [vm_compute; reflexivity|].
  destruct (reorderFeatures_partitions_stably [featureA; featureRepo; featureB])
    as (result & Hr & _ & _ & Hstable).
  destruct (Hstable Hnd) as [_ Ho].
  exists result. split; [exact Hr|]. rewrite Ho. vm_compute. reflexivity.
Defined.

(** C6 as stated fails: when feature-a is listed twice, it is sorted by its
    last index, behind feature-b, and the input order [a, b, a] of the
    features that are not providers is not kept. *)
Lemma reorderFeatures_repeated_feature_moves :
  reorderFeatures [featureA; featureB; featureA]
  = Some [featureB; featureA; featureA] /\
  List.filter isOther [featureB; featureA; featureA]
  <> List.filter isOther [featureA; featureB; featureA].
Proof. split; [vm_compute; reflexivity|]. vm_compute. discriminate. Qed.

(** ** Programs *)

Lemma bind_Ok {A B} (m : M A) (k : A -> M B) host w a w' :
  m host w = (Ok a, w') -> bind m k host w = k a host w'.
Proof. intros H. unfold bind. by rewrite H. Qed.

(** A loop that skips some elements is the loop over the others. *)
Lemma forEach_filter {A} (keep : A -> bool) (body : A -> M unit) xs host w :
  forEach xs (fun x => if keep x then body x else ret tt) host w
  = forEach (List.filter keep xs) body host w.
Proof.
  revert w. induction xs as [|x xs IH]; intros w; [done|]. simpl.
  destruct (keep x); simpl.
  - unfold bind. destruct (body x host w) as [[[]|err] w1]; [apply IH|done].
  - apply IH.
Qed.

(** A loop whose body always returns, leaves the loader alone and only
    extends the log, does so itself, one block of events per element. *)
Lemma forEach_returns {A} (R : A -> list Event -> Prop) (body : A -> M unit)
    host xs w :
  (forall x w0, x ∈ xs ->
     exists block, body x host w0 = (Ok tt, {| this := this w0; log := log w0 ++ block |})
                   /\ R x block) ->
  exists blocks,
    forEach xs body host w
    = (Ok tt, {| this := this w; log := log w ++ concat blocks |})
    /\ Forall2 R xs blocks.
Proof.
  revert w. induction xs as [|x xs IH]; intros w Hbody.
  - exists []. simpl. rewrite app_nil_r. by destruct w.
  - destruct (Hbody x w) as (block & Hx & HR); [left|].
    destruct (IH {| this := this w; log := log w ++ block |}) as (blocks & Hxs & HRs).
    { intros y w0 Hy. apply Hbody. by right. }
    exists (block :: blocks). split; [|by constructor].
    simpl. erewrite bind_Ok by exact Hx. rewrite Hxs. simpl.
    by rewrite app_assoc.
Qed.

Lemma safeDeactivate_returns feature suppressSerialization host w :
  exists block,
    safeDeactivate feature suppressSerialization host w
    = (Ok tt, {| this := this w; log := log w ++ block |})
    /\ DeactivationAttempt (featureId feature) suppressSerialization block.
Proof.
  unfold safeDeactivate, try_catch, bind, callHost, consoleError, record, ret.
  fold (featureId feature).
  destruct (host (log w) (packages_getLoadedPackage (featureId feature)))
    as [[p|]|m] eqn:E1; simpl.
  - destruct (host _ (packages_deactivatePackage _ _)) as [v|m] eqn:E2; simpl.
    + eexists. rewrite <- app_assoc. split; [done|]. apply deactivation_requested.
    + eexists. rewrite <- !app_assoc. split; [done|]. apply deactivation_threw.
  - eexists. split; [done|]. apply deactivation_not_loaded.
  - eexists. rewrite <- app_assoc. split; [done|]. apply deactivation_lookup_threw.
Qed.

Lemma safeSerialize_returns feature host w :
  exists block,
    safeSerialize feature host w
    = (Ok tt, {| this := this w; log := log w ++ block |})
    /\ SerializationAttempt (featureId feature) block.
Proof.
  unfold safeSerialize, try_catch, bind, callHost, consoleError, record, ret.
  fold (featureId feature).
  destruct (host (log w) (packages_getActivePackage (featureId feature)))
    as [[p|]|m] eqn:E1; simpl.
  - destruct (host _ (packages_serializePackage _)) as [v|m] eqn:E2; simpl.
    + eexists. rewrite <- app_assoc. split; [done|]. apply serialization_requested.
    + eexists. rewrite <- !app_assoc. split; [done|]. apply serialization_threw.
  - eexists. split; [done|]. apply serialization_not_active.
  - eexists. rewrite <- app_assoc. split; [done|]. apply serialization_lookup_threw.
Qed.

Lemma serialize_runs (host : Host) (w : World) :
  exists attempts,
    serialize host w
    = (Ok tt, {| this := this w; log := log w ++ concat attempts |})
    /\ Forall2 (fun feature attempt =>
                  SerializationAttempt (featureId feature) attempt)
               (_features (this w)) attempts.
Proof.
  unfold serialize, get_this. unfold bind at 1.
  apply forEach_returns. intros feature w0 _. apply safeSerialize_returns.
Qed.

(** C8. [serialize] always returns, leaves the loader as it was, and its
    part of the log is one serialization attempt per catalog feature, in
    catalog order: whatever was thrown for one feature is reported on the
    console, and every feature after it is still looked up and, when the
    host reports it active, requested to serialize. *)
Theorem serialize_isolates_failures (host : Host) (w : World) :
  exists attempts,
    serialize host w
    = (Ok tt, {| this := this w; log := log w ++ concat attempts |})
    /\ Forall2 (fun feature attempt =>
                  SerializationAttempt (featureId feature) attempt)
               (_features (this w)) attempts.
Proof. apply serialize_runs. Qed.

(** ** Reconciliation *)

Lemma updateActiveFeatures_unfold cfg host w :
  let desired := getEnabledFeatures cfg (this w) in
  let active := _currentlyActiveFeatures (this w) in
  updateActiveFeatures cfg host w
  = match forEach (toActivate desired active) requestActivation host w with
    | (Ok _, w1) =>
        match forEach (toDeactivate desired active)
                (fun feature => safeDeactivate feature false) host w1 with
        | (Ok _, w2) =>
            (Ok tt, {| this := set_currentlyActiveFeatures desired (this w2);
                       log := log w2 |})
        | (Throw err, w2) => (Throw err, w2)
        end
    | (Throw err, w1) => (Throw err, w1)
    end.
Proof.
  intros desired active. unfold updateActiveFeatures.
  unfold bind at 1. unfold get_this. cbv beta iota zeta.
  unfold bind at 1. fold desired active.
  rewrite (forEach_filter (fun feature => negb (Set_has active feature))
             requestActivation).
  fold (toActivate desired active).
  destruct (forEach (toActivate desired active) requestActivation host w)
    as [[[]|err] w1]; [|done].
  unfold bind at 1.
  rewrite (forEach_filter (fun feature => negb (Set_has desired feature))
             (fun feature => safeDeactivate feature false)).
  fold (toDeactivate desired active).
  destruct (forEach (toDeactivate desired active) _ host w1) as [[[]|err] w2]; done.
Qed.

Lemma requestActivation_cons host x xs w :
  forEach (x :: xs) requestActivation host w
  = match host (log w) (packages_activatePackage (path x)) with
    | Returned v =>
        forEach xs requestActivation host
          {| this := this w;
             log := log w ++ [Called (packages_activatePackage (path x)) (Returned v)] |}
    | Threw m =>
        (Throw (HostError m),
         {| this := this w;
            log := log w ++ [Called (packages_activatePackage (path x)) (Threw m)] |})
    end.
Proof.
  simpl. unfold bind at 1. unfold requestActivation, bind, callHost, record.
  destruct (host (log w) (packages_activatePackage (path x))); reflexivity.
Qed.

(** The activation loop either gets through, every request returning, or
    stops at the first request that throws, and throws what it threw. *)
Lemma activations_run host xs w :
  (exists requests,
     forEach xs requestActivation host w
     = (Ok tt, {| this := this w; log := log w ++ requests |})
     /\ Forall2 ActivationRequest xs requests)
  \/
  (exists issued feature rest requests m,
     xs = issued ++ feature :: rest
     /\ Forall2 ActivationRequest issued requests
     /\ forEach xs requestActivation host w
        = (Throw (HostError m),
           {| this := this w;
              log := log w ++ requests
                     ++ [Called (packages_activatePackage (path feature)) (Threw m)] |})).
Proof.
  revert w. induction xs as [|x xs IH]; intros w.
  - left. exists []. simpl. rewrite app_nil_r. split; [by destruct w|constructor].
  - rewrite requestActivation_cons.
    destruct (host (log w) (packages_activatePackage (path x))) as [v|m] eqn:E.
    + destruct (IH {| this := this w;
                      log := log w ++ [Called (packages_activatePackage (path x))
                                         (Returned v)] |})
        as [(requests & Hrun & Hreq)
           |(issued & feature & rest & requests & m & Hsplit & Hreq & Hrun)];
        simpl in Hrun; rewrite Hrun.
      * left. exists (Called (packages_activatePackage (path x)) (Returned v) :: requests).
        rewrite <- app_assoc. split; [done|].
        constructor; [by eexists|done].
      * right. exists (x :: issued), feature, rest,
          (Called (packages_activatePackage (path x)) (Returned v) :: requests), m.
        rewrite <- !app_assoc. rewrite Hsplit. split; [done|].
        split; [|done]. constructor; [by eexists|done].
    + right. exists [], x, xs, [], m. simpl. split; [done|]. split; [constructor|done].
Qed.

(** The two ways a reconciliation pass ends. *)
Lemma updateActiveFeatures_cases cfg host w :
  let desired := getEnabledFeatures cfg (this w) in
  let active := _currentlyActiveFeatures (this w) in
  (exists requests attempts,
     updateActiveFeatures cfg host w
     = (Ok tt, {| this := set_currentlyActiveFeatures desired (this w);
                  log := log w ++ requests ++ concat attempts |})
     /\ Forall2 ActivationRequest (toActivate desired active) requests
     /\ Forall2 (fun feature attempt =>
                   DeactivationAttempt (featureId feature) false attempt)
                (toDeactivate desired active) attempts)
  \/
  (exists issued feature rest requests m,
     toActivate desired active = issued ++ feature :: rest
     /\ Forall2 ActivationRequest issued requests
     /\ updateActiveFeatures cfg host w
        = (Throw (HostError m),
           {| this := this w;
              log := log w ++ requests
                     ++ [Called (packages_activatePackage (path feature)) (Threw m)] |})).
Proof.
  intros desired active. rewrite updateActiveFeatures_unfold. fold desired active.
  destruct (activations_run host (toActivate desired active) w)
    as [(requests & -> & Hreq)
       |(issued & feature & rest & requests & m & Hsplit & Hreq & ->)].
  - left.
    destruct (forEach_returns
                (fun feature attempt =>
                   DeactivationAttempt (featureId feature) false attempt)
                (fun feature => safeDeactivate feature false) host
                (toDeactivate desired active)
                {| this := this w; log := log w ++ requests |})
      as (attempts & -> & Hatt).
    { intros x w0 _. apply safeDeactivate_returns. }
    exists requests, attempts. simpl. rewrite <- app_assoc. done.
  - right. exists issued, feature, rest, requests, m. done.
Qed.

Lemma elem_of_toActivate desired active feature :
  feature ∈ toActivate desired active <-> feature ∈ desired /\ feature ∉ active.
Proof.
  unfold toActivate. rewrite list_elem_of_In, filter_In, <- list_elem_of_In.
  by rewrite negb_true_iff, Set_has_false.
Qed.

Lemma elem_of_toDeactivate desired active feature :
  feature ∈ toDeactivate desired active <-> feature ∈ active /\ feature ∉ desired.
Proof.
  unfold toDeactivate. rewrite list_elem_of_In, filter_In, <- list_elem_of_In.
  by rewrite negb_true_iff, Set_has_false.
Qed.

(** C3 (amended). Of a reconciliation pass that returns -- it does unless
    an activation request throws -- the part of the log is: first one
    activation request for each feature of the resolved set that is not in
    the active set, in the order of the resolved set; then one guarded
    deactivation for each feature of the active set that is not in the
    resolved set, in the order of the active set, each asking the host for
    the loaded package and requesting the deactivation only if the host has
    it. Afterwards the active set is the resolved set and nothing else of
    the loader has changed. *)
Theorem updateActiveFeatures_reconciles cfg host w w' :
  updateActiveFeatures cfg host w = (Ok tt, w') ->
  let desired := getEnabledFeatures cfg (this w) in
  let active := _currentlyActiveFeatures (this w) in
  exists requests attempts,
    log w' = log w ++ requests ++ concat attempts /\
    Forall2 ActivationRequest (toActivate desired active) requests /\
    (forall feature,
       feature ∈ toActivate desired active <-> feature ∈ desired /\ feature ∉ active) /\
    Forall2 (fun feature attempt =>
               DeactivationAttempt (featureId feature) false attempt)
            (toDeactivate desired active) attempts /\
    (forall feature,
       feature ∈ toDeactivate desired active <-> feature ∈ active /\ feature ∉ desired) /\
    this w' = set_currentlyActiveFeatures desired (this w) /\
    _currentlyActiveFeatures (this w') = desired.
Proof.
  intros Hrun desired active.
  destruct (updateActiveFeatures_cases cfg host w)
    as [(requests & attempts & Heq & Hreq & Hatt)
       |(issued & feature & rest & requests & m & _ & _ & Heq)];
    rewrite Heq in Hrun; [|discriminate].
  injection Hrun as <-. exists requests, attempts. simpl.
  split; [done|]. split; [done|]. split; [apply elem_of_toActivate|].
  split; [done|]. split; [apply elem_of_toDeactivate|]. done.
Qed.

(** The example of section 8: from the active set {A, B} and the resolved
    set {B, C}, the host sees activate(C), then the deactivation of A. *)
Lemma updateActiveFeatures_reconciles_witness :
  getEnabledFeatures cfgOnlyANever (loaderABC [featureA; featureB])
  = [featureB; featureC] /\
  exists w',
    updateActiveFeatures cfgOnlyANever hostOk
      {| this := loaderABC [featureA; featureB]; log := [] |} = (Ok tt, w') /\
    log w'
    = [Called (packages_activatePackage "/pkgs/feature-c") (Returned None);
       Called (packages_getLoadedPackage "feature-a")
         (Returned (Some (examplePackage "feature-a")));
       Called (packages_deactivatePackage "feature-a" false) (Returned None)] /\
    _currentlyActiveFeatures (this w') = [featureB; featureC].
Proof.
  split; [vm_compute; reflexivity|].
  assert (Hrun : updateActiveFeatures cfgOnlyANever hostOk
                   {| this := loaderABC [featureA; featureB]; log := [] |}
                 = (Ok tt,
                    {| this := loaderABC [featureB; featureC];
                       log := [Called (packages_activatePackage "/pkgs/feature-c")
                                 (Returned None);
                               Called (packages_getLoadedPackage "feature-a")
                                 (Returned (Some (examplePackage "feature-a")));
                               Called (packages_deactivatePackage "feature-a" false)
                                 (Returned None)] |}))
    by (vm_compute; reflexivity).
  destruct (updateActiveFeatures_reconciles _ _ _ _ Hrun)
    as (_ & _ & _ & _ & _ & _ & _ & _ & Hactive).
  eexists. split; [exact Hrun|]. split; [reflexivity|].
  etransitivity; [exact Hactive|]. vm_compute. reflexivity.
Defined.

(** C3 as stated fails: feature-a is in the active set and not in the
    resolved set, the pass returns, and yet no deactivation request reaches
    a host that does not report the package loaded. *)
Lemma updateActiveFeatures_skips_unloaded_package :
  featureA ∈ _currentlyActiveFeatures (exampleLoader [featureA] ∅ [featureA]) /\
  (featureA ∉ getEnabledFeatures cfgRuleNever (exampleLoader [featureA] ∅ [featureA])) /\
  updateActiveFeatures cfgRuleNever hostNothingLoaded
    {| this := exampleLoader [featureA] ∅ [featureA]; log := [] |}
  = (Ok tt,
     {| this := exampleLoader [featureA] ∅ [];
        log := [Called (packages_getLoadedPackage "feature-a") (Returned None)] |}) /\
  List.filter isDeactivationRequest
    [Called (packages_getLoadedPackage "feature-a") (Returned None)] = [].
Proof.
  split; [simpl; left|]. split; [|split; [vm_compute; reflexivity|reflexivity]].
  intros H. vm_compute in H. by apply elem_of_nil in H.
Qed.

(** C4, at the failing input. The error thrown by the activation of
    feature-a leaves [updateActiveFeatures] uncaught: nothing is reported on
    the console, feature-b is never requested, and the active set stays
    empty. *)
Theorem updateActiveFeatures_activation_error_escapes :
  getEnabledFeatures noConfig (exampleLoader [featureA; featureB] ∅ [])
  = [featureA; featureB] /\
  updateActiveFeatures noConfig hostActivationThrows
    {| this := exampleLoader [featureA; featureB] ∅ []; log := [] |}
  = (Throw (HostError "cannot activate"),
     {| this := exampleLoader [featureA; featureB] ∅ [];
        log := [Called (packages_activatePackage "/pkgs/feature-a")
                  (Threw "cannot activate")] |}).
Proof. split; vm_compute; reflexivity. Qed.

(** The guarded calls do isolate failures: a guarded deactivation always
    returns, whatever the host throws. *)
Lemma deactivate_loop_isolates_failures host suppressSerialization xs w :
  exists attempts,
    forEach xs (fun feature => safeDeactivate feature suppressSerialization) host w
    = (Ok tt, {| this := this w; log := log w ++ concat attempts |})
    /\ Forall2 (fun feature attempt =>
                  DeactivationAttempt (featureId feature) suppressSerialization attempt)
               xs attempts.
Proof. apply forEach_returns. intros x w0 _. apply safeDeactivate_returns. Qed.

Lemma toActivate_same s : toActivate s s = [].
Proof.
  unfold toActivate. apply elem_of_nil_inv. intros x Hx.
  apply list_elem_of_In, filter_In in Hx as [Hx Hn].
  apply negb_true_iff, Set_has_false in Hn. by apply Hn, list_elem_of_In.
Qed.

(** A pass that returned has nothing left to do: run again under the same
    configuration, it calls nothing and changes nothing. *)
Lemma updateActiveFeatures_again cfg host w w' :
  updateActiveFeatures cfg host w = (Ok tt, w') ->
  _currentlyActiveFeatures (this w') = getEnabledFeatures cfg (this w') /\
  forall host', updateActiveFeatures cfg host' w' = (Ok tt, w').
Proof.
  intros Hrun.
  destruct (updateActiveFeatures_cases cfg host w)
    as [(requests & attempts & Heq & _)
       |(issued & feature & rest & requests & m & _ & _ & Heq)];
    rewrite Heq in Hrun; [|discriminate].
  injection Hrun as <-. simpl. split; [done|]. intros host'.
  rewrite updateActiveFeatures_unfold. cbv zeta. simpl.
  change (toDeactivate ?d ?a) with (toActivate a d).
  rewrite !toActivate_same. reflexivity.
Qed.

(** C5, at the failing input. The first activation request throws: the pass
    is abandoned with the active set still empty, not the resolved set; the
    second pass, under the same configuration, issues activation requests. *)
Theorem updateActiveFeatures_repeats_after_throw :
  getEnabledFeatures noConfig (exampleLoader [featureA; featureB] ∅ [])
  = [featureA; featureB] /\
  updateActiveFeatures noConfig hostFirstActivationThrows
    {| this := exampleLoader [featureA; featureB] ∅ []; log := [] |}
  = (Throw (HostError "cannot activate"),
     {| this := exampleLoader [featureA; featureB] ∅ [];
        log := [Called (packages_activatePackage "/pkgs/feature-a")
                  (Threw "cannot activate")] |}) /\
  updateActiveFeatures noConfig hostFirstActivationThrows
    {| this := exampleLoader [featureA; featureB] ∅ [];
       log := [Called (packages_activatePackage "/pkgs/feature-a")
                 (Threw "cannot activate")] |}
  = (Ok tt,
     {| this := exampleLoader [featureA; featureB] ∅ [featureA; featureB];
        log := [Called (packages_activatePackage "/pkgs/feature-a")
                  (Threw "cannot activate");
                Called (packages_activatePackage "/pkgs/feature-a") (Returned None);
                Called (packages_activatePackage "/pkgs/feature-b") (Returned None)] |}).
Proof. repeat split; vm_compute; reflexivity. Qed.

(** Serializing feature-a throws; feature-b is serialized all the same. *)
Example serialize_after_a_throw :
  serialize hostSerializeAThrows
    {| this := exampleLoader [featureA; featureB] ∅ []; log := [] |}
  = (Ok tt,
     {| this := exampleLoader [featureA; featureB] ∅ [];
        log := [Called (packages_getActivePackage "feature-a")
                  (Returned (Some (examplePackage "feature-a")));
                Called (packages_serializePackage (examplePackage "feature-a"))
                  (Threw "cannot serialize");
                console_error (serializationError "feature-a" "cannot serialize");
                Called (packages_getActivePackage "feature-b")
                  (Returned (Some (examplePackage "feature-b")));
                Called (packages_serializePackage (examplePackage "feature-b"))
                  (Returned None)] |}).
Proof. vm_compute. reflexivity. Qed.

(** ** The lifecycle *)

Lemma forEach_keeps_this {A} (body : A -> M unit) xs :
  (forall x, Keeps eq (body x)) -> Keeps eq (forEach xs body).
Proof.
  intros Hbody. induction xs as [|x xs IH]; intros host w r w' Hrun; simpl in Hrun.
  - by injection Hrun as <- <-.
  - unfold bind in Hrun. destruct (body x host w) as [[[]|err] w1] eqn:Hx.
    + rewrite (Hbody x _ _ _ _ Hx). by eapply IH.
    + injection Hrun as <- <-. by eapply Hbody.
Qed.

Lemma callHost_keeps_this c : Keeps eq (callHost c ;; ret tt).
Proof.
  intros host w r w'. unfold bind, callHost, ret, record.
  destruct (host (log w) c); intros H; by injection H as <- <-.
Qed.

Lemma serialize_keeps_this : Keeps eq serialize.
Proof.
  intros host w r w' Hrun.
  destruct (serialize_runs host w) as (attempts & Heq & _).
  rewrite Heq in Hrun. by injection Hrun as <- <-.
Qed.

Lemma loadEnabledFeatures_keeps_this cfg : Keeps eq (loadEnabledFeatures cfg).
Proof.
  intros host w r w'. unfold loadEnabledFeatures. unfold bind at 1. unfold get_this.
  unfold bind at 1.
  destruct (forEach _ _ host w) as [[[]|err] w1] eqn:Hloop.
  - apply forEach_keeps_this in Hloop; [|intros x; apply callHost_keeps_this].
    intros Hrun. apply callHost_keeps_this in Hrun. congruence.
  - apply forEach_keeps_this in Hloop; [|intros x; apply callHost_keeps_this].
    intros Hrun. by injection Hrun as <- <-.
Qed.

Lemma updateActiveFeatures_keeps_disposables cfg :
  Keeps sameDisposables (updateActiveFeatures cfg).
Proof.
  intros host w r w' Hrun.
  destruct (updateActiveFeatures_cases cfg host w)
    as [(requests & attempts & Heq & _)
       |(issued & feature & rest & requests & m & _ & _ & Heq)];
    rewrite Heq in Hrun; injection Hrun as <- <-; by split.
Qed.

(** [load] is never turned down by its guard while the load disposable is
    not released, and it does not release it. *)
Lemma load_passes_guard devMode host w r w' :
  disposed (_loadDisposable (this w)) = false ->
  load devMode host w = (r, w') ->
  r <> Throw AssertionError /\
  disposed (_loadDisposable (this w')) = false /\
  _activationDisposable (this w') = _activationDisposable (this w).
Proof.
  intros Hd. unfold load, bind, get_this, invariant, UniversalDisposable_add,
    modify_this, callHost, record, ret, throw. rewrite Hd. simpl.
  destruct (host _ (deserializers_add _)) as [v1|m1]; simpl.
  2: { intros H. injection H as <- <-. done. }
  destruct (host _ (featureConfig_setPackageName _)) as [v2|m2]; simpl.
  2: { intros H. injection H as <- <-. done. }
  destruct (buildConfig devMode (_features (this w))) as [config|]; simpl.
  2: { intros H. injection H as <- <-. done. }
  destruct (host _ packages_onDidLoadPackage) as [v3|m3]; simpl.
  2: { intros H. injection H as <- <-. done. }
  intros H. injection H as <- <-. done.
Qed.

Lemma activate_guard cfg host w :
  _activationDisposable (this w) <> None ->
  activate cfg host w = (Throw AssertionError, w).
Proof.
  intros Hd. unfold activate, bind, get_this, invariant, throw.
  rewrite bool_decide_eq_false_2 by done. reflexivity.
Qed.

Lemma deactivate_guard host w :
  isActivated (this w) = false ->
  deactivate host w = (Throw AssertionError, w).
Proof.
  intros Hd. unfold deactivate, bind, get_this, invariant, throw.
  unfold isActivated in Hd. rewrite Hd. reflexivity.
Qed.

Lemma activate_returned cfg host w w' :
  activate cfg host w = (Ok tt, w') ->
  isActivated (this w') = true /\
  _loadDisposable (this w') = _loadDisposable (this w).
Proof.
  unfold activate. unfold bind at 1. unfold get_this. cbv beta iota.
  unfold bind at 1. unfold invariant.
  destruct (bool_decide _); [|discriminate]. unfold ret at 1. cbv beta iota.
  unfold bind at 1. unfold callHost at 1.
  destruct (host _ (packages_getLoadedPackage _)) as [[rootPackage|]|m]; try discriminate.
  unfold bind at 1. unfold callHost at 1.
  destruct (host _ (localStorage_removeItem _)) as [v1|m1]; [|discriminate].
  unfold bind at 1. unfold callHost at 1.
  destruct (host _ (config_onDidChange _)) as [v2|m2]; [|discriminate].
  unfold bind at 1. unfold callHost at 1.
  destruct (host _ (config_onDidChange _)) as [v3|m3]; [|discriminate].
  unfold bind at 1. unfold modify_this at 1. cbv beta iota.
  intros Hrun. apply updateActiveFeatures_keeps_disposables in Hrun as [H1 H2].
  unfold isActivated. rewrite H2, H1. done.
Qed.

Lemma dispose_members_keeps_this members :
  Keeps eq (forEach members (fun member => callHost (dispose member) ;; ret tt)).
Proof. apply forEach_keeps_this. intros x. apply callHost_keeps_this. Qed.

Lemma deactivate_returned host w w' :
  deactivate host w = (Ok tt, w') ->
  _activationDisposable (this w') = None /\
  _loadDisposable (this w') = _loadDisposable (this w).
Proof.
  unfold deactivate. unfold bind at 1. unfold get_this. cbv beta iota.
  unfold bind at 1. unfold invariant.
  destruct (_activationDisposable (this w)) as [d|] eqn:Hd; [|discriminate].
  destruct (negb (disposed d)) eqn:Hnd; [|discriminate].
  apply negb_true_iff in Hnd.
  unfold ret at 1. cbv beta iota. unfold bind at 1.
  destruct (deactivate_loop_isolates_failures host true
              (_currentlyActiveFeatures (this w)) w) as (attempts & -> & _).
  unfold bind at 1. unfold modify_this at 1. cbv beta iota.
  unfold bind at 1. unfold UniversalDisposable_dispose. rewrite Hnd.
  unfold bind at 1. unfold modify_this at 1. cbv beta iota.
  unfold bind at 1.
  destruct (forEach (teardowns d) _ host _) as [[[]|err] w1] eqn:Hloop;
    [|discriminate].
  apply dispose_members_keeps_this in Hloop. simpl in Hloop.
  unfold modify_this. intros Hrun. injection Hrun as <-. simpl.
  rewrite <- Hloop. done.
Qed.

Lemma updateActiveFeatures_throws_host_error cfg host w err w' :
  updateActiveFeatures cfg host w = (Throw err, w') ->
  this w' = this w /\ exists m, err = HostError m.
Proof.
  intros Hrun.
  destruct (updateActiveFeatures_cases cfg host w)
    as [(requests & attempts & Heq & _)
       |(issued & feature & rest & requests & m & _ & _ & Heq)];
    rewrite Heq in Hrun; [discriminate|].
  injection Hrun as <- <-. eauto.
Qed.

(** An [activate] that is turned down has not touched the loader. *)
Lemma activate_refused cfg host w w' :
  activate cfg host w = (Throw AssertionError, w') -> this w' = this w.
Proof.
  unfold activate. unfold bind at 1. unfold get_this. cbv beta iota.
  unfold bind at 1. unfold invariant.
  destruct (bool_decide _).
  2: { unfold throw. intros H. by injection H as <-. }
  unfold ret at 1. cbv beta iota.
  unfold bind at 1. unfold callHost at 1.
  destruct (host _ (packages_getLoadedPackage _)) as [[rootPackage|]|m];
    try discriminate.
  2: { unfold throw. intros H. by injection H as <-. }
  unfold bind at 1. unfold callHost at 1.
  destruct (host _ (localStorage_removeItem _)) as [v1|m1]; [|discriminate].
  unfold bind at 1. unfold callHost at 1.
  destruct (host _ (config_onDidChange _)) as [v2|m2]; [|discriminate].
  unfold bind at 1. unfold callHost at 1.
  destruct (host _ (config_onDidChange _)) as [v3|m3]; [|discriminate].
  unfold bind at 1. unfold modify_this at 1. cbv beta iota.
  intros Hrun. apply updateActiveFeatures_throws_host_error in Hrun as [_ [m Hm]].
  discriminate.
Qed.

Lemma dispose_members_throw_host_error members host w err w' :
  forEach members (fun member => callHost (dispose member) ;; ret tt) host w
  = (Throw err, w') ->
  exists m, err = HostError m.
Proof.
  revert w. induction members as [|x members IH]; intros w; simpl; [discriminate|].
  unfold bind at 1. unfold bind at 1. unfold callHost at 1.
  destruct (host (log w) (dispose x)) as [v|m].
  - unfold ret at 1. apply IH.
  - intros H. injection H as <- <-. eauto.
Qed.

(** A [deactivate] that is turned down has not touched the loader. *)
Lemma deactivate_refused host w w' :
  deactivate host w = (Throw AssertionError, w') -> this w' = this w.
Proof.
  unfold deactivate. unfold bind at 1. unfold get_this. cbv beta iota.
  unfold bind at 1. unfold invariant.
  destruct (_activationDisposable (this w)) as [d|] eqn:Hd.
  2: { unfold throw. intros H. by injection H as <-. }
  destruct (negb (disposed d)) eqn:Hnd.
  2: { unfold throw. intros H. by injection H as <-. }
  apply negb_true_iff in Hnd.
  unfold ret at 1. cbv beta iota. unfold bind at 1.
  destruct (deactivate_loop_isolates_failures host true
              (_currentlyActiveFeatures (this w)) w) as (attempts & -> & _).
  unfold bind at 1. unfold modify_this at 1. cbv beta iota.
  unfold bind at 1. unfold UniversalDisposable_dispose. rewrite Hnd.
  unfold bind at 1. unfold modify_this at 1. cbv beta iota.
  unfold bind at 1.
  destruct (forEach (teardowns d) _ host _) as [[[]|err] w1] eqn:Hloop.
  - unfold modify_this. discriminate.
  - apply dispose_members_throw_host_error in Hloop as [m ->]. discriminate.
Qed.

(** An [activate] that a host error ends has either left the loader as it
    was, or stored its subscriptions and failed in the reconciliation
    pass. *)
Lemma activate_threw cfg host w err w' :
  activate cfg host w = (Throw err, w') ->
  err <> AssertionError ->
  _activationDisposable (this w) = None /\
  (exists m, err = HostError m) /\
  (this w' = this w \/
   this w' = set_activationDisposable
               (Some (new_UniversalDisposable
                        [config_onDidChange (getUseKeyPath (this w));
                         config_onDidChange (getEnabledFeatureGroupsKeyPath (this w))]))
               (this w)).
Proof.
  unfold activate. unfold bind at 1. unfold get_this. cbv beta iota.
  unfold bind at 1. unfold invariant.
  destruct (bool_decide _) eqn:Hnone.
  2: { unfold throw. intros H. by injection H as <-. }
  apply bool_decide_eq_true in Hnone.
  unfold ret at 1. cbv beta iota.
  unfold bind at 1. unfold callHost at 1.
  destruct (host _ (packages_getLoadedPackage _)) as [[rootPackage|]|m].
  2: { unfold throw. intros H. by injection H as <-. }
  2: { intros H _. injection H as <- <-. eauto. }
  unfold bind at 1. unfold callHost at 1.
  destruct (host _ (localStorage_removeItem _)) as [v1|m1].
  2: { intros H _. injection H as <- <-. eauto. }
  unfold bind at 1. unfold callHost at 1.
  destruct (host _ (config_onDidChange _)) as [v2|m2].
  2: { intros H _. injection H as <- <-. eauto. }
  unfold bind at 1. unfold callHost at 1.
  destruct (host _ (config_onDidChange _)) as [v3|m3].
  2: { intros H _. injection H as <- <-. eauto. }
  unfold bind at 1. unfold modify_this at 1. cbv beta iota.
  intros Hrun _. apply updateActiveFeatures_throws_host_error in Hrun as [-> Hm].
  simpl. auto.
Qed.

(** A [deactivate] that a host error ends was releasing the subscriptions:
    the active set is empty, and the subscriptions are marked released. *)
Lemma deactivate_threw host w err w' :
  deactivate host w = (Throw err, w') ->
  err <> AssertionError ->
  (exists m, err = HostError m) /\
  exists d,
    _activationDisposable (this w) = Some d /\
    disposed d = false /\
    this w' = set_activationDisposable
                (Some {| disposed := true; teardowns := teardowns d |})
                (set_currentlyActiveFeatures [] (this w)).
Proof.
  unfold deactivate. unfold bind at 1. unfold get_this. cbv beta iota.
  unfold bind at 1. unfold invariant.
  destruct (_activationDisposable (this w)) as [d|] eqn:Hd.
  2: { unfold throw. intros H. by injection H as <-. }
  destruct (negb (disposed d)) eqn:Hnd.
  2: { unfold throw. intros H. by injection H as <-. }
  apply negb_true_iff in Hnd.
  unfold ret at 1. cbv beta iota. unfold bind at 1.
  destruct (deactivate_loop_isolates_failures host true
              (_currentlyActiveFeatures (this w)) w) as (attempts & -> & _).
  unfold bind at 1. unfold modify_this at 1. cbv beta iota.
  unfold bind at 1. unfold UniversalDisposable_dispose. rewrite Hnd.
  unfold bind at 1. unfold modify_this at 1. cbv beta iota.
  unfold bind at 1.
  destruct (forEach (teardowns d) _ host _) as [[[]|err1] w1] eqn:Hloop.
  - unfold modify_this. discriminate.
  - intros H _. injection H as <- <-.
    split; [by eapply dispose_members_throw_host_error|].
    apply dispose_members_keeps_this in Hloop. simpl in Hloop.
    exists d. by rewrite <- Hloop.
Qed.

Lemma constructor_fields params loader :
  constructor params = Some loader ->
  _loadDisposable loader = new_UniversalDisposable [] /\
  _activationDisposable loader = None /\
  _currentlyActiveFeatures loader = [].
Proof.
  unfold constructor.
  destruct (reorderFeatures (p_features params)); [|discriminate].
  simpl. intros H. injection H as <-. done.
Qed.

(** What each phase says of the subscriptions of [activate]. *)
Lemma Lifecycle_invariant devMode host loader w p :
  Lifecycle devMode host loader w p ->
  disposed (_loadDisposable (this w)) = false /\
  match p with
  | Unloaded | Loaded | Deactivated => _activationDisposable (this w) = None
  | Activated | ActivateAborted => isActivated (this w) = true
  | DeactivateAborted =>
      exists d, _activationDisposable (this w) = Some d /\ disposed d = true
  end.
Proof.
  induction 1 as [params past Hc
                 |w p w' _ IH Hrun
                 |cfg w p w' _ IH Hrun
                 |w p w' _ IH Hrun
                 |w p err w' _ IH Hrun
                 |cfg w p w' _ IH Hrun
                 |cfg w p err w' _ IH Hrun Herr Hnone
                 |cfg w p err w' _ IH Hrun Herr Hsome
                 |w p w' _ IH Hrun
                 |w p err w' _ IH Hrun Herr
                 |cfg w p r w' _ IH Hrun
                 |cfg w p r w' _ IH Hrun
                 |w p r w' _ IH Hrun].
  - apply constructor_fields in Hc as (Hl & Ha & _). simpl. by rewrite Hl, Ha.
  - destruct IH as [Hl Hp].
    destruct (load_passes_guard _ _ _ _ _ Hl Hrun) as (_ & Hl' & Ha').
    split; [done|]. unfold isActivated in *. rewrite Ha'. by destruct p.
  - destruct IH as [Hl _].
    apply activate_returned in Hrun as [Ha' Hl']. by rewrite Hl'.
  - destruct IH as [Hl _].
    apply deactivate_returned in Hrun as [Ha' Hl']. by rewrite Hl'.
  - destruct IH as [Hl Hp].
    destruct (load_passes_guard _ _ _ _ _ Hl Hrun) as (_ & Hl' & Ha').
    split; [done|]. unfold isActivated in *. by rewrite Ha'.
  - apply activate_refused in Hrun. by rewrite Hrun.
  - destruct IH as [Hl Hp].
    destruct (activate_threw _ _ _ _ _ Hrun Herr) as (Hbefore & _ & [Heq|Heq]).
    + by rewrite Heq.
    + rewrite Heq in Hnone. discriminate.
  - destruct IH as [Hl Hp].
    destruct (activate_threw _ _ _ _ _ Hrun Herr) as (Hbefore & _ & [Heq|Heq]).
    + rewrite Heq in Hsome. done.
    + by rewrite Heq.
  - apply deactivate_refused in Hrun. by rewrite Hrun.
  - destruct IH as [Hl Hp].
    destruct (deactivate_threw _ _ _ _ Hrun Herr) as (_ & d & Hd & Hnd & ->).
    simpl. split; [done|]. eauto.
  - destruct IH as [Hl Hp].
    apply updateActiveFeatures_keeps_disposables in Hrun as [Hl' Ha'].
    unfold isActivated in *. by rewrite Hl', Ha'.
  - apply loadEnabledFeatures_keeps_this in Hrun. by rewrite <- Hrun.
  - apply serialize_keeps_this in Hrun. by rewrite <- Hrun.
Qed.

(** The steps leave no outcome out: whatever a call does to a world of the
    lifecycle, the world it leaves is one of the lifecycle. *)
Lemma Lifecycle_closed devMode host loader w p :
  Lifecycle devMode host loader w p ->
  (forall r w', load devMode host w = (r, w') ->
     exists p', Lifecycle devMode host loader w' p') /\
  (forall cfg r w', activate cfg host w = (r, w') ->
     exists p', Lifecycle devMode host loader w' p') /\
  (forall r w', deactivate host w = (r, w') ->
     exists p', Lifecycle devMode host loader w' p') /\
  (forall cfg r w', updateActiveFeatures cfg host w = (r, w') ->
     exists p', Lifecycle devMode host loader w' p') /\
  (forall cfg r w', loadEnabledFeatures cfg host w = (r, w') ->
     exists p', Lifecycle devMode host loader w' p') /\
  (forall r w', serialize host w = (r, w') ->
     exists p', Lifecycle devMode host loader w' p').
Proof.
  intros H. split; [|split; [|split; [|split; [|split]]]].
  - intros [[]|err] w' Hrun; eexists.
    + by eapply lifecycle_load.
    + by eapply lifecycle_load_threw.
  - intros cfg [[]|err] w' Hrun.
    + eexists. by eapply lifecycle_activate.
    + destruct (decide (err = AssertionError)) as [->|Herr].
      * eexists. by eapply lifecycle_activate_refused.
      * destruct (_activationDisposable (this w')) as [d|] eqn:Hd; eexists.
        -- eapply lifecycle_activate_aborted; eauto. by rewrite Hd.
        -- eapply lifecycle_activate_failed; eauto.
  - intros [[]|err] w' Hrun.
    + eexists. by eapply lifecycle_deactivate.
    + destruct (decide (err = AssertionError)) as [->|Herr]; eexists.
      * by eapply lifecycle_deactivate_refused.
      * by eapply lifecycle_deactivate_aborted.
  - intros cfg r w' Hrun. eexists. by eapply lifecycle_pass.
  - intros cfg r w' Hrun. eexists. by eapply lifecycle_root_package_loaded.
  - intros r w' Hrun. eexists. by eapply lifecycle_serialize.
Qed.

(** Past its first invariant, [activate] is turned down only for want of
    the root package. *)
Lemma activate_refused_for_root_package cfg host w w' :
  _activationDisposable (this w) = None ->
  activate cfg host w = (Throw AssertionError, w') ->
  host (log w) (packages_getLoadedPackage (_pkgName (this w))) = Returned None.
Proof.
  intros Hd. unfold activate. unfold bind at 1. unfold get_this. cbv beta iota.
  unfold bind at 1. unfold invariant.
  rewrite bool_decide_eq_true_2 by done.
  unfold ret at 1. cbv beta iota.
  unfold bind at 1. unfold callHost at 1.
  destruct (host _ (packages_getLoadedPackage _)) as [[rootPackage|]|m];
    [|done|discriminate].
  unfold bind at 1. unfold callHost at 1.
  destruct (host _ (localStorage_removeItem _)) as [v1|m1]; [|discriminate].
  unfold bind at 1. unfold callHost at 1.
  destruct (host _ (config_onDidChange _)) as [v2|m2]; [|discriminate].
  unfold bind at 1. unfold callHost at 1.
  destruct (host _ (config_onDidChange _)) as [v3|m3]; [|discriminate].
  unfold bind at 1. unfold modify_this at 1. cbv beta iota.
  intros Hrun. apply updateActiveFeatures_throws_host_error in Hrun as [_ [m Hm]].
  discriminate.
Qed.

(** Past its invariant, [deactivate] is not turned down. *)
Lemma deactivate_passes_guard host w r w' :
  isActivated (this w) = true ->
  deactivate host w = (r, w') ->
  r <> Throw AssertionError.
Proof.
  intros Hact Hrun ->. apply deactivate_refused in Hrun as Hsame.
  revert Hrun. unfold deactivate. unfold bind at 1. unfold get_this. cbv beta iota.
  unfold bind at 1. unfold invariant. unfold isActivated in Hact.
  destruct (_activationDisposable (this w)) as [d|] eqn:Hd; [|discriminate].
  rewrite Hact. apply negb_true_iff in Hact.
  unfold ret at 1. cbv beta iota. unfold bind at 1.
  destruct (deactivate_loop_isolates_failures host true
              (_currentlyActiveFeatures (this w)) w) as (attempts & -> & _).
  unfold bind at 1. unfold modify_this at 1. cbv beta iota.
  unfold bind at 1. unfold UniversalDisposable_dispose. rewrite Hact.
  unfold bind at 1. unfold modify_this at 1. cbv beta iota.
  unfold bind at 1.
  destruct (forEach (teardowns d) _ host _) as [[[]|err] w1] eqn:Hloop.
  - unfold modify_this. discriminate.
  - apply dispose_members_throw_host_error in Hloop as [m ->]. discriminate.
Qed.

(** C7 (amended). Along the lifecycle of a constructed loader, out-of-order
    calls and calls that a host error ended included: [deactivate] called in
    the Unloaded, Loaded or Deactivated phase, and [activate] called in the
    Activated phase, fail with an uncaught invariant violation before
    calling the host or touching the loader. The same holds of [activate]
    after an [activate] that threw when its subscriptions were stored, and
    of [activate] and [deactivate] after a [deactivate] that threw while
    releasing them; but after such an [activate], [deactivate] is not
    turned down. [load] is never turned down by an invariant, in
    whatever phase it is called; and in the Unloaded, Loaded and
    Deactivated phases alike, [activate] is turned down only if the host
    does not report the root package loaded. *)
Theorem lifecycle_guards devMode host loader w p :
  Lifecycle devMode host loader w p ->
  (p <> Activated -> p <> ActivateAborted ->
   deactivate host w = (Throw AssertionError, w)) /\
  (p = Activated \/ p = ActivateAborted \/ p = DeactivateAborted ->
   forall cfg, activate cfg host w = (Throw AssertionError, w)) /\
  (p = ActivateAborted ->
   forall r w', deactivate host w = (r, w') -> r <> Throw AssertionError) /\
  (forall r w', load devMode host w = (r, w') -> r <> Throw AssertionError) /\
  (p = Unloaded \/ p = Loaded \/ p = Deactivated ->
   forall cfg w',
     activate cfg host w = (Throw AssertionError, w') ->
     host (log w) (packages_getLoadedPackage (_pkgName (this w))) = Returned None).
Proof.
  intros [Hl Hp]%Lifecycle_invariant. split; [|split; [|split; [|split]]].
  - intros H1 H2. apply deactivate_guard. unfold isActivated.
    destruct p; try done; try by rewrite Hp.
    destruct Hp as (d & -> & ->). done.
  - intros Hcase cfg. apply activate_guard.
    destruct Hcase as [->|[->| ->]].
    + unfold isActivated in Hp. by destruct (_activationDisposable (this w)).
    + unfold isActivated in Hp. by destruct (_activationDisposable (this w)).
    + destruct Hp as (d & -> & _). done.
  - intros -> r w' Hrun. by eapply deactivate_passes_guard.
  - intros r w' Hrun. by destruct (load_passes_guard _ _ _ _ _ Hl Hrun).
  - intros Hcase cfg w' Hrun. eapply activate_refused_for_root_package; [|done].
    by destruct Hcase as [->|[->| ->]].
Qed.

Lemma Lifecycle_worldNew : Lifecycle false hostOk loaderAB worldNew Unloaded.
Proof. apply (lifecycle_new false hostOk loaderAB paramsAB). vm_compute. reflexivity. Defined.

Lemma Lifecycle_worldLoaded : Lifecycle false hostOk loaderAB worldLoaded Loaded.
Proof.
  apply (lifecycle_load false hostOk loaderAB worldNew Unloaded);
    [apply Lifecycle_worldNew|].
  vm_compute. reflexivity.
Defined.

Lemma Lifecycle_worldActivated :
  Lifecycle false hostOk loaderAB worldActivated Activated.
Proof.
  apply (lifecycle_activate false hostOk loaderAB noConfig worldLoaded Loaded);
    [apply Lifecycle_worldLoaded|].
  vm_compute. reflexivity.
Defined.

Lemma Lifecycle_worldDeactivated :
  Lifecycle false hostOk loaderAB worldDeactivated Deactivated.
Proof.
  apply (lifecycle_deactivate false hostOk loaderAB worldActivated Activated);
    [apply Lifecycle_worldActivated|].
  vm_compute. reflexivity.
Defined.

(** An [activate] on a host that refuses every activation request: it
    throws with its subscriptions stored. *)
Lemma Lifecycle_worldActivateAborted :
  Lifecycle false hostActivationThrows loaderAB worldActivateAborted ActivateAborted.
Proof.
  apply (lifecycle_activate_aborted false hostActivationThrows loaderAB noConfig
           worldNew Unloaded (HostError "cannot activate")).
  - apply (lifecycle_new false hostActivationThrows loaderAB paramsAB).
    vm_compute. reflexivity.
  - vm_compute. reflexivity.
  - discriminate.
  - vm_compute. discriminate.
Defined.

(** A [deactivate] on a host that refuses to release a subscription: it
    throws with the subscriptions marked released. *)
Lemma Lifecycle_worldDeactivateAborted :
  Lifecycle false hostReleaseThrows loaderAB worldDeactivateAborted DeactivateAborted.
Proof.
  apply (lifecycle_deactivate_aborted false hostReleaseThrows loaderAB
           worldReleaseActivated Activated (HostError "cannot release")).
  - apply (lifecycle_activate false hostReleaseThrows loaderAB noConfig
             (snd (load false hostReleaseThrows worldNew)) Loaded).
    + apply (lifecycle_load false hostReleaseThrows loaderAB worldNew Unloaded).
      * apply (lifecycle_new false hostReleaseThrows loaderAB paramsAB).
        vm_compute. reflexivity.
      * vm_compute. reflexivity.
    + vm_compute. reflexivity.
  - vm_compute. reflexivity.
  - discriminate.
Defined.

Lemma lifecycle_guards_witness :
  (Lifecycle false hostOk loaderAB worldActivated Activated /\
   activate noConfig hostOk worldActivated = (Throw AssertionError, worldActivated)) /\
  (Lifecycle false hostOk loaderAB worldLoaded Loaded /\
   deactivate hostOk worldLoaded = (Throw AssertionError, worldLoaded)) /\
  (Lifecycle false hostActivationThrows loaderAB worldActivateAborted ActivateAborted /\
   activate noConfig hostActivationThrows worldActivateAborted
   = (Throw AssertionError, worldActivateAborted) /\
   exists w', deactivate hostActivationThrows worldActivateAborted = (Ok tt, w')) /\
  (Lifecycle false hostReleaseThrows loaderAB worldDeactivateAborted DeactivateAborted /\
   activate noConfig hostReleaseThrows worldDeactivateAborted
   = (Throw AssertionError, worldDeactivateAborted) /\
   deactivate hostReleaseThrows worldDeactivateAborted
   = (Throw AssertionError, worldDeactivateAborted)).
Proof.
  split; [|split; [|split]].
  - split; [exact Lifecycle_worldActivated|].
    apply (proj1 (proj2 (lifecycle_guards false hostOk loaderAB worldActivated Activated
                           Lifecycle_worldActivated))).
    by left.
  - split; [exact Lifecycle_worldLoaded|].
    apply (proj1 (lifecycle_guards false hostOk loaderAB worldLoaded Loaded
                    Lifecycle_worldLoaded)); discriminate.
  - split; [exact Lifecycle_worldActivateAborted|]. split.
    + apply (proj1 (proj2 (lifecycle_guards false hostActivationThrows loaderAB
                             worldActivateAborted ActivateAborted
                             Lifecycle_worldActivateAborted))).
      right. by left.
    + eexists. vm_compute. reflexivity.
  - split; [exact Lifecycle_worldDeactivateAborted|].
    pose proof (lifecycle_guards false hostReleaseThrows loaderAB
                  worldDeactivateAborted DeactivateAborted
                  Lifecycle_worldDeactivateAborted) as (Hd & Ha & _).
    split; [apply Ha; by repeat right|apply Hd; discriminate].
Defined.

(** C7 as stated fails: a second [load] proceeds, and so does [activate]
    before any [load] and after [deactivate]. *)
Lemma load_twice_and_activate_out_of_order_proceed :
  (Lifecycle false hostOk loaderAB worldLoaded Loaded /\
   exists w', load false hostOk worldLoaded = (Ok tt, w')) /\
  (Lifecycle false hostOk loaderAB worldNew Unloaded /\
   exists w', activate noConfig hostOk worldNew = (Ok tt, w')) /\
  (Lifecycle false hostOk loaderAB worldDeactivated Deactivated /\
   exists w', activate noConfig hostOk worldDeactivated = (Ok tt, w')).
Proof.
  repeat split;
    first [ exact Lifecycle_worldLoaded
          | exact Lifecycle_worldNew
          | exact Lifecycle_worldDeactivated
          | eexists; vm_compute; reflexivity ].
Qed.

(** * Further properties *)

(** ** The resolved set *)

Lemma fold_Set_add_sublist (values acc : list Feature) :
  exists kept, fold_left Set_add values acc = acc ++ kept /\ kept `sublist_of` values.
Proof.
  revert acc. induction values as [|v values IH]; intros acc; simpl.
  - exists []. by rewrite app_nil_r.
  - unfold Set_add at 2. destruct (Set_has acc v).
    + destruct (IH acc) as (kept & -> & Hsub). exists kept. split; [done|].
      by apply sublist_cons.
    + destruct (IH (acc ++ [v])) as (kept & -> & Hsub). exists (v :: kept).
      rewrite <- app_assoc. split; [done|]. by apply sublist_skip.
Qed.

Lemma new_Set_sublist (values : list Feature) : new_Set values `sublist_of` values.
Proof.
  unfold new_Set. by destruct (fold_Set_add_sublist values []) as (kept & -> & Hsub).
Qed.

Lemma List_filter_sublist {A} (f : A -> bool) l : List.filter f l `sublist_of` l.
Proof.
  induction l as [|x l IH]; simpl; [done|].
  destruct (f x); [by apply sublist_skip|by apply sublist_cons].
Qed.

Lemma getEnabledFeatures_sublist cfg this :
  getEnabledFeatures cfg this `sublist_of` _features this.
Proof.
  unfold getEnabledFeatures. etransitivity; [apply new_Set_sublist|].
  apply List_filter_sublist.
Qed.

(** X1. The resolved set lists its features in catalog order: it is a
    subsequence of the catalog. *)
Theorem getEnabledFeatures_in_catalog_order cfg this :
  getEnabledFeatures cfg this `sublist_of` _features this.
Proof. apply getEnabledFeatures_sublist. Qed.

Lemma StronglySorted_sublist {A} (R : A -> A -> Prop) l1 l2 :
  l1 `sublist_of` l2 -> StronglySorted R l2 -> StronglySorted R l1.
Proof.
  induction 1 as [|x l1 l2 Hsub IH|x l1 l2 Hsub IH]; intros Hs; [done|..].
  - apply StronglySorted_inv in Hs as [Hs Hx]. constructor; [by apply IH|].
    rewrite Forall_forall in *. intros y Hy. apply Hx.
    by eapply elem_of_sublist.
  - apply StronglySorted_inv in Hs as [Hs _]. by apply IH.
Qed.

Lemma notBehind_providersFirst l :
  StronglySorted notBehind l -> providersFirst l.
Proof.
  intros Hs i j a b Hi Hj Ha Hb.
  destruct (decide (i < j)%nat) as [|Hge]; [done|exfalso].
  destruct (decide (i = j)) as [->|Hne]; [congruence|].
  assert (Hba : notBehind b a)
    by (apply (StronglySorted_lookup_lt _ l j i); [done|lia|done..]).
  specialize (Hba Ha). congruence.
Qed.

Lemma comparesLeq_notBehind originalOrder a b :
  comparesLeq originalOrder a b -> notBehind a b.
Proof.
  intros (c & Hc & Hle) Hb. unfold compareFeatures in Hc.
  fold (isProvider a) (isProvider b) in Hc. rewrite Hb in Hc.
  destruct (isProvider a); [done|]. simpl in Hc. injection Hc as <-. lia.
Qed.

Lemma constructor_catalog_sorted params this :
  constructor params = Some this -> StronglySorted notBehind (_features this).
Proof.
  unfold constructor.
  destruct (reorderFeatures_sorted (p_features params)) as (result & -> & _ & Hs).
  simpl. intros H. injection H as <-. simpl.
  eapply StronglySorted_weaken; [|exact Hs].
  intros a b _ _. apply comparesLeq_notBehind.
Qed.

(** X2. Of a constructed loader, the resolved set lists every repository
    provider before every other feature, under every configuration: the
    order [reorderFeatures] gives the catalog is the order in which the
    enabled features are loaded and activated. *)
Theorem getEnabledFeatures_providers_first params this cfg :
  constructor params = Some this ->
  providersFirst (getEnabledFeatures cfg this).
Proof.
  intros Hc. apply notBehind_providersFirst.
  eapply StronglySorted_sublist; [apply getEnabledFeatures_sublist|].
  by eapply constructor_catalog_sorted.
Qed.

Lemma getEnabledFeatures_providers_first_witness :
  constructor paramsUnordered = Some loaderReordered /\
  getEnabledFeatures noConfig loaderReordered = [featureRepo; featureA; featureB] /\
  providersFirst (getEnabledFeatures noConfig loaderReordered).
Proof.
  assert (H : constructor paramsUnordered = Some loaderReordered)
    by (vm_compute; reflexivity).
  split; [exact H|]. split; [vm_compute; reflexivity|].
  exact (getEnabledFeatures_providers_first paramsUnordered loaderReordered noConfig H).
Defined.

(** ** The selection of groups *)

Lemma Set_has_ext (s1 s2 : list Feature) x :
  (x ∈ s1 <-> x ∈ s2) -> Set_has s1 x = Set_has s2 x.
Proof.
  intros H. destruct (Set_has s2 x) eqn:E.
  - apply Set_has_true. apply H. by apply Set_has_true.
  - apply Set_has_false. intros Hx. apply H in Hx.
    by apply Set_has_false in E.
Qed.

(** Two configurations with the same rules resolve alike when they make the
    same features eligible. *)
Lemma getEnabledFeatures_ext_selection this rules selection1 selection2 :
  (forall f,
     f ∈ featuresInEnabledGroups
           {| useFeatureRules := rules; enabledFeatureGroups := selection1 |} this
     <-> f ∈ featuresInEnabledGroups
               {| useFeatureRules := rules; enabledFeatureGroups := selection2 |} this) ->
  getEnabledFeatures {| useFeatureRules := rules; enabledFeatureGroups := selection1 |} this
  = getEnabledFeatures {| useFeatureRules := rules; enabledFeatureGroups := selection2 |} this.
Proof.
  intros Heq. unfold getEnabledFeatures. f_equal. apply filter_ext. intros f.
  rewrite (Set_has_ext _ _ f (Heq f)). reflexivity.
Qed.

(** X3. With the empty array as selection, no feature is eligible by group:
    the resolved set is made of the catalog features whose rule is
    ['always'] or [true] and of the members of the required group. A
    feature under the ['default'] rule is left out, unlike under the unset
    selection. *)
Theorem getEnabledFeatures_empty_selection this rules feature :
  let cfg := {| useFeatureRules := rules; enabledFeatureGroups := Some [] |} in
  feature ∈ getEnabledFeatures cfg this <->
  feature ∈ _features this /\
  (featureRule cfg feature = JsString "always" \/
   featureRule cfg feature = JsBool true \/
   feature ∈ requiredFeatures this).
Proof.
  intros cfg. rewrite elem_of_getEnabledFeatures.
  assert (Hnone : featuresInEnabledGroups cfg this = []) by reflexivity.
  rewrite Hnone. split.
  - intros [Hc [H|[H|[[H _]|H]]]]; [auto..| |auto].
    by apply elem_of_nil in H.
  - intros [Hc [H|[H|H]]]; auto.
Qed.

(** X4. A selected group name that the group index does not bind is
    ignored: the resolved set is the one resolved without it. *)
Theorem getEnabledFeatures_unknown_group_ignored this rules before g after :
  _featureGroups this !! g = None ->
  getEnabledFeatures
    {| useFeatureRules := rules; enabledFeatureGroups := Some (before ++ g :: after) |}
    this
  = getEnabledFeatures
      {| useFeatureRules := rules; enabledFeatureGroups := Some (before ++ after) |}
      this.
Proof.
  intros Hg. apply getEnabledFeatures_ext_selection. intros f.
  rewrite !featuresInEnabledGroups_eligible. unfold eligibleByGroup. simpl.
  split.
  - intros (h & Hh & Hf). exists h. split; [|done].
    apply elem_of_app in Hh as [Hh|Hh]; [apply elem_of_app; by left|].
    apply elem_of_cons in Hh as [->|Hh]; [|apply elem_of_app; by right].
    unfold MultiMap_get in Hf. rewrite Hg in Hf. by apply elem_of_nil in Hf.
  - intros (h & Hh & Hf). exists h. split; [|done].
    apply elem_of_app in Hh as [Hh|Hh]; apply elem_of_app; [by left|].
    right. by right.
Qed.

Lemma getEnabledFeatures_unknown_group_ignored_witness :
  _featureGroups loaderGrouped !! "no-such-group" = None /\
  getEnabledFeatures (cfgSelection ["g1"; "no-such-group"; "g2"]) loaderGrouped
  = getEnabledFeatures (cfgSelection ["g1"; "g2"]) loaderGrouped /\
  getEnabledFeatures (cfgSelection ["g1"; "g2"]) loaderGrouped = [featureA; featureB].
Proof.
  assert (H : _featureGroups loaderGrouped !! "no-such-group" = None)
    by (vm_compute; reflexivity).
  split; [exact H|]. split; [|vm_compute; reflexivity].
  exact (getEnabledFeatures_unknown_group_ignored loaderGrouped None
           ["g1"] "no-such-group" ["g2"] H).
Defined.

(** X5. Selecting more groups never disables a feature, and the unset
    selection enables at least what any selection enables. *)
Theorem getEnabledFeatures_monotone this rules selection selection' feature :
  (forall g, g ∈ selection -> g ∈ selection') ->
  feature ∈ getEnabledFeatures
              {| useFeatureRules := rules; enabledFeatureGroups := Some selection |} this ->
  feature ∈ getEnabledFeatures
              {| useFeatureRules := rules; enabledFeatureGroups := Some selection' |} this
  /\ feature ∈ getEnabledFeatures
                 {| useFeatureRules := rules; enabledFeatureGroups := None |} this.
Proof.
  intros Hsub. rewrite !elem_of_getEnabledFeatures.
  rewrite !featuresInEnabledGroups_eligible. unfold eligibleByGroup. simpl.
  intros [Hc [H|[H|[[(g & Hg & Hf) H]|H]]]]; split; split; auto.
  right. right. left. split; [|done]. exists g. auto.
Qed.

Lemma getEnabledFeatures_monotone_witness :
  featureA ∈ getEnabledFeatures (cfgSelection ["g1"]) loaderGrouped /\
  featureA ∈ getEnabledFeatures (cfgSelection ["g2"; "g1"]) loaderGrouped /\
  featureA ∈ getEnabledFeatures noConfig loaderGrouped.
Proof.
  assert (H : featureA ∈ getEnabledFeatures (cfgSelection ["g1"]) loaderGrouped)
    by decide_by_computation.
  split; [exact H|].
  refine (getEnabledFeatures_monotone loaderGrouped None ["g1"] ["g2"; "g1"]
            featureA _ H).
  intros g Hg. by right.
Defined.

(** X6. A rule value other than ['always'], [true] and ['default'] -- be it
    ['never'], [false] or a misspelt word -- disables the feature under
    every selection, unless it is a member of the required group. *)
Theorem getEnabledFeatures_other_rule_disables cfg this feature :
  featureRule cfg feature <> JsString "always" ->
  featureRule cfg feature <> JsBool true ->
  featureRule cfg feature <> JsString "default" ->
  (feature ∈ getEnabledFeatures cfg this <->
   feature ∈ _features this /\ feature ∈ requiredFeatures this).
Proof.
  intros H1 H2 H3. rewrite elem_of_getEnabledFeatures. split.
  - intros [Hc [H|[H|[[_ H]|H]]]]; done.
  - intros [Hc H]. auto.
Qed.

Lemma getEnabledFeatures_other_rule_disables_witness :
  featureRule cfgRuleMisspelt featureA = JsString "Always" /\
  (featureA ∈ getEnabledFeatures cfgRuleMisspelt loaderAB <->
   featureA ∈ _features loaderAB /\ featureA ∈ requiredFeatures loaderAB) /\
  getEnabledFeatures cfgRuleMisspelt loaderAB = [featureB].
Proof.
  split; [vm_compute; reflexivity|]. split; [|vm_compute; reflexivity].
  apply (getEnabledFeatures_other_rule_disables cfgRuleMisspelt loaderAB featureA);
    vm_compute; discriminate.
Defined.

(** ** The group index *)

(** X7. A group definition whose value is not an array, like a group name
    that is not defined at all, gets no binding in the index and reads as
    the empty set. *)
Theorem groupFeatures_skips_non_arrays features raw key :
  (forall names, raw !! key <> Some (JsArray names)) ->
  groupFeatures features raw !! key = None /\
  MultiMap_get key (groupFeatures features raw) = [].
Proof.
  intros Hraw.
  assert (H : groupFeatures features raw !! key = None).
  { rewrite groupFeatures_lookup. destruct (raw !! key) as [v|]; [|done].
    destruct v; try done. by destruct (Hraw items). }
  split; [done|]. unfold MultiMap_get. by rewrite H.
Qed.

Lemma groupFeatures_skips_non_arrays_witness :
  rawGroupsOdd !! "not-an-array" = Some (JsString "feature-a") /\
  MultiMap_get "not-an-array" (groupFeatures [featureA] rawGroupsOdd) = [] /\
  MultiMap_get "g1" (groupFeatures [featureA] rawGroupsOdd) = [featureA].
Proof.
  split; [vm_compute; reflexivity|]. split; [|vm_compute; reflexivity].
  refine (proj2 (groupFeatures_skips_non_arrays [featureA] rawGroupsOdd
                   "not-an-array" _)).
  intros names. vm_compute. discriminate.
Defined.

Lemma namesToFeatures_fold_other (features : list Feature) (acc : gmap string Feature) n :
  (forall f, f ∈ features -> basename (path f) <> n) ->
  fold_left (fun m feature => <[basename (path feature) := feature]> m) features acc
    !! n = acc !! n.
Proof.
  revert acc. induction features as [|g features IH]; intros acc Hn; [done|].
  simpl. rewrite IH by (intros f Hf; apply Hn; by right).
  apply lookup_insert_ne. apply Hn. left.
Qed.

Lemma namesToFeatures_fold_later (features : list Feature) (acc : gmap string Feature) n x :
  (exists g, g ∈ features /\ basename (path g) = n) ->
  fold_left (fun m feature => <[basename (path feature) := feature]> m) features acc
    !! n = Some x ->
  x ∈ features.
Proof.
  revert acc. induction features as [|g0 features IH]; intros acc (g & Hg & Hn) Hx.
  { by apply elem_of_nil in Hg. }
  simpl in Hx.
  destruct (decide (Exists (fun h => basename (path h) = n) features))
    as [Hlater|Hnone]; rewrite Exists_exists in *.
  - right. by eapply IH.
  - rewrite namesToFeatures_fold_other in Hx.
    + apply elem_of_cons in Hg as [->|Hg]; [|exfalso; apply Hnone; eauto].
      rewrite Hn, lookup_insert_eq in Hx. injection Hx as <-. left.
    + intros f Hf Hfn. apply Hnone. eauto.
Qed.

(** X8. When features of a catalog without repeated objects share a package
    name, only the last of them can be a member of a group: an earlier one
    is in no group, whatever the group definitions. *)
Theorem groupFeatures_earlier_namesake_excluded before f after g raw key :
  NoDup (before ++ f :: after) ->
  g ∈ after ->
  featureId g = featureId f ->
  f ∉ MultiMap_get key (groupFeatures (before ++ f :: after) raw).
Proof.
  intros Hnd Hg Hname Hf.
  assert (Hlookup : namesToFeatures (before ++ f :: after) !! featureId f = Some f).
  { unfold MultiMap_get in Hf. rewrite groupFeatures_lookup in Hf.
    destruct (raw !! key) as [v|]; simpl in Hf; [|by apply elem_of_nil in Hf].
    destruct v; simpl in Hf; try by apply elem_of_nil in Hf.
    by apply elem_of_resolved_names in Hf as [_ Hf]. }
  unfold namesToFeatures in Hlookup. rewrite fold_left_app in Hlookup. simpl in Hlookup.
  apply namesToFeatures_fold_later in Hlookup; [|by exists g].
  apply NoDup_app in Hnd as (_ & _ & Hnd). apply NoDup_cons in Hnd as [Hnd _]. done.
Qed.

Lemma groupFeatures_earlier_namesake_excluded_witness :
  NoDup ([featureB] ++ featureA :: [featureA']) /\
  featureId featureA' = featureId featureA /\
  (featureA ∉ MultiMap_get "g1"
                (groupFeatures ([featureB] ++ featureA :: [featureA']) rawGroupsOdd)) /\
  MultiMap_get "g1" (groupFeatures ([featureB] ++ featureA :: [featureA']) rawGroupsOdd)
  = [featureA'].
Proof.
  assert (Hnd : NoDup ([featureB] ++ featureA :: [featureA'])) by decide_by_computation.
  assert (Hg : featureA' ∈ [featureA']) by left.
  assert (Hn : featureId featureA' = featureId featureA) by (vm_compute; reflexivity).
  split; [exact Hnd|]. split; [exact Hn|]. split; [|vm_compute; reflexivity].
  exact (groupFeatures_earlier_namesake_excluded [featureB] featureA [featureA']
           featureA' rawGroupsOdd "g1" Hnd Hg Hn).
Defined.

Lemma NoDup_featureId_inj (features : list Feature) f g :
  NoDup (featureId <$> features) ->
  f ∈ features -> g ∈ features -> featureId f = featureId g -> f = g.
Proof.
  induction features as [|x features IH]; intros Hnd Hf Hg Heq.
  { by apply elem_of_nil in Hf. }
  rewrite fmap_cons in Hnd. apply NoDup_cons in Hnd as [Hx Hnd].
  apply elem_of_cons in Hf as [->|Hf]; apply elem_of_cons in Hg as [->|Hg];
    [done| | |by apply IH].
  - exfalso. apply Hx. rewrite Heq. by apply list_elem_of_fmap_2.
  - exfalso. apply Hx. rewrite <- Heq. by apply list_elem_of_fmap_2.
Qed.

(** With distinct package names, a name looks up the feature that bears it. *)
Lemma namesToFeatures_unique features f :
  NoDup (featureId <$> features) ->
  f ∈ features ->
  namesToFeatures features !! featureId f = Some f.
Proof.
  intros Hnd Hf.
  destruct (namesToFeatures features !! featureId f) as [g|] eqn:Hg.
  - apply namesToFeatures_Some in Hg as [Hg Hid]. f_equal.
    by apply (NoDup_featureId_inj features).
  - exfalso. eapply namesToFeatures_None; eauto.
Qed.

(** X9. When the package names of the catalog are distinct, the members of a
    group are exactly the catalog features whose names its definition
    lists. *)
Theorem groupFeatures_members_unique_names features raw key names f :
  NoDup (featureId <$> features) ->
  raw !! key = Some (JsArray names) ->
  (f ∈ MultiMap_get key (groupFeatures features raw) <->
   f ∈ features /\ featureId f ∈ names).
Proof.
  intros Hnd Hraw. unfold MultiMap_get. rewrite groupFeatures_lookup, Hraw. simpl.
  rewrite elem_of_resolved_names. split.
  - intros [Hn Hf]. by apply namesToFeatures_Some in Hf as [Hf _].
  - intros [Hf Hn]. split; [done|]. by apply namesToFeatures_unique.
Qed.

Lemma groupFeatures_members_unique_names_witness :
  NoDup (featureId <$> [featureA; featureB]) /\
  rawGroupsOdd !! "g1" = Some (JsArray ["feature-a"]) /\
  featureA ∈ MultiMap_get "g1" (groupFeatures [featureA; featureB] rawGroupsOdd).
Proof.
  assert (Hnd : NoDup (featureId <$> [featureA; featureB])) by decide_by_computation.
  assert (Hraw : rawGroupsOdd !! "g1" = Some (JsArray ["feature-a"]))
    by (vm_compute; reflexivity).
  split; [exact Hnd|]. split; [exact Hraw|].
  apply (groupFeatures_members_unique_names [featureA; featureB] rawGroupsOdd "g1"
           ["feature-a"] featureA Hnd Hraw).
  split; [left|]. vm_compute. left.
Defined.

Lemma namesToFeatures_Permutation features features' :
  NoDup (featureId <$> features) ->
  features' ≡ₚ features ->
  namesToFeatures features' = namesToFeatures features.
Proof.
  intros Hnd Hperm.
  assert (Hnd' : NoDup (featureId <$> features')) by (by rewrite Hperm).
  apply map_eq. intros n.
  destruct (namesToFeatures features !! n) as [f|] eqn:Hf.
  - apply namesToFeatures_Some in Hf as [Hf <-].
    apply namesToFeatures_unique; [done|]. by rewrite Hperm.
  - apply namesToFeatures_None. intros f Hf'. rewrite Hperm in Hf'.
    by eapply namesToFeatures_None.
Qed.

Lemma groupFeatures_Permutation features features' raw :
  NoDup (featureId <$> features) ->
  features' ≡ₚ features ->
  groupFeatures features' raw = groupFeatures features raw.
Proof.
  intros Hnd Hperm. apply map_eq. intros key. rewrite !groupFeatures_lookup.
  destruct (raw !! key) as [v|]; [|done]. simpl.
  unfold resolveGroup. by rewrite (namesToFeatures_Permutation features features').
Qed.

(** X10. When the package names of the given features are distinct, the
    reordering the constructor applies does not show in the group index: it
    is the index of the features as they were given. *)
Theorem constructor_groups_of_given_order params this :
  NoDup (featureId <$> p_features params) ->
  constructor params = Some this ->
  _featureGroups this
  = groupFeatures (p_features params) (optionalGroups (p_featureGroups params)).
Proof.
  intros Hnd. unfold constructor.
  destruct (reorderFeatures_returns (p_features params)) as (result & -> & Hperm).
  simpl. intros H. injection H as <-. simpl.
  by apply groupFeatures_Permutation.
Qed.

Lemma constructor_groups_of_given_order_witness :
  NoDup (featureId <$> p_features paramsUnordered) /\
  constructor paramsUnordered = Some loaderReordered /\
  _featureGroups loaderReordered
  = groupFeatures (p_features paramsUnordered)
      (optionalGroups (p_featureGroups paramsUnordered)).
Proof.
  assert (Hnd : NoDup (featureId <$> p_features paramsUnordered))
    by decide_by_computation.
  assert (Hc : constructor paramsUnordered = Some loaderReordered)
    by (vm_compute; reflexivity).
  split; [exact Hnd|]. split; [exact Hc|].
  exact (constructor_groups_of_given_order paramsUnordered loaderReordered Hnd Hc).
Defined.

(** ** [reorderFeatures] once more *)

Lemma providersFirst_tail x l : providersFirst (x :: l) -> providersFirst l.
Proof.
  intros H i j a b Hi Hj Ha Hb.
  assert (S i < S j)%nat by (by apply (H (S i) (S j) a b)). lia.
Qed.

Lemma providersFirst_partition l :
  providersFirst l -> List.filter isProvider l ++ List.filter isOther l = l.
Proof.
  induction l as [|x l IH]; intros Hl; [done|]. simpl. unfold isOther at 1.
  destruct (isProvider x) eqn:Hx; simpl.
  - f_equal. by apply IH, (providersFirst_tail x).
  - assert (Hnone : forall y, y ∈ l -> isProvider y = false).
    { intros y [i Hi]%list_elem_of_lookup.
      destruct (isProvider y) eqn:Hy; [|done].
      assert (S i < 0)%nat by (by apply (Hl (S i) 0%nat y x)). lia. }
    assert (Hp : List.filter isProvider l = []).
    { apply elem_of_nil_inv. intros y [Hy Hpy]%list_elem_of_In%filter_In.
      apply list_elem_of_In, Hnone in Hy. congruence. }
    assert (Ho : List.filter isOther l = l).
    { rewrite <- (IH (providersFirst_tail x l Hl)) at 2. by rewrite Hp. }
    by rewrite Hp, Ho.
Qed.

(** X11. A list without repeated features in which the repository
    providers already stand first is returned as it is; so are the empty
    list, a list without providers and a list of providers only. *)
Theorem reorderFeatures_fixed_point features :
  NoDup features ->
  providersFirst features ->
  reorderFeatures features = Some features.
Proof.
  intros Hnd Hpf. rewrite reorderFeatures_partitions by done.
  by rewrite providersFirst_partition.
Qed.

Lemma reorderFeatures_fixed_point_witness :
  NoDup [featureRepo; featureA; featureB] /\
  providersFirst [featureRepo; featureA; featureB] /\
  reorderFeatures [featureRepo; featureA; featureB]
  = Some [featureRepo; featureA; featureB].
Proof.
  assert (Hnd : NoDup [featureRepo; featureA; featureB]) by decide_by_computation.
  assert (Hpf : providersFirst [featureRepo; featureA; featureB]).
  { intros i j a b Hi Hj Ha Hb.
    destruct i as [|[|[|i]]]; simpl in Hi; try discriminate;
      injection Hi as <-; try (vm_compute in Ha; discriminate).
    destruct j as [|j]; [|lia]. simpl in Hj. injection Hj as <-.
    vm_compute in Hb. discriminate. }
  split; [exact Hnd|]. split; [exact Hpf|].
  exact (reorderFeatures_fixed_point _ Hnd Hpf).
Defined.

(** X12. Reordering is idempotent on lists without repeated features: the
    result of [reorderFeatures] is left as it is by [reorderFeatures]. *)
Theorem reorderFeatures_idempotent features result :
  NoDup features ->
  reorderFeatures features = Some result ->
  reorderFeatures result = Some result.
Proof.
  intros Hnd Hr.
  destruct (reorderFeatures_sorted features) as (result' & Hr' & Hperm & Hsorted).
  rewrite Hr in Hr'. injection Hr' as <-.
  assert (Hnd' : NoDup result) by (by rewrite Hperm).
  rewrite reorderFeatures_partitions by done. f_equal.
  apply providersFirst_partition, notBehind_providersFirst.
  eapply StronglySorted_weaken; [|exact Hsorted].
  intros a b _ _. apply comparesLeq_notBehind.
Qed.

Lemma reorderFeatures_idempotent_witness :
  NoDup [featureA; featureRepo; featureB] /\
  reorderFeatures [featureA; featureRepo; featureB]
  = Some [featureRepo; featureA; featureB] /\
  reorderFeatures [featureRepo; featureA; featureB]
  = Some [featureRepo; featureA; featureB].
Proof.
  assert (Hnd : NoDup [featureA; featureRepo; featureB]) by decide_by_computation.
  assert (Hr : reorderFeatures [featureA; featureRepo; featureB]
               = Some [featureRepo; featureA; featureB]) by (vm_compute; reflexivity).
  split; [exact Hnd|]. split; [exact Hr|].
  exact (reorderFeatures_idempotent _ _ Hnd Hr).
Defined.

(** ** What the methods maintain *)

Section Keeping.

Context (I : FeatureLoader -> FeatureLoader -> Prop).
Hypothesis I_refl : forall l, I l l.
Hypothesis I_trans : forall l1 l2 l3, I l1 l2 -> I l2 l3 -> I l1 l3.

Lemma Keeps_ret {A} (a : A) : Keeps I (ret a).
Proof. intros host w r w' H. injection H as <- <-. apply I_refl. Qed.

Lemma Keeps_throw {A} err : Keeps I (@throw A err).
Proof. intros host w r w' H. injection H as <- <-. apply I_refl. Qed.

Lemma Keeps_invariant cond : Keeps I (invariant cond).
Proof. destruct cond; [apply Keeps_ret|apply Keeps_throw]. Qed.

Lemma Keeps_get_this : Keeps I get_this.
Proof. intros host w r w' H. injection H as <- <-. apply I_refl. Qed.

Lemma Keeps_callHost c : Keeps I (callHost c).
Proof.
  intros host w r w'. unfold callHost, record.
  destruct (host (log w) c); intros H; injection H as <- <-; apply I_refl.
Qed.

Lemma Keeps_consoleError text : Keeps I (consoleError text).
Proof. intros host w r w' H. injection H as <- <-. apply I_refl. Qed.

Lemma Keeps_modify_this f : (forall l, I l (f l)) -> Keeps I (modify_this f).
Proof. intros Hf host w r w' H. injection H as <- <-. apply Hf. Qed.

Lemma Keeps_bind {A B} (m : M A) (k : A -> M B) :
  Keeps I m -> (forall a, Keeps I (k a)) -> Keeps I (bind m k).
Proof.
  intros Hm Hk host w r w'. unfold bind.
  destruct (m host w) as [[a|err] w1] eqn:E; intros H.
  - eapply I_trans; [by eapply Hm|by eapply Hk].
  - injection H as <- <-. by eapply Hm.
Qed.

Lemma Keeps_try_catch body handler :
  Keeps I body -> (forall err, Keeps I (handler err)) -> Keeps I (try_catch body handler).
Proof.
  intros Hb Hh host w r w'. unfold try_catch.
  destruct (body host w) as [[a|err] w1] eqn:E; intros H.
  - injection H as <- <-. by eapply Hb.
  - eapply I_trans; [by eapply Hb|by eapply Hh].
Qed.

Lemma Keeps_forEach {A} (xs : list A) body :
  (forall x, Keeps I (body x)) -> Keeps I (forEach xs body).
Proof.
  intros Hb. induction xs as [|x xs IH]; simpl; [apply Keeps_ret|].
  apply Keeps_bind; [apply Hb|intros _; apply IH].
Qed.

Lemma Keeps_safeDeactivate feature suppressSerialization :
  Keeps I (safeDeactivate feature suppressSerialization).
Proof.
  apply Keeps_try_catch.
  - apply Keeps_bind; [apply Keeps_callHost|]. intros [p|]; [|apply Keeps_ret].
    apply Keeps_bind; [apply Keeps_callHost|intros _; apply Keeps_ret].
  - intros err. apply Keeps_consoleError.
Qed.

Lemma Keeps_safeSerialize feature : Keeps I (safeSerialize feature).
Proof.
  apply Keeps_try_catch.
  - apply Keeps_bind; [apply Keeps_callHost|]. intros [p|]; [|apply Keeps_ret].
    apply Keeps_bind; [apply Keeps_callHost|intros _; apply Keeps_ret].
  - intros err. apply Keeps_consoleError.
Qed.

Lemma Keeps_serialize : Keeps I serialize.
Proof.
  apply Keeps_bind; [apply Keeps_get_this|]. intros this.
  apply Keeps_forEach. intros x. apply Keeps_safeSerialize.
Qed.

Lemma Keeps_loadEnabledFeatures cfg : Keeps I (loadEnabledFeatures cfg).
Proof.
  apply Keeps_bind; [apply Keeps_get_this|]. intros this.
  apply Keeps_bind.
  - apply Keeps_forEach. intros x.
    apply Keeps_bind; [apply Keeps_callHost|intros _; apply Keeps_ret].
  - intros _. apply Keeps_bind; [apply Keeps_callHost|intros _; apply Keeps_ret].
Qed.

Lemma Keeps_UniversalDisposable_add member (d : UniversalDisposable) :
  Keeps I (UniversalDisposable_add member d).
Proof.
  unfold UniversalDisposable_add. destruct (disposed d); [|apply Keeps_ret].
  apply Keeps_bind; [apply Keeps_callHost|intros _; apply Keeps_ret].
Qed.

Hypothesis I_loadDisposable : forall d l, I l (set_loadDisposable d l).
Hypothesis I_config : forall c l, I l (set_config c l).
Hypothesis I_activationDisposable : forall d l, I l (set_activationDisposable d l).
Hypothesis I_deactivated : forall l, I l (set_currentlyActiveFeatures [] l).

Lemma Keeps_load devMode : Keeps I (load devMode).
Proof.
  unfold load.
  repeat first
    [ apply Keeps_bind; [|intros ?]
    | apply Keeps_get_this | apply Keeps_invariant | apply Keeps_callHost
    | apply Keeps_UniversalDisposable_add
    | apply Keeps_modify_this; intros ?; first [apply I_loadDisposable|apply I_config]
    | match goal with
      | |- Keeps I (match ?c with Some _ => _ | None => _ end) =>
          destruct c; [|apply Keeps_throw]
      end ].
Qed.

Lemma Keeps_deactivate : Keeps I deactivate.
Proof.
  unfold deactivate.
  apply Keeps_bind; [apply Keeps_get_this|]. intros this.
  apply Keeps_bind; [apply Keeps_invariant|]. intros _.
  apply Keeps_bind.
  { apply Keeps_forEach. intros x. apply Keeps_safeDeactivate. }
  intros _. apply Keeps_bind.
  { apply Keeps_modify_this. apply I_deactivated. }
  intros _. destruct (_activationDisposable this) as [d|]; [|apply Keeps_throw].
  apply Keeps_bind; [|intros _; apply Keeps_modify_this; apply I_activationDisposable].
  unfold UniversalDisposable_dispose. destruct (disposed d); [apply Keeps_ret|].
  apply Keeps_bind; [apply Keeps_modify_this; apply I_activationDisposable|].
  intros _. apply Keeps_bind.
  - apply Keeps_forEach. intros x.
    apply Keeps_bind; [apply Keeps_callHost|intros _; apply Keeps_ret].
  - intros _. apply Keeps_modify_this. apply I_activationDisposable.
Qed.

Hypothesis I_pass : forall cfg, Keeps I (updateActiveFeatures cfg).

Lemma Keeps_activate cfg : Keeps I (activate cfg).
Proof.
  unfold activate.
  apply Keeps_bind; [apply Keeps_get_this|]. intros this.
  apply Keeps_bind; [apply Keeps_invariant|]. intros _.
  apply Keeps_bind; [apply Keeps_callHost|]. intros [rootPackage|];
    [|apply Keeps_throw].
  repeat (apply Keeps_bind; [apply Keeps_callHost|intros _]).
  apply Keeps_bind; [apply Keeps_modify_this; apply I_activationDisposable|].
  intros _. apply I_pass.
Qed.

End Keeping.

Lemma Maintained_refl l : Maintained l l.
Proof. by split. Qed.

Lemma Maintained_trans l1 l2 l3 :
  Maintained l1 l2 -> Maintained l2 l3 -> Maintained l1 l3.
Proof.
  intros [(F1 & G1 & N1 & P1) A1] [(F2 & G2 & N2 & P2) A2]. split; [|auto].
  repeat split; congruence.
Qed.

Lemma Maintained_pass cfg : Keeps Maintained (updateActiveFeatures cfg).
Proof.
  intros host w r w' Hrun.
  destruct (updateActiveFeatures_cases cfg host w)
    as [(requests & attempts & Heq & _)
       |(issued & feature & rest & requests & m & _ & _ & Heq)];
    rewrite Heq in Hrun; injection Hrun as <- <-; simpl; [|apply Maintained_refl].
  split; [done|]. intros _. split; simpl.
  - apply NoDup_new_Set.
  - intros f Hf. by apply elem_of_getEnabledFeatures in Hf as [Hf _].
Qed.

Lemma Maintained_method cfg devMode :
  Keeps Maintained (load devMode) /\ Keeps Maintained (activate cfg) /\
  Keeps Maintained deactivate /\ Keeps Maintained serialize /\
  Keeps Maintained (loadEnabledFeatures cfg).
Proof.
  assert (Hd : forall d l, Maintained l (set_activationDisposable d l)) by (by split).
  split; [|split; [|split; [|split]]].
  - apply Keeps_load; first [apply Maintained_refl|apply Maintained_trans|by split].
  - apply Keeps_activate;
      first [apply Maintained_refl|apply Maintained_trans|apply Maintained_pass|exact Hd].
  - apply Keeps_deactivate;
      first [apply Maintained_refl|apply Maintained_trans|exact Hd|idtac].
    intros l. split; [done|]. intros _. split; simpl; [constructor|].
    intros f Hf. by apply elem_of_nil in Hf.
  - apply Keeps_serialize; first [apply Maintained_refl|apply Maintained_trans].
  - apply Keeps_loadEnabledFeatures; first [apply Maintained_refl|apply Maintained_trans].
Qed.

Lemma Lifecycle_maintained devMode host loader w p :
  Lifecycle devMode host loader w p -> Maintained loader (this w).
Proof.
  destruct (Maintained_method noConfig devMode) as (Hl & _ & Hd & Hs & _).
  assert (Ha : forall cfg, Keeps Maintained (activate cfg))
    by (intros cfg; apply (Maintained_method cfg devMode)).
  assert (Hcb : forall cfg, Keeps Maintained (loadEnabledFeatures cfg))
    by (intros cfg; apply (Maintained_method cfg devMode)).
  induction 1; [apply Maintained_refl|..];
    (eapply Maintained_trans; [eassumption|]);
    first [ by eapply Hl | by eapply Ha | by eapply Hd | by eapply Hs
          | by eapply Hcb | by eapply Maintained_pass ].
Qed.

Lemma Lifecycle_constructed devMode host loader w p :
  Lifecycle devMode host loader w p ->
  exists params, constructor params = Some loader.
Proof. induction 1; eauto. Qed.

(** X13. Whatever calls a constructed loader goes through, and however
    they end, its catalog, its group index, its package name and its path
    stay what the constructor made them: no method reorders, extends or
    regroups the features. *)
Theorem lifecycle_keeps_catalog devMode host loader w p :
  Lifecycle devMode host loader w p ->
  (exists params, constructor params = Some loader) /\
  _features (this w) = _features loader /\
  _featureGroups (this w) = _featureGroups loader /\
  _pkgName (this w) = _pkgName loader /\
  _path (this w) = _path loader.
Proof.
  intros H. split; [by eapply Lifecycle_constructed|].
  by apply Lifecycle_maintained in H as [Hsame _].
Qed.

Lemma lifecycle_keeps_catalog_witness :
  Lifecycle false hostOk loaderAB worldActivated Activated /\
  _features (this worldActivated) = _features loaderAB /\
  _featureGroups (this worldActivated) = _featureGroups loaderAB.
Proof.
  split; [exact Lifecycle_worldActivated|].
  destruct (lifecycle_keeps_catalog false hostOk loaderAB worldActivated Activated
              Lifecycle_worldActivated) as (_ & Hf & Hg & _).
  split; [exact Hf|exact Hg].
Defined.

(** X14. Whatever calls a constructed loader goes through, and however
    they end, its active set holds no feature twice and holds features of
    the catalog only. *)
Theorem lifecycle_active_set_within_catalog devMode host loader w p :
  Lifecycle devMode host loader w p ->
  NoDup (_currentlyActiveFeatures (this w)) /\
  forall f, f ∈ _currentlyActiveFeatures (this w) -> f ∈ _features (this w).
Proof.
  intros H. destruct (Lifecycle_constructed _ _ _ _ _ H) as [params Hc].
  apply Lifecycle_maintained in H as [_ Hactive].
  apply Hactive. apply constructor_fields in Hc as (_ & _ & Hempty).
  split; rewrite Hempty; [constructor|]. intros f Hf. by apply elem_of_nil in Hf.
Qed.

Lemma lifecycle_active_set_within_catalog_witness :
  Lifecycle false hostOk loaderAB worldActivated Activated /\
  _currentlyActiveFeatures (this worldActivated) = [featureA; featureB] /\
  NoDup (_currentlyActiveFeatures (this worldActivated)).
Proof.
  split; [exact Lifecycle_worldActivated|]. split; [vm_compute; reflexivity|].
  exact (proj1 (lifecycle_active_set_within_catalog false hostOk loaderAB
                  worldActivated Activated Lifecycle_worldActivated)).
Defined.

(** ** What the methods do *)

Lemma load_runs devMode host w w' :
  load devMode host w = (Ok tt, w') ->
  exists e1 e2 e3 config,
    ReturnedCall
      (deserializers_add (_pkgName (this w) +:+ ".ForceMainModuleLoad")) e1 /\
    ReturnedCall (featureConfig_setPackageName (_pkgName (this w))) e2 /\
    ReturnedCall packages_onDidLoadPackage e3 /\
    log w' = log w ++ [e1; e2; e3] /\
    buildConfig devMode (_features (this w)) = Some config /\
    _config (this w') = Some config /\
    _loadDisposable (this w')
    = {| disposed := false;
         teardowns :=
           teardowns (_loadDisposable (this w))
           ++ [deserializers_add (_pkgName (this w) +:+ ".ForceMainModuleLoad");
               packages_onDidLoadPackage] |} /\
    _currentlyActiveFeatures (this w') = _currentlyActiveFeatures (this w) /\
    _activationDisposable (this w') = _activationDisposable (this w).
Proof.
  unfold load, bind, get_this, invariant, UniversalDisposable_add,
    modify_this, callHost, record, ret, throw.
  destruct (disposed (_loadDisposable (this w))) eqn:Hd; simpl; [discriminate|].
  destruct (host _ (deserializers_add _)) as [v1|m1]; simpl; [|discriminate].
  rewrite ?Hd. simpl.
  destruct (host _ (featureConfig_setPackageName _)) as [v2|m2]; simpl; [|discriminate].
  destruct (buildConfig devMode (_features (this w))) as [config|]; simpl;
    [|discriminate].
  destruct (host _ packages_onDidLoadPackage) as [v3|m3]; simpl; [|discriminate].
  intros H. injection H as <-. simpl.
  eexists _, _, _, config. repeat (split; [by eexists|]).
  rewrite <- !app_assoc. simpl. done.
Qed.

(** X15. A [load] that returns has made three calls and no other:
    it registered the deserializer [<name>.ForceMainModuleLoad], told
    feature-config the package name and subscribed to loaded packages. It
    stored the configuration schema built from the catalog, which
    [buildConfig] built without throwing, and the two handles; it loaded
    and activated no package, and left the active set and the activation
    state alone. *)
Theorem load_effects devMode host w w' :
  load devMode host w = (Ok tt, w') ->
  exists e1 e2 e3 config,
    ReturnedCall
      (deserializers_add (_pkgName (this w) +:+ ".ForceMainModuleLoad")) e1 /\
    ReturnedCall (featureConfig_setPackageName (_pkgName (this w))) e2 /\
    ReturnedCall packages_onDidLoadPackage e3 /\
    log w' = log w ++ [e1; e2; e3] /\
    buildConfig devMode (_features (this w)) = Some config /\
    _config (this w') = Some config /\
    _loadDisposable (this w')
    = {| disposed := false;
         teardowns :=
           teardowns (_loadDisposable (this w))
           ++ [deserializers_add (_pkgName (this w) +:+ ".ForceMainModuleLoad");
               packages_onDidLoadPackage] |} /\
    _currentlyActiveFeatures (this w') = _currentlyActiveFeatures (this w) /\
    _activationDisposable (this w') = _activationDisposable (this w).
Proof. apply load_runs. Qed.

Lemma load_effects_witness :
  load false hostOk worldNew = (Ok tt, worldLoaded) /\
  log worldLoaded
  = [Called (deserializers_add "nuclide.ForceMainModuleLoad") (Returned None);
     Called (featureConfig_setPackageName "nuclide") (Returned None);
     Called packages_onDidLoadPackage (Returned None)] /\
  _config (this worldLoaded) = buildConfig false [featureA; featureB].
Proof.
  assert (H : load false hostOk worldNew = (Ok tt, worldLoaded))
    by (vm_compute; reflexivity).
  split; [exact H|]. split; [vm_compute; reflexivity|].
  destruct (load_effects false hostOk worldNew worldLoaded H)
    as (e1 & e2 & e3 & config & _ & _ & _ & _ & Hbuilt & Hconfig & _).
  rewrite Hconfig. symmetry. exact Hbuilt.
Defined.

(** X16. When the host does not report the root package loaded, [activate]
    fails with an invariant violation right after asking for it: it has
    subscribed to nothing, activated nothing and left the loader as it
    was. *)
Theorem activate_without_root_package cfg host w :
  _activationDisposable (this w) = None ->
  host (log w) (packages_getLoadedPackage (_pkgName (this w))) = Returned None ->
  activate cfg host w
  = (Throw AssertionError,
     {| this := this w;
        log := log w ++ [Called (packages_getLoadedPackage (_pkgName (this w)))
                           (Returned None)] |}).
Proof.
  intros Hd Hroot. unfold activate, bind, get_this, invariant, callHost, throw, record.
  rewrite Hd. simpl. rewrite Hroot. reflexivity.
Qed.

Lemma activate_without_root_package_witness :
  _activationDisposable (this worldBare) = None /\
  hostNothingLoaded (log worldBare) (packages_getLoadedPackage (_pkgName (this worldBare)))
  = Returned None /\
  activate noConfig hostNothingLoaded worldBare
  = (Throw AssertionError,
     {| this := loaderAB;
        log := [Called (packages_getLoadedPackage "nuclide") (Returned None)] |}).
Proof.
  split; [reflexivity|]. split; [reflexivity|].
  exact (activate_without_root_package noConfig hostNothingLoaded worldBare
           eq_refl eq_refl).
Defined.

(** X17. An [activate] that returns was called with no subscriptions held.
    It looked up the root package, removed its deferred-main-module key from
    local storage, subscribed to changes of the rule table and of the
    selection, in this order, recorded the two subscriptions, and then ran
    one reconciliation pass, which returned. *)
Theorem activate_effects cfg host w w' :
  activate cfg host w = (Ok tt, w') ->
  _activationDisposable (this w) = None /\
  exists root e1 e2 e3,
    ReturnedCall (localStorage_removeItem (canDeferMainModuleRequireStorageKey root)) e1 /\
    ReturnedCall (config_onDidChange (_pkgName (this w) +:+ ".use")) e2 /\
    ReturnedCall
      (config_onDidChange (_pkgName (this w) +:+ ".enabledFeatureGroups")) e3 /\
    updateActiveFeatures cfg host
      {| this :=
           set_activationDisposable
             (Some (new_UniversalDisposable (configSubscriptions (this w)))) (this w);
         log :=
           log w ++ [Called (packages_getLoadedPackage (_pkgName (this w)))
                       (Returned (Some root)); e1; e2; e3] |}
    = (Ok tt, w').
Proof.
  unfold activate. unfold bind at 1. unfold get_this. cbv beta iota.
  unfold bind at 1. unfold invariant.
  destruct (bool_decide _) eqn:Hd; [|discriminate].
  apply bool_decide_eq_true in Hd.
  unfold ret at 1. cbv beta iota.
  unfold bind at 1. unfold callHost at 1.
  destruct (host _ (packages_getLoadedPackage _)) as [[root|]|m]; try discriminate.
  unfold bind at 1. unfold callHost at 1.
  destruct (host _ (localStorage_removeItem _)) as [v1|m1]; [|discriminate].
  unfold bind at 1. unfold callHost at 1.
  destruct (host _ (config_onDidChange _)) as [v2|m2]; [|discriminate].
  unfold bind at 1. unfold callHost at 1.
  destruct (host _ (config_onDidChange _)) as [v3|m3]; [|discriminate].
  unfold bind at 1. unfold modify_this at 1. cbv beta iota.
  unfold record. simpl. rewrite <- !app_assoc. simpl.
  intros Hrun. split; [done|].
  exists root. eexists _, _, _. repeat (split; [by eexists|]). exact Hrun.
Qed.

Lemma activate_effects_witness :
  activate noConfig hostOk worldLoaded = (Ok tt, worldActivated) /\
  _activationDisposable (this worldLoaded) = None /\
  _activationDisposable (this worldActivated)
  = Some (new_UniversalDisposable (configSubscriptions (this worldLoaded))).
Proof.
  assert (H : activate noConfig hostOk worldLoaded = (Ok tt, worldActivated))
    by (vm_compute; reflexivity).
  split; [exact H|].
  split; [exact (proj1 (activate_effects noConfig hostOk worldLoaded worldActivated H))|].
  vm_compute. reflexivity.
Defined.

(** A loop of calls whose results are not looked at: if it returns, every
    call returned, in order. *)
Lemma calls_return {A} (call : A -> Call) host xs w w' :
  forEach xs (fun x => callHost (call x) ;; ret tt) host w = (Ok tt, w') ->
  exists events,
    w' = {| this := this w; log := log w ++ events |} /\
    Forall2 (fun x e => ReturnedCall (call x) e) xs events.
Proof.
  revert w. induction xs as [|x xs IH]; intros w; simpl.
  - intros H. injection H as <-. exists []. rewrite app_nil_r.
    split; [by destruct w|constructor].
  - unfold bind at 1. unfold bind at 1. unfold callHost at 1.
    destruct (host (log w) (call x)) as [v|m]; [|discriminate].
    unfold ret at 1. intros (events & -> & Hev)%IH.
    exists (Called (call x) (Returned v) :: events). simpl.
    rewrite <- app_assoc. split; [done|]. constructor; [by eexists|done].
Qed.

Lemma deactivate_runs host w w' :
  deactivate host w = (Ok tt, w') ->
  exists d attempts releases,
    _activationDisposable (this w) = Some d /\
    disposed d = false /\
    log w' = log w ++ concat attempts ++ releases /\
    Forall2 (fun feature attempt =>
               DeactivationAttempt (featureId feature) true attempt)
            (_currentlyActiveFeatures (this w)) attempts /\
    Forall2 (fun subscription e => ReturnedCall (dispose subscription) e)
            (teardowns d) releases /\
    this w' = set_activationDisposable None (set_currentlyActiveFeatures [] (this w)).
Proof.
  unfold deactivate. unfold bind at 1. unfold get_this. cbv beta iota.
  unfold bind at 1. unfold invariant.
  destruct (_activationDisposable (this w)) as [d|] eqn:Hd; [|discriminate].
  destruct (negb (disposed d)) eqn:Hnd; [|discriminate].
  apply negb_true_iff in Hnd.
  unfold ret at 1. cbv beta iota. unfold bind at 1.
  destruct (deactivate_loop_isolates_failures host true
              (_currentlyActiveFeatures (this w)) w) as (attempts & -> & Hatt).
  unfold bind at 1. unfold modify_this at 1. cbv beta iota.
  unfold bind at 1. unfold UniversalDisposable_dispose. rewrite Hnd.
  unfold bind at 1. unfold modify_this at 1. cbv beta iota.
  unfold bind at 1.
  destruct (forEach (teardowns d) _ host _) as [[[]|err] w1] eqn:Hloop;
    [|discriminate].
  apply calls_return in Hloop as (releases & -> & Hrel).
  unfold modify_this. intros H. injection H as <-. simpl.
  exists d, attempts, releases. rewrite <- app_assoc. done.
Qed.

(** X18. A [deactivate] that returns found the subscriptions of [activate]
    unreleased. It made one guarded deactivation per active feature, in the
    order of the active set and each with serialization suppressed, then
    released the subscriptions in the order they were made; it left the
    active set empty and the loader without subscriptions. *)
Theorem deactivate_effects host w w' :
  deactivate host w = (Ok tt, w') ->
  exists d attempts releases,
    _activationDisposable (this w) = Some d /\
    disposed d = false /\
    log w' = log w ++ concat attempts ++ releases /\
    Forall2 (fun feature attempt =>
               DeactivationAttempt (featureId feature) true attempt)
            (_currentlyActiveFeatures (this w)) attempts /\
    Forall2 (fun subscription e => ReturnedCall (dispose subscription) e)
            (teardowns d) releases /\
    this w' = set_activationDisposable None (set_currentlyActiveFeatures [] (this w)).
Proof. apply deactivate_runs. Qed.

Lemma deactivate_effects_witness :
  deactivate hostOk worldActivated = (Ok tt, worldDeactivated) /\
  _currentlyActiveFeatures (this worldActivated) = [featureA; featureB] /\
  _currentlyActiveFeatures (this worldDeactivated) = [] /\
  _activationDisposable (this worldDeactivated) = None.
Proof.
  assert (H : deactivate hostOk worldActivated = (Ok tt, worldDeactivated))
    by (vm_compute; reflexivity).
  split; [exact H|]. split; [vm_compute; reflexivity|].
  destruct (deactivate_effects hostOk worldActivated worldDeactivated H)
    as (d & attempts & releases & _ & _ & _ & _ & _ & Hthis).
  rewrite Hthis. split; reflexivity.
Defined.

Lemma activate_runs cfg host w w' :
  activate cfg host w = (Ok tt, w') ->
  _activationDisposable (this w') =
    Some (new_UniversalDisposable (configSubscriptions (this w))) /\
  sameCatalog (this w) (this w').
Proof.
  unfold activate. unfold bind at 1. unfold get_this. cbv beta iota.
  unfold bind at 1. unfold invariant.
  destruct (bool_decide _); [|discriminate]. unfold ret at 1. cbv beta iota.
  unfold bind at 1. unfold callHost at 1.
  destruct (host _ (packages_getLoadedPackage _)) as [[root|]|m]; try discriminate.
  unfold bind at 1. unfold callHost at 1.
  destruct (host _ (localStorage_removeItem _)) as [v1|m1]; [|discriminate].
  unfold bind at 1. unfold callHost at 1.
  destruct (host _ (config_onDidChange _)) as [v2|m2]; [|discriminate].
  unfold bind at 1. unfold callHost at 1.
  destruct (host _ (config_onDidChange _)) as [v3|m3]; [|discriminate].
  unfold bind at 1. unfold modify_this at 1. cbv beta iota.
  intros Hrun.
  pose proof (updateActiveFeatures_keeps_disposables _ _ _ _ _ Hrun) as [_ Ha].
  pose proof (Maintained_pass _ _ _ _ _ Hrun) as [Hsame _].
  split; [by rewrite Ha|exact Hsame].
Qed.

Lemma configSubscriptions_sameCatalog l l' :
  sameCatalog l l' -> configSubscriptions l' = configSubscriptions l.
Proof.
  intros (_ & _ & Hn & _). unfold configSubscriptions, getUseKeyPath,
    getEnabledFeatureGroupsKeyPath. by rewrite Hn.
Qed.

Lemma Lifecycle_subscriptions devMode host loader w p :
  Lifecycle devMode host loader w p ->
  _activationDisposable (this w)
  = match p with
    | Unloaded | Loaded | Deactivated => None
    | Activated | ActivateAborted =>
        Some {| disposed := false; teardowns := configSubscriptions loader |}
    | DeactivateAborted =>
        Some {| disposed := true; teardowns := configSubscriptions loader |}
    end.
Proof.
  induction 1 as [params past Hc
                 |w p w' HL IH Hrun
                 |cfg w p w' HL IH Hrun
                 |w p w' HL IH Hrun
                 |w p err w' HL IH Hrun
                 |cfg w p w' HL IH Hrun
                 |cfg w p err w' HL IH Hrun Herr Hnone
                 |cfg w p err w' HL IH Hrun Herr Hsome
                 |w p w' HL IH Hrun
                 |w p err w' HL IH Hrun Herr
                 |cfg w p r w' HL IH Hrun
                 |cfg w p r w' HL IH Hrun
                 |w p r w' HL IH Hrun].
  - apply constructor_fields in Hc as (_ & Ha & _). done.
  - destruct (Lifecycle_invariant _ _ _ _ _ HL) as [Hl _].
    destruct (load_passes_guard _ _ _ _ _ Hl Hrun) as (_ & _ & Ha).
    rewrite Ha, IH. by destruct p.
  - apply Lifecycle_maintained in HL as [Hsame _].
    apply activate_runs in Hrun as [Ha _].
    by rewrite Ha, (configSubscriptions_sameCatalog _ _ Hsame).
  - by apply deactivate_returned in Hrun as [Ha _].
  - destruct (Lifecycle_invariant _ _ _ _ _ HL) as [Hl _].
    destruct (load_passes_guard _ _ _ _ _ Hl Hrun) as (_ & _ & Ha).
    by rewrite Ha.
  - apply activate_refused in Hrun. by rewrite Hrun.
  - destruct (activate_threw _ _ _ _ _ Hrun Herr) as (Hbefore & _ & _).
    rewrite Hnone. rewrite Hbefore in IH. by destruct p.
  - apply Lifecycle_maintained in HL as [Hsame _].
    destruct (activate_threw _ _ _ _ _ Hrun Herr) as (Hbefore & _ & [Heq|Heq]).
    + rewrite Heq in Hsome. done.
    + rewrite Heq. simpl. fold (configSubscriptions (this w)).
      by rewrite (configSubscriptions_sameCatalog _ _ Hsame).
  - apply deactivate_refused in Hrun. by rewrite Hrun.
  - destruct (deactivate_threw _ _ _ _ Hrun Herr) as (_ & d & Hd & Hnd & Heq).
    rewrite Heq. simpl. rewrite Hd in IH.
    destruct p; try discriminate; injection IH as ->; simpl in *; done.
  - pose proof (updateActiveFeatures_keeps_disposables _ _ _ _ _ Hrun) as [_ Ha].
    by rewrite Ha.
  - apply loadEnabledFeatures_keeps_this in Hrun. by rewrite <- Hrun.
  - apply serialize_keeps_this in Hrun. by rewrite <- Hrun.
Qed.

(** X19. The phase tells what the loader holds of the subscriptions of
    [activate], whatever passes, callbacks, serializations, refused and
    failed calls came in between: none in the Unloaded, Loaded and
    Deactivated phases; in the Activated phase, and after an [activate]
    that threw in its reconciliation pass, exactly the two [activate] made,
    to the rule table and to the selection, unreleased; after a
    [deactivate] that threw while releasing them, the same two, marked
    released. *)
Theorem lifecycle_phase_subscriptions devMode host loader w p :
  Lifecycle devMode host loader w p ->
  _activationDisposable (this w)
  = match p with
    | Unloaded | Loaded | Deactivated => None
    | Activated | ActivateAborted =>
        Some {| disposed := false;
                teardowns :=
                  [config_onDidChange (_pkgName loader +:+ ".use");
                   config_onDidChange (_pkgName loader +:+ ".enabledFeatureGroups")] |}
    | DeactivateAborted =>
        Some {| disposed := true;
                teardowns :=
                  [config_onDidChange (_pkgName loader +:+ ".use");
                   config_onDidChange (_pkgName loader +:+ ".enabledFeatureGroups")] |}
    end.
Proof. apply Lifecycle_subscriptions. Qed.

Lemma lifecycle_phase_subscriptions_witness :
  (Lifecycle false hostOk loaderAB worldActivated Activated /\
   _activationDisposable (this worldActivated)
   = Some {| disposed := false;
             teardowns :=
               [config_onDidChange "nuclide.use";
                config_onDidChange "nuclide.enabledFeatureGroups"] |}) /\
  (Lifecycle false hostActivationThrows loaderAB worldActivateAborted ActivateAborted /\
   _activationDisposable (this worldActivateAborted)
   = Some {| disposed := false;
             teardowns :=
               [config_onDidChange "nuclide.use";
                config_onDidChange "nuclide.enabledFeatureGroups"] |}).
Proof.
  split.
  - split; [exact Lifecycle_worldActivated|].
    exact (lifecycle_phase_subscriptions false hostOk loaderAB worldActivated
             Activated Lifecycle_worldActivated).
  - split; [exact Lifecycle_worldActivateAborted|].
    exact (lifecycle_phase_subscriptions false hostActivationThrows loaderAB
             worldActivateAborted ActivateAborted Lifecycle_worldActivateAborted).
Defined.

(** ** The configuration schema *)







Lemma getConfig_runs host w :
  getConfig host w
  = match _config (this w) with
    | Some config => (Ok config, w)
    | None => (Throw AssertionError, w)
    end.
Proof.
  unfold getConfig, bind, get_this. by destruct (_config (this w)).
Qed.

(** X20. Once [load] has returned, [getConfig] returns the schema that
    [load] built from the catalog, and changes nothing. *)
Theorem getConfig_after_load devMode host host' w w' :
  load devMode host w = (Ok tt, w') ->
  exists config,
    buildConfig devMode (_features (this w)) = Some config /\
    getConfig host' w' = (Ok config, w').
Proof.
  intros Hrun.
  destruct (load_runs _ _ _ _ Hrun)
    as (e1 & e2 & e3 & config & _ & _ & _ & _ & Hb & Hcfg & _).
  exists config. by rewrite getConfig_runs, Hcfg.
Qed.

Lemma getConfig_after_load_witness :
  load false hostOk worldNew = (Ok tt, worldLoaded) /\
  exists config,
    buildConfig false (_features (this worldNew)) = Some config /\
    getConfig hostNothingLoaded worldLoaded = (Ok config, worldLoaded).
Proof.
  assert (H : load false hostOk worldNew = (Ok tt, worldLoaded))
    by (vm_compute; reflexivity).
  split; [exact H|].
  exact (getConfig_after_load false hostOk hostNothingLoaded worldNew worldLoaded H).
Defined.




(** The default of a setting goes by the name it is stored under. *)
Lemma assignProperty_lookup {A} key (value : A) obj k :
  assignProperty key value obj !! k
  = if decide (k = key /\ key <> "__proto__") then Some value else obj !! k.
Proof.
  unfold assignProperty. destruct (String.eqb key "__proto__") eqn:E.
  - apply String.eqb_eq in E. case_decide as Hd; [|done]. by destruct Hd.
  - apply String.eqb_neq in E. rewrite lookup_insert. case_decide as H1.
    + subst k. by rewrite decide_True.
    + rewrite decide_False; [done|]. intros [-> _]. done.
Qed.

Lemma schemaEntries_no_setting entries :
  forall acc properties,
    schemaEntries entries acc = Some properties ->
    (forall k setting, acc !! k <> Some (FeatureSetting setting)) ->
    forall k setting, properties !! k <> Some (FeatureSetting setting).
Proof.
  induction entries as [|[key v] entries IH]; intros acc properties; simpl.
  - intros H. by injection H as <-.
  - destruct (schemaEntry key v) as [entry|]; [|discriminate]. simpl.
    intros H Hacc. eapply IH; [exact H|].
    intros k setting. rewrite assignProperty_lookup.
    case_decide; [discriminate|apply Hacc].
Qed.

Lemma buildConfig_step_defaults devMode config feature config' :
  buildConfig_step devMode config feature = Some config' ->
  (forall key section k setting,
     config !! key = Some section ->
     properties section !! k = Some (FeatureSetting setting) ->
     setting_default setting
     = if String.prefix "sample-" k then "never" else "default") ->
  forall key section k setting,
    config' !! key = Some section ->
    properties section !! k = Some (FeatureSetting setting) ->
    setting_default setting
    = if String.prefix "sample-" k then "never" else "default".
Proof.
  unfold buildConfig_step.
  destruct (config !! "use") as [use|] eqn:Huse; [|discriminate]. simpl.
  intros Hstep Hinv.
  assert (Hmid : forall key section k setting,
            (<["use" := {| section_type := section_type use;
                           section_title := section_title use;
                           section_description := section_description use;
                           collapsed := collapsed use;
                           properties :=
                             assignProperty (packageNameFromPath (path feature))
                               (FeatureSetting (featureSetting devMode feature))
                               (properties use) |}]> config) !! key = Some section ->
            properties section !! k = Some (FeatureSetting setting) ->
            setting_default setting
            = if String.prefix "sample-" k then "never" else "default").
  { intros key section k setting. rewrite lookup_insert.
    case_decide as Hkey; [|by apply Hinv].
    intros H. injection H as <-. simpl. rewrite assignProperty_lookup.
    case_decide as Hk; [|by apply (Hinv "use" use)].
    destruct Hk as [-> _]. intros H. by injection H as <-. }
  destruct (featurePkgConfig (pkg feature)) as [entries|].
  - destruct (schemaEntries entries ∅) as [props|] eqn:Hprops; [|discriminate].
    simpl in Hstep. injection Hstep as <-.
    intros key section k setting. rewrite assignProperty_lookup.
    case_decide as Hkey; [|by apply Hmid].
    intros H. injection H as <-. simpl. intros Hk. exfalso.
    eapply schemaEntries_no_setting; [exact Hprops| |exact Hk].
    intros k' setting'. by rewrite lookup_empty.
  - injection Hstep as <-. exact Hmid.
Qed.

Lemma buildConfig_fold_None devMode features :
  fold_left
    (fun config feature => config ≫= fun c => buildConfig_step devMode c feature)
    features None = None.
Proof. induction features as [|f features IH]; [done|]. simpl. exact IH. Qed.

Lemma buildConfig_defaults devMode features config :
  buildConfig devMode features = Some config ->
  forall key section k setting,
    config !! key = Some section ->
    properties section !! k = Some (FeatureSetting setting) ->
    setting_default setting
    = if String.prefix "sample-" k then "never" else "default".
Proof.
  unfold buildConfig.
  assert (Hgen : forall start,
            fold_left
              (fun config feature =>
                 config ≫= fun c => buildConfig_step devMode c feature)
              features (Some start) = Some config ->
            (forall key section k setting,
               start !! key = Some section ->
               properties section !! k = Some (FeatureSetting setting) ->
               setting_default setting
               = if String.prefix "sample-" k then "never" else "default") ->
            forall key section k setting,
              config !! key = Some section ->
              properties section !! k = Some (FeatureSetting setting) ->
              setting_default setting
              = if String.prefix "sample-" k then "never" else "default").
  { induction features as [|f features IH]; intros start; simpl.
    - intros H. by injection H as <-.
    - destruct (buildConfig_step devMode start f) as [next|] eqn:Hstep.
      + intros H Hinv. eapply IH; [exact H|].
        by eapply buildConfig_step_defaults.
      + rewrite buildConfig_fold_None. discriminate. }
  intros H. eapply Hgen; [exact H|].
  intros key section k setting. rewrite lookup_singleton.
  case_decide; [|discriminate]. intros Hs. injection Hs as <-. simpl.
  by rewrite lookup_empty.
Qed.

(** X22. The default that the schema shows for a feature is the rule the
    resolver applies to every feature of that name for which the rule table
    has no entry, unless that rule is read off [Object.prototype]: then it
    is the inherited property, not the default of the schema. *)
Theorem buildConfig_default_is_resolver_default
    devMode features config section setting cfg feature :
  buildConfig devMode features = Some config ->
  config !! "use" = Some section ->
  properties section !! featureId feature = Some (FeatureSetting setting) ->
  absentFromRuleTable cfg feature ->
  (~ inheritedRule cfg feature ->
   featureRule cfg feature = JsString (setting_default setting)) /\
  (inheritedRule cfg feature -> featureRule cfg feature = JsObject).
Proof.
  intros Hb Huse Hsetting Habs. split; [|apply featureRule_inherited].
  intros Hown. apply (featureRule_RuleOf _ _ _ Hown).
  rewrite (buildConfig_defaults _ _ _ Hb _ _ _ _ Huse Hsetting).
  rewrite <- getFeatureDefaultValue_sample. by apply absent_RuleOf.
Qed.

Lemma buildConfig_default_is_resolver_default_witness :
  (buildConfig false [featureA; featureSample] = Some configSample /\
   configSample !! "use" = Some sectionSample /\
   properties sectionSample !! featureId featureSample
   = Some (FeatureSetting (featureSetting false featureSample))) /\
  featureRule noConfig featureSample = JsString "never".
Proof.
  assert (H1 : buildConfig false [featureA; featureSample] = Some configSample)
    by (vm_compute; reflexivity).
  assert (H2 : configSample !! "use" = Some sectionSample)
    by (vm_compute; reflexivity).
  assert (H3 : properties sectionSample !! featureId featureSample
               = Some (FeatureSetting (featureSetting false featureSample)))
    by (vm_compute; reflexivity).
  assert (H4 : absentFromRuleTable noConfig featureSample)
    by (intros table v Ht; discriminate).
  split; [done|].
  apply (proj1 (buildConfig_default_is_resolver_default false _ _ _ _ noConfig
                  featureSample H1 H2 H3 H4)).
  intros (table & Ht & _). discriminate.
Defined.

(** What a step of the loop leaves under [use], when [use] is not given
    away to the section of a feature of that name. *)
Lemma buildConfig_step_use devMode config feature config' use :
  buildConfig_step devMode config feature = Some config' ->
  config !! "use" = Some use ->
  (featureId feature = "use" -> featurePkgConfig (pkg feature) = None) ->
  exists use',
    config' !! "use" = Some use' /\
    forall name,
      properties use' !! name
      = if decide (name = featureId feature /\ featureId feature <> "__proto__")
        then Some (FeatureSetting (featureSetting devMode feature))
        else properties use !! name.
Proof.
  unfold buildConfig_step. intros Hstep Huse Hnouse. rewrite Huse in Hstep.
  simpl in Hstep. fold (featureId feature) in Hstep.
  destruct (featurePkgConfig (pkg feature)) as [entries|] eqn:Hcfg.
  - destruct (schemaEntries entries ∅) as [props|]; [|discriminate].
    simpl in Hstep. injection Hstep as <-.
    eexists. split.
    + rewrite assignProperty_lookup. rewrite decide_False.
      * by rewrite lookup_insert_eq.
      * intros [Hname _]. symmetry in Hname. apply Hnouse in Hname. congruence.
    + intros name. simpl. apply assignProperty_lookup.
  - injection Hstep as <-. eexists. split; [by rewrite lookup_insert_eq|].
    intros name. simpl. apply assignProperty_lookup.
Qed.

Lemma buildConfig_fold_use devMode features :
  forall start use config,
    fold_left
      (fun config feature => config ≫= fun c => buildConfig_step devMode c feature)
      features (Some start) = Some config ->
    start !! "use" = Some use ->
    (forall f, f ∈ features -> featureId f = "use" -> featurePkgConfig (pkg f) = None) ->
    exists use',
      config !! "use" = Some use' /\
      forall name,
        properties use' !! name
        = fold_left
            (fun stored f =>
               if decide (name = featureId f /\ featureId f <> "__proto__")
               then Some (FeatureSetting (featureSetting devMode f))
               else stored)
            features (properties use !! name).
Proof.
  induction features as [|f features IH]; intros start use config; simpl.
  - intros H Huse _. injection H as <-. eauto.
  - intros H Huse Hnouse.
    destruct (buildConfig_step devMode start f) as [next|] eqn:Hstep.
    2: { rewrite buildConfig_fold_None in H. discriminate. }
    destruct (buildConfig_step_use _ _ _ _ _ Hstep Huse) as (use1 & Huse1 & Hprops).
    { apply Hnouse. left. }
    destruct (IH _ _ _ H Huse1) as (use' & Huse' & Hprops').
    { intros g Hg. apply Hnouse. by right. }
    exists use'. split; [done|]. intros name. by rewrite Hprops', Hprops.
Qed.

Lemma stored_fold_last devMode name (after : list Feature) stored :
  (forall g, g ∈ after -> featureId g <> name) ->
  fold_left
    (fun stored f =>
       if decide (name = featureId f /\ featureId f <> "__proto__")
       then Some (FeatureSetting (featureSetting devMode f))
       else stored)
    after stored = stored.
Proof.
  revert stored. induction after as [|g after IH]; intros stored Hafter; [done|].
  simpl. rewrite decide_False.
  - apply IH. intros h Hh. apply Hafter. by right.
  - intros [Hname _]. apply (Hafter g); [left|done].
Qed.

Lemma stored_fold_proto devMode (features : list Feature) stored :
  fold_left
    (fun stored f =>
       if decide ("__proto__" = featureId f /\ featureId f <> "__proto__")
       then Some (FeatureSetting (featureSetting devMode f))
       else stored)
    features stored = stored.
Proof.
  revert stored. induction features as [|g features IH]; intros stored; [done|].
  simpl. rewrite decide_False; [apply IH|]. intros [H1 H2]. congruence.
Qed.

(** X28. Where no feature named [use] brings a configuration schema along,
    the schema has under [use.properties] one setting per package name: that
    of the last catalog feature of the name. It has none under a name no
    feature bears, and none under [__proto__], whatever the catalog. *)
Theorem buildConfig_use_properties devMode features config :
  buildConfig devMode features = Some config ->
  (forall f, f ∈ features -> featureId f = "use" -> featurePkgConfig (pkg f) = None) ->
  exists use,
    config !! "use" = Some use /\
    (forall before f after,
       features = before ++ f :: after ->
       (forall g, g ∈ after -> featureId g <> featureId f) ->
       featureId f <> "__proto__" ->
       properties use !! featureId f
       = Some (FeatureSetting (featureSetting devMode f))) /\
    (forall name,
       (forall f, f ∈ features -> featureId f <> name) \/ name = "__proto__" ->
       properties use !! name = None).
Proof.
  intros Hb Hnouse.
  destruct (buildConfig_fold_use devMode features _ useSection config Hb)
    as (use & Huse & Hprops); [by rewrite lookup_singleton_eq|done|].
  exists use. split; [done|]. split.
  - intros before f after -> Hafter Hproto. rewrite Hprops, fold_left_app. simpl.
    rewrite decide_True by done. by apply stored_fold_last.
  - intros name [Hname| ->]; rewrite Hprops; simpl.
    + by rewrite stored_fold_last.
    + by rewrite stored_fold_proto.
Qed.

Lemma buildConfig_use_properties_witness :
  exists config use,
    buildConfig true [featureA; featureRepo; featureA'] = Some config /\
    config !! "use" = Some use /\
    properties use !! "feature-a" = Some (FeatureSetting (featureSetting true featureA')) /\
    properties use !! "__proto__" = None.
Proof.
  destruct (buildConfig true [featureA; featureRepo; featureA']) as [config|] eqn:Hb;
    [|vm_compute in Hb; discriminate].
  destruct (buildConfig_use_properties true _ config Hb)
    as (use & Huse & Hlast & Hnone).
  { intros f Hf _. apply list_elem_of_In in Hf. simpl in Hf.
    destruct Hf as [<-|[<-|[<-|[]]]]; reflexivity. }
  exists config, use. split; [done|]. split; [done|]. split.
  - apply (Hlast [featureA; featureRepo] featureA' []); [reflexivity| |].
    + intros g Hg. by apply elem_of_nil in Hg.
    + vm_compute. discriminate.
  - apply Hnone. by right.
Defined.

(** A schema entry fails to be built exactly for [null]. *)
Lemma schemaEntry_None key v : schemaEntry key v = None <-> v = JsonNull.
Proof. unfold schemaEntry. destruct v; simpl; split; congruence. Qed.

Lemma schemaEntries_None entries :
  forall acc,
    schemaEntries entries acc = None <-> exists key, (key, JsonNull) ∈ entries.
Proof.
  induction entries as [|[key v] entries IH]; intros acc; simpl.
  - split; [discriminate|]. intros [key H]. by apply elem_of_nil in H.
  - destruct (schemaEntry key v) as [entry|] eqn:He; simpl.
    + rewrite IH. split.
      * intros [k Hk]. exists k. by right.
      * intros [k Hk]. apply elem_of_cons in Hk as [Hk|Hk]; [|eauto].
        injection Hk as Hk1 Hk2. subst. discriminate.
    + apply schemaEntry_None in He as ->. split; [|done]. intros _. exists key. left.
Qed.

Lemma buildConfig_step_None devMode config feature :
  is_Some (config !! "use") ->
  (buildConfig_step devMode config feature = None <-> hasNullEntry feature) /\
  (forall config',
     buildConfig_step devMode config feature = Some config' ->
     is_Some (config' !! "use")).
Proof.
  intros [use Huse]. unfold buildConfig_step, hasNullEntry. rewrite Huse. simpl.
  destruct (featurePkgConfig (pkg feature)) as [entries|].
  - destruct (schemaEntries entries ∅) as [props|] eqn:Hprops; simpl.
    + split.
      * split; [discriminate|]. intros (e & key & He & Hnull). injection He as <-.
        assert (Hn : schemaEntries entries ∅ = None) by (apply schemaEntries_None; eauto).
        congruence.
      * intros config' H. injection H as <-. rewrite assignProperty_lookup.
        case_decide; [done|]. by rewrite lookup_insert_eq.
    + split; [|discriminate]. split; [|done]. intros _.
      apply schemaEntries_None in Hprops as [key Hkey]. eauto.
  - split.
    + split; [discriminate|]. intros (e & key & He & _). discriminate.
    + intros config' H. injection H as <-. by rewrite lookup_insert_eq.
Qed.

Lemma buildConfig_throws_on_null devMode features :
  buildConfig devMode features = None <->
  exists feature, feature ∈ features /\ hasNullEntry feature.
Proof.
  unfold buildConfig.
  assert (Hgen : forall start,
            is_Some (start !! "use") ->
            fold_left
              (fun config feature =>
                 config ≫= fun c => buildConfig_step devMode c feature)
              features (Some start) = None <->
            exists feature, feature ∈ features /\ hasNullEntry feature).
  { induction features as [|f features IH]; intros start Huse; simpl.
    - split; [discriminate|]. intros (g & Hg & _). by apply elem_of_nil in Hg.
    - destruct (buildConfig_step_None devMode start f Huse) as [Hnone Hsome].
      destruct (buildConfig_step devMode start f) as [next|] eqn:Hstep.
      + rewrite (IH next) by (by apply Hsome). split.
        * intros (g & Hg & Hnull). exists g. split; [by right|done].
        * intros (g & Hg & Hnull). apply elem_of_cons in Hg as [->|Hg]; [|eauto].
          apply Hnone in Hnull. discriminate.
      + rewrite buildConfig_fold_None. split; [|done]. intros _.
        exists f. split; [left|]. by apply Hnone. }
  apply Hgen. rewrite lookup_singleton_eq. eauto.
Qed.

(** X29. [buildConfig] throws, a TypeError, exactly when the configuration
    schema that some catalog feature brings along ([atomConfig], or else
    [nuclide.config]) has an entry that is [null]: reading its [title]
    fails. *)
Theorem buildConfig_throws_on_null_entry devMode features :
  buildConfig devMode features = None <->
  exists feature, feature ∈ features /\ hasNullEntry feature.
Proof. apply buildConfig_throws_on_null. Qed.

(** X30. A [load] that ends with a TypeError was building the schema of a
    catalog in which some feature's configuration schema has a [null]
    entry. By then it had registered the deserializer and told
    feature-config the package name; it has stored no schema and has not
    subscribed to loaded packages. *)
Theorem load_schema_TypeError devMode host w w' :
  load devMode host w = (Throw TypeError, w') ->
  (exists feature, feature ∈ _features (this w) /\ hasNullEntry feature) /\
  exists e1 e2,
    ReturnedCall
      (deserializers_add (_pkgName (this w) +:+ ".ForceMainModuleLoad")) e1 /\
    ReturnedCall (featureConfig_setPackageName (_pkgName (this w))) e2 /\
    log w' = log w ++ [e1; e2] /\
    this w'
    = set_loadDisposable
        {| disposed := false;
           teardowns :=
             teardowns (_loadDisposable (this w))
             ++ [deserializers_add (_pkgName (this w) +:+ ".ForceMainModuleLoad")] |}
        (this w).
Proof.
  unfold load, bind, get_this, invariant, UniversalDisposable_add,
    modify_this, callHost, record, ret, throw.
  destruct (disposed (_loadDisposable (this w))) eqn:Hd; simpl; [discriminate|].
  destruct (host _ (deserializers_add _)) as [v1|m1]; simpl; [|discriminate].
  rewrite ?Hd. simpl.
  destruct (host _ (featureConfig_setPackageName _)) as [v2|m2]; simpl; [|discriminate].
  destruct (buildConfig devMode (_features (this w))) as [config|] eqn:Hb; simpl.
  - destruct (host _ packages_onDidLoadPackage) as [v3|m3]; simpl; discriminate.
  - intros H. injection H as <-. simpl. split.
    + by apply (buildConfig_throws_on_null devMode).
    + eexists _, _. repeat (split; [by eexists|]).
      rewrite <- !app_assoc. simpl. done.
Qed.

Lemma load_schema_TypeError_witness :
  exists w',
    load false hostOk worldBroken = (Throw TypeError, w') /\
    _config (this w') = None /\
    log w'
    = [Called (deserializers_add "nuclide.ForceMainModuleLoad") (Returned None);
       Called (featureConfig_setPackageName "nuclide") (Returned None)].
Proof.
  destruct (load false hostOk worldBroken) as [r w'] eqn:Hrun.
  assert (Hr : r = Throw TypeError).
  { vm_compute in Hrun. by injection Hrun as <- _. }
  subst r. exists w'. split; [done|].
  destruct (load_schema_TypeError false hostOk worldBroken w' Hrun)
    as (_ & e1 & e2 & _ & _ & Hlog & Hthis).
  split; [by rewrite Hthis|].
  vm_compute in Hrun. by injection Hrun as <-.
Defined.

(** ** The callback of [load] *)

(** X23. The listener that [load] registers ignores every package but the
    root package: for another package it calls nothing and changes
    nothing. *)
Theorem onRootPackageLoaded_ignores_others cfg pack host w :
  packName pack <> _pkgName (this w) ->
  onRootPackageLoaded cfg pack host w = (Ok tt, w).
Proof.
  intros Hne. unfold onRootPackageLoaded, bind, get_this, whenPackageLoaded_listener.
  apply String.eqb_neq in Hne. rewrite Hne. reflexivity.
Qed.

Lemma onRootPackageLoaded_ignores_others_witness :
  packName otherPackage <> _pkgName (this worldLoaded) /\
  onRootPackageLoaded noConfig otherPackage hostOk worldLoaded = (Ok tt, worldLoaded).
Proof.
  assert (H : packName otherPackage <> _pkgName (this worldLoaded))
    by (vm_compute; discriminate).
  split; [exact H|].
  exact (onRootPackageLoaded_ignores_others noConfig otherPackage hostOk worldLoaded H).
Defined.

(** X24. When the root package has loaded and the listener returns, it has
    first released its own subscription, then requested the loading of
    every enabled feature, in the order of the resolved set, and last
    handed the enabled features to the experimental-package activation; it
    has activated nothing and left the loader as it was. *)
Theorem onRootPackageLoaded_loads_enabled cfg pack host w w' :
  packName pack = _pkgName (this w) ->
  onRootPackageLoaded cfg pack host w = (Ok tt, w') ->
  exists release loads experimental,
    ReturnedCall (dispose packages_onDidLoadPackage) release /\
    Forall2 (fun feature e => ReturnedCall (packages_loadPackage (path feature)) e)
            (getEnabledFeatures cfg (this w)) loads /\
    ReturnedCall
      (activateExperimentalPackages (map path (getEnabledFeatures cfg (this w))))
      experimental /\
    w' = {| this := this w; log := log w ++ [release] ++ loads ++ [experimental] |}.
Proof.
  intros Hname. unfold onRootPackageLoaded. unfold bind at 1. unfold get_this.
  cbv beta iota. unfold whenPackageLoaded_listener.
  apply String.eqb_eq in Hname. rewrite Hname. cbn [negb]. cbv beta iota.
  unfold bind at 1. unfold callHost at 1.
  destruct (host (log w) (dispose packages_onDidLoadPackage)) as [v0|m0];
    [|discriminate].
  unfold loadEnabledFeatures. unfold bind at 1. unfold get_this. cbv beta iota.
  unfold record. cbv beta iota. simpl this. simpl log.
  unfold bind at 1.
  destruct (forEach (getEnabledFeatures cfg (this w)) _ host _)
    as [[[]|err] w1] eqn:Hloop; [|discriminate].
  apply (calls_return (fun feature => packages_loadPackage (path feature)))
    in Hloop as (loads & -> & Hloads). simpl.
  unfold bind, callHost, ret, record. simpl.
  destruct (host _ (activateExperimentalPackages _)) as [v1|m1]; [|discriminate].
  intros H. injection H as <-.
  eexists _, loads, _. split; [by eexists|]. split; [done|]. split; [by eexists|].
  by rewrite <- !app_assoc.
Qed.

Lemma onRootPackageLoaded_loads_enabled_witness :
  packName rootPackage = _pkgName (this worldLoaded) /\
  exists w',
    onRootPackageLoaded noConfig rootPackage hostOk worldLoaded = (Ok tt, w') /\
    this w' = this worldLoaded /\
    drop 3 (log w')
    = [Called (dispose packages_onDidLoadPackage) (Returned None);
       Called (packages_loadPackage "/pkgs/feature-a") (Returned None);
       Called (packages_loadPackage "/pkgs/feature-b") (Returned None);
       Called (activateExperimentalPackages ["/pkgs/feature-a"; "/pkgs/feature-b"])
         (Returned None)].
Proof.
  assert (Hn : packName rootPackage = _pkgName (this worldLoaded))
    by (vm_compute; reflexivity).
  split; [exact Hn|].
  assert (Hrun : onRootPackageLoaded noConfig rootPackage hostOk worldLoaded
                 = (Ok tt, snd (onRootPackageLoaded noConfig rootPackage hostOk
                                  worldLoaded)))
    by (vm_compute; reflexivity).
  eexists. split; [exact Hrun|].
  destruct (onRootPackageLoaded_loads_enabled _ _ _ _ _ Hn Hrun)
    as (release & loads & experimental & _ & _ & _ & Hw).
  split; [by rewrite Hw|]. vm_compute. reflexivity.
Defined.

(** ** Passes and guarded calls *)

(** X25. A reconciliation pass that throws was abandoned at an activation
    request: what it throws is what that request threw; the requests before
    it had returned; nothing was reported on the console, no deactivation
    was attempted, and the loader, its active set included, is as it was
    before the pass. *)
Theorem updateActiveFeatures_abandoned cfg host w err w' :
  updateActiveFeatures cfg host w = (Throw err, w') ->
  exists issued feature rest requests m,
    err = HostError m /\
    toActivate (getEnabledFeatures cfg (this w)) (_currentlyActiveFeatures (this w))
    = issued ++ feature :: rest /\
    Forall2 ActivationRequest issued requests /\
    w' = {| this := this w;
            log := log w ++ requests
                   ++ [Called (packages_activatePackage (path feature)) (Threw m)] |}.
Proof.
  intros Hrun.
  destruct (updateActiveFeatures_cases cfg host w)
    as [(requests & attempts & Heq & _)
       |(issued & feature & rest & requests & m & Hsplit & Hreq & Heq)];
    rewrite Heq in Hrun; [discriminate|].
  injection Hrun as <- <-. exists issued, feature, rest, requests, m. done.
Qed.

Lemma updateActiveFeatures_abandoned_witness :
  exists w',
    updateActiveFeatures noConfig hostActivationThrows worldBare
    = (Throw (HostError "cannot activate"), w') /\
    this w' = this worldBare.
Proof.
  assert (Hrun : updateActiveFeatures noConfig hostActivationThrows worldBare
                 = (Throw (HostError "cannot activate"),
                    snd (updateActiveFeatures noConfig hostActivationThrows worldBare)))
    by (vm_compute; reflexivity).
  eexists. split; [exact Hrun|].
  destruct (updateActiveFeatures_abandoned _ _ _ _ _ Hrun)
    as (issued & feature & rest & requests & m & _ & _ & _ & Hw).
  by rewrite Hw.
Defined.

(** X26. The first pass of a loader whose active set is empty, if it
    returns, has requested the activation of every enabled feature, in the
    order of the resolved set, and made the resolved set the active set.
    Past the two configuration reads of [getEnabledFeatures], whose answers
    are [cfg], these requests are all it asked of the host: it has looked
    up no package, requested no deactivation and reported nothing on the
    console. *)
Theorem updateActiveFeatures_from_empty cfg host w w' :
  _currentlyActiveFeatures (this w) = [] ->
  updateActiveFeatures cfg host w = (Ok tt, w') ->
  exists requests,
    Forall2 ActivationRequest (getEnabledFeatures cfg (this w)) requests /\
    w' = {| this := set_currentlyActiveFeatures (getEnabledFeatures cfg (this w)) (this w);
            log := log w ++ requests |}.
Proof.
  intros Hempty Hrun.
  destruct (updateActiveFeatures_cases cfg host w)
    as [(requests & attempts & Heq & Hreq & Hatt)
       |(issued & feature & rest & requests & m & _ & _ & Heq)];
    rewrite Heq in Hrun; [|discriminate].
  injection Hrun as <-. rewrite Hempty in Hreq, Hatt.
  assert (Hall : forall l, toActivate l [] = l).
  { intros l. unfold toActivate. induction l as [|x l IH]; [done|].
    cbn [List.filter]. rewrite (proj2 (Set_has_false [] x)) by apply not_elem_of_nil.
    cbn [negb]. by rewrite IH. }
  rewrite Hall in Hreq. unfold toDeactivate in Hatt. simpl in Hatt.
  inversion Hatt; subst. simpl. rewrite app_nil_r. by exists requests.
Qed.

Lemma updateActiveFeatures_from_empty_witness :
  _currentlyActiveFeatures (this worldBare) = [] /\
  exists w',
    updateActiveFeatures noConfig hostOk worldBare = (Ok tt, w') /\
    log w'
    = [Called (packages_activatePackage "/pkgs/feature-a") (Returned None);
       Called (packages_activatePackage "/pkgs/feature-b") (Returned None)].
Proof.
  split; [reflexivity|].
  assert (Hrun : updateActiveFeatures noConfig hostOk worldBare
                 = (Ok tt, snd (updateActiveFeatures noConfig hostOk worldBare)))
    by (vm_compute; reflexivity).
  eexists. split; [exact Hrun|].
  destruct (updateActiveFeatures_from_empty noConfig hostOk worldBare _ eq_refl Hrun)
    as (requests & _ & Hw).
  vm_compute. reflexivity.
Defined.

(** X27. [safeDeactivate] never throws and never touches the loader: it asks
    the host for the loaded package, requests the deactivation, with the
    flag it was given, only if the host has one, and reports on the
    console, with the package name and the message, whatever either call
    threw. *)
Theorem safeDeactivate_isolates feature suppressSerialization host w :
  exists attempt,
    safeDeactivate feature suppressSerialization host w
    = (Ok tt, {| this := this w; log := log w ++ attempt |}) /\
    DeactivationAttempt (featureId feature) suppressSerialization attempt.
Proof. apply safeDeactivate_returns. Qed.
